(** * monaco-plugin-helpers: the ESM packaging engine ([packageESM.ts])

    A shallow embedding of [_packageESM] and [findNodeModuleImport], and
    the properties of a packaging run: worklist traversal, resolution of
    imports, destination paths and the rewriting of specifiers in place.

    - JavaScript strings are [string]s, one character per code unit;
      offsets are [Z].
    - Node's [path] module is modelled by its POSIX implementation.
    - The file system, the TypeScript import scanner, [JSON.parse] and
      [process.cwd()] are collaborators behind the interface [Host]. The
      engine threads the file-system state through every call, so a write
      is visible to the reads that follow it.
    - The engine handles the contents of a file as text: what it reads
      is the file decoded as UTF-8, what it writes is encoded as UTF-8.
      [Host] speaks of that text; [ByteHost] is a host that keeps the
      bytes.
    - An exception is an outcome ([Throw]); the state reached when it is
      thrown stays, as the effects of an aborted run do.
    - Each [while] loop runs under a bound on its iterations; a loop cut
      off by its bound has outcome [Diverge], with the name of the loop.
    - The state of a run carries the trace of what the run did; nothing
      in the engine reads the trace. *)

From Stdlib Require Import ZArith Lia Ascii.
From Stdlib Require Strings.Byte.
From stdpp Require Import base option list strings gmap sorting.
From Equations Require Import Equations.

Local Open Scope Z_scope.

(** ** JavaScript string primitives used by the engine *)

Module Js.

Definition chars (s : string) : list ascii := String.list_ascii_of_string s.
Definition str (l : list ascii) : string := String.string_of_list_ascii l.

Definition len (s : string) : nat := String.length s.

(** [s.length] as a JavaScript number. *)
Definition length (s : string) : Z := Z.of_nat (len s).

Fixpoint take (n : nat) (s : string) : string :=
  match n, s with
  | S n', String c s' => String c (take n' s')
  | _, _ => EmptyString
  end.

Fixpoint drop (n : nat) (s : string) : string :=
  match n, s with
  | S n', String _ s' => drop n' s'
  | _, _ => s
  end.

(** Index arguments of [substring] are clamped to [0 .. s.length]. *)
Definition clamp (s : string) (i : Z) : nat :=
  Z.to_nat (Z.min (Z.max i 0) (length s)).

(** [s.substring(a, b)]: clamps both indices and swaps them if [a > b]. *)
Definition substring (s : string) (a b : Z) : string :=
  let a' := clamp s a in
  let b' := clamp s b in
  take (Nat.max a' b' - Nat.min a' b') (drop (Nat.min a' b') s).

(** [s.substring(a)]. *)
Definition substring_from (s : string) (a : Z) : string :=
  drop (clamp s a) s.

(** [t] is a prefix of [s]. *)
Fixpoint starts_with (t s : string) : bool :=
  match t, s with
  | EmptyString, _ => true
  | String a t', String b s' => if Ascii.eqb a b then starts_with t' s' else false
  | String _ _, EmptyString => false
  end.

Fixpoint find_from (t s : string) (i : nat) : option nat :=
  if starts_with t s then Some i
  else match s with
       | EmptyString => None
       | String _ s' => find_from t s' (S i)
       end.

(** [s.indexOf(t)]: offset of the first occurrence of [t] in [s], or -1. *)
Definition indexOf (s t : string) : Z :=
  match find_from t s 0 with
  | Some i => Z.of_nat i
  | None => -1
  end.

Fixpoint last_index_from (c : ascii) (s : string) (i : nat) (acc : option nat)
  : option nat :=
  match s with
  | EmptyString => acc
  | String a s' =>
      last_index_from c s' (S i) (if Ascii.eqb a c then Some i else acc)
  end.

(** [s.lastIndexOf(c)] for a one-character needle. *)
Definition lastIndexOf (s : string) (c : ascii) : Z :=
  match last_index_from c s 0 None with
  | Some i => Z.of_nat i
  | None => -1
  end.

Definition slash : ascii := "/"%char.
Definition backslash : ascii := "\"%char.
Definition dot : ascii := "."%char.
Definition dollar : ascii := "$"%char.

(** [s.replace(/\\/g, '/')]. *)
Fixpoint replace_backslashes (s : string) : string :=
  match s with
  | EmptyString => EmptyString
  | String c s' =>
      String (if Ascii.eqb c backslash then slash else c) (replace_backslashes s')
  end.

(** [s.replace(/(\/|\\)$/, '')]: one trailing separator is removed. *)
Fixpoint strip_trailing_separator (s : string) : string :=
  match s with
  | EmptyString => EmptyString
  | String c EmptyString =>
      if Ascii.eqb c slash || Ascii.eqb c backslash then EmptyString else s
  | String c s' => String c (strip_trailing_separator s')
  end.

(** [s.replace(/\.js$/, '')]. *)
Fixpoint strip_js (s : string) : string :=
  match s with
  | EmptyString => EmptyString
  | String c s' =>
      if bool_decide (s = ".js") then EmptyString else String c (strip_js s')
  end.

(** [/(^\.\/)|(^\.\.\/)/.test(s)]. *)
Definition is_relative_specifier (s : string) : bool :=
  starts_with "./" s || starts_with "../" s.

(** The replacement text of [String.prototype.replace] for a string
    pattern (no captures): [$$], [$&], [$`] and [$'] are expanded, any
    other [$] is literal. *)
Fixpoint get_substitution (matched before after repl : string) : string :=
  match repl with
  | String d (String c rest as tl) =>
      if Ascii.eqb d dollar then
        if Ascii.eqb c dollar then String dollar (get_substitution matched before after rest)
        else if Ascii.eqb c "&"%char then matched +:+ get_substitution matched before after rest
        else if Ascii.eqb c "`"%char then before +:+ get_substitution matched before after rest
        else if Ascii.eqb c "'"%char then after +:+ get_substitution matched before after rest
        else String d (get_substitution matched before after tl)
      else String d (get_substitution matched before after tl)
  | _ => repl
  end.

(** [s.replace(t, repl)] with a string pattern: the first occurrence only. *)
Definition replace (s t repl : string) : string :=
  match find_from t s 0 with
  | None => s
  | Some i =>
      let before := take i s in
      let after := drop (i + len t) s in
      before +:+ get_substitution t before after repl +:+ after
  end.

End Js.

(** ** Node's [path] module (POSIX flavour)

    Paths are split at ['/'] into segments; [normalize_string] is
    [normalizeString] of Node's [path.js]: empty and ["."] segments vanish,
    [".."] removes the segment before it, or is kept when nothing is left
    to remove and the path is relative. [cwd] stands for [process.cwd()],
    an absolute path. *)

Module path.

Fixpoint split (s : string) : list string :=
  match s with
  | EmptyString => [EmptyString]
  | String c s' =>
      let r := split s' in
      if Ascii.eqb c Js.slash then EmptyString :: r
      else match r with
           | h :: t => String c h :: t
           | [] => [String c EmptyString]
           end
  end.

Fixpoint intercalate (segs : list string) : string :=
  match segs with
  | [] => EmptyString
  | [s] => s
  | s :: rest => s +:+ "/" +:+ intercalate rest
  end.

(** One segment against the stack of segments kept so far (top first). *)
Definition push_segment (allowAboveRoot : bool) (stack : list string) (seg : string)
  : list string :=
  if bool_decide (seg = "") || bool_decide (seg = ".") then stack
  else if bool_decide (seg = "..") then
    match stack with
    | top :: below =>
        if bool_decide (top = "..")
        then (if allowAboveRoot then seg :: stack else stack)
        else below
    | [] => if allowAboveRoot then [seg] else []
    end
  else seg :: stack.

Definition normalize_segments (allowAboveRoot : bool) (segs : list string) : list string :=
  reverse (foldl (push_segment allowAboveRoot) [] segs).

Definition normalize_string (p : string) (allowAboveRoot : bool) : string :=
  intercalate (normalize_segments allowAboveRoot (split p)).

Definition is_absolute (p : string) : bool := Js.starts_with "/" p.

Definition has_trailing_separator (p : string) : bool :=
  match last (Js.chars p) with
  | Some c => Ascii.eqb c Js.slash
  | None => false
  end.

(** [path.normalize(p)]. *)
Definition normalize (p : string) : string :=
  if bool_decide (p = "") then "."
  else
    let isAbsolute := is_absolute p in
    let trailingSeparator := has_trailing_separator p in
    let q := normalize_string p (negb isAbsolute) in
    let q := if bool_decide (q = "") && negb isAbsolute then "." else q in
    let q := if negb (bool_decide (q = "")) && trailingSeparator then q +:+ "/" else q in
    if isAbsolute then "/" +:+ q else q.

(** [path.join(...args)]: empty arguments are skipped. *)
Definition join (args : list string) : string :=
  match filter (fun a => a ≠ "") args with
  | [] => "."
  | nonempty => normalize (intercalate nonempty)
  end.

Fixpoint drop_while (f : ascii -> bool) (l : list ascii) : list ascii :=
  match l with
  | [] => []
  | c :: l' => if f c then drop_while f l' else l
  end.

Definition is_sep (c : ascii) : bool := Ascii.eqb c Js.slash.

(** [path.dirname(p)]: the scan runs from the last character down to the
    second one, first over trailing separators, then over the last
    segment, and cuts at the separator it meets. *)
Definition dirname (p : string) : string :=
  match Js.chars p with
  | [] => "."
  | c0 :: t =>
      match drop_while (fun c => negb (is_sep c)) (drop_while is_sep (reverse t)) with
      | [] => if is_sep c0 then "/" else "."
      | _ :: before =>
          if is_sep c0 && bool_decide (before = []) then "//"
          else Js.str (c0 :: reverse before)
      end
  end.

(** The loop of [path.resolve]: arguments from right to left, then the
    working directory, until an absolute one is met. *)
Fixpoint resolve_loop (right_to_left : list string) (resolvedPath : string)
  : string * bool :=
  match right_to_left with
  | [] => (resolvedPath, false)
  | p :: more =>
      if bool_decide (p = "") then resolve_loop more resolvedPath
      else
        let resolvedPath := p +:+ "/" +:+ resolvedPath in
        if is_absolute p then (resolvedPath, true) else resolve_loop more resolvedPath
  end.

(** [path.resolve(...args)]. *)
Definition resolve (cwd : string) (args : list string) : string :=
  let '(resolvedPath, resolvedAbsolute) := resolve_loop (reverse args ++ [cwd]) "" in
  let r := normalize_string resolvedPath (negb resolvedAbsolute) in
  if resolvedAbsolute then "/" +:+ r
  else if bool_decide (r = "") then "." else r.

Fixpoint strip_common (a b : list string) : list string * list string :=
  match a, b with
  | x :: a', y :: b' => if bool_decide (x = y) then strip_common a' b' else (a, b)
  | _, _ => (a, b)
  end.

Definition segments (p : string) : list string :=
  filter (fun s => s ≠ "") (split p).

(** [path.relative(from, to)]: both ends are resolved, the common leading
    segments are dropped, one [".."] climbs out of each remaining segment
    of [from], then the rest of [to] follows. *)
Definition relative (cwd : string) (from to : string) : string :=
  if bool_decide (from = to) then ""
  else
    let from := resolve cwd [from] in
    let to := resolve cwd [to] in
    if bool_decide (from = to) then ""
    else
      let '(up, down) := strip_common (segments from) (segments to) in
      intercalate (replicate (length up) ".." ++ down).

End path.

(** ** Data model *)

(** [IOptions]. [resolveAlias] holds the entries of the alias object
    itself; [destinationFolderSimplification] lists the entries of that
    object in the order in which [for (let key in ...)] visits them. Both
    objects are plain objects with the entries their type declares,
    strings under string keys. What a plain object inherits from
    [Object.prototype] is no entry: it is counted where [resolveAlias]
    is looked up, see [lookupAlias]. A replacement is looked up under a
    key of [destinationFolderSimplification], or under a key with a
    slash in it, a name that no object inherits. *)
Record IOptions := mkOptions {
  repoRoot : string;
  esmSource : string;
  esmDestination : string;
  entryPoints : list string;
  resolveAlias : gmap string string;
  resolveSkip : list string;
  destinationFolderSimplification : list (string * string);
}.

(** One element of [info.importedFiles]: [ts.FileReference]. *)
Record FileReference := mkRef {
  fileName : string;
  pos : Z;
  end_ : Z;
}.

(** What [typeof JSON.parse(text).module] sees in a manifest. *)
Inductive ManifestModule :=
| ModuleString (m : string)
| ModuleNotString
| ManifestUnreadable.

(** Exceptions: the engine's own [new Error(message)], and the ones the
    platform raises. *)
Inductive exn :=
| Error (message : string)
| TypeError (message : string)
| ReadFailed (p : string)
| WriteFailed (p : string)
| ManifestParseFailed (p : string).

(** The loops that run under a bound: the walk of [generatePaths], the
    [while] of [applyDestinationFolderSimplifications] and the main loop
    of [_packageESM]. *)
Inductive Loop := WalkLoop | SimplifyLoop | MainLoop.

(** The outcome of a computation: a value, an exception, or a loop that
    is still running when its bound is used up. *)
Inductive Res (A : Type) :=
| Ok (a : A)
| Throw (e : exn)
| Diverge (loop : Loop).
Arguments Ok {A} a.
Arguments Throw {A} e.
Arguments Diverge {A} loop.

(** The collaborators: [fs], [ts.preProcessFile], [JSON.parse] and
    [process.cwd()]. [None] stands for a call that throws.
    [readFileSync fs p] is [fs.readFileSync(p).toString()], the text the
    bytes of the file decode to as UTF-8; [writeFileSync fs p text] is
    [fs.writeFileSync(p, text)], which stores the UTF-8 encoding of
    [text]. *)
Class Host := {
  FS : Type;
  existsSync : FS -> string -> bool;
  readFileSync : FS -> string -> option string;
  writeFileSync : FS -> string -> string -> option FS;
  mkdirSync : FS -> string -> option FS;
  preProcessFile : string -> list FileReference;
  manifestModule : string -> ManifestModule;
  cwd : string;
}.

(** What the run did, in order; an observation of the file system is
    recorded with its answer. *)
Inductive Event :=
| EvEnqueue (filePath : string)
| EvReadSource (filePath : string) (answer : option string)
| EvExists (p : string) (answer : bool)
| EvReadManifest (p : string) (answer : option string)
| EvMkdir (dir : string)
| EvWrite (filePath finalFilePath fileContents : string).

Global Instance Event_eq_dec : EqDecision Event.
Proof. solve_decision. Defined.

(** ** The engine *)

Section Engine.
Context `{Host}.

(** The mutable state of one run: the file system, the closure variables
    [in_queue], [queue] and [seenDir], and the trace of the run. *)
Record State := mkState {
  fs : FS;
  in_queue : gmap string bool;
  queue : list string;
  seenDir : gmap string bool;
  log : list Event;
}.

Definition M (A : Type) : Type := State -> Res A * State.

Definition ret {A} (a : A) : M A := fun st => (Ok a, st).

Definition bind {A B} (m : M A) (k : A -> M B) : M B :=
  fun st =>
    match m st with
    | (Ok a, st') => k a st'
    | (Throw e, st') => (Throw e, st')
    | (Diverge loop, st') => (Diverge loop, st')
    end.

Definition throw {A} (e : exn) : M A := fun st => (Throw e, st).

Definition lift {A} (r : Res A) : M A := fun st => (r, st).

Definition emit (e : Event) : M unit :=
  fun st => (Ok tt, mkState (fs st) (in_queue st) (queue st) (seenDir st) (log st ++ [e])).

Definition set_fs (f : FS) : M unit :=
  fun st => (Ok tt, mkState f (in_queue st) (queue st) (seenDir st) (log st)).

Definition set_queue (q : list string) : M unit :=
  fun st => (Ok tt, mkState (fs st) (in_queue st) q (seenDir st) (log st)).

Definition get : M State := fun st => (Ok st, st).

End Engine.

Global Instance M_ret `{Host} : MRet M := @ret _.
Global Instance M_bind `{Host} : MBind M := fun A B k m => bind m k.

Section Run.
Context `{Host}.

(** *** File-system calls *)

Definition fs_existsSync (p : string) : M bool :=
  st ← get;
  let answer := existsSync (fs st) p in
  emit (EvExists p answer);; ret answer.

Definition fs_readManifest (p : string) : M string :=
  st ← get;
  let answer := readFileSync (fs st) p in
  emit (EvReadManifest p answer);;
  match answer with
  | Some text => ret text
  | None => throw (ReadFailed p)
  end.

Definition fs_readSource (filePath : string) : M string :=
  st ← get;
  let answer := readFileSync (fs st) filePath in
  emit (EvReadSource filePath answer);;
  match answer with
  | Some text => ret text
  | None => throw (ReadFailed filePath)
  end.

(** [try { fs.mkdirSync(dir); } catch (err) { }] *)
Definition fs_mkdirSync_quiet (dir : string) : M unit :=
  st ← get; emit (EvMkdir dir);;
  match mkdirSync (fs st) dir with
  | Some f => set_fs f
  | None => ret tt
  end.

Definition fs_writeFileSync (filePath finalFilePath fileContents : string) : M unit :=
  st ← get; emit (EvWrite filePath finalFilePath fileContents);;
  match writeFileSync (fs st) finalFilePath fileContents with
  | Some f => set_fs f
  | None => throw (WriteFailed finalFilePath)
  end.

(** *** [findNodeModuleImport] *)

(** The [while] loop of [generatePaths]; [n] bounds its iterations. *)
Fixpoint generatePaths_loop (n : nat) (repoRoot module sourceDir : string)
  (result : list string) : Res (list string) :=
  if Js.length sourceDir >=? Js.length repoRoot then
    match n with
    | O => Diverge WalkLoop
    | S n' =>
        generatePaths_loop n' repoRoot module (path.dirname sourceDir)
          (result ++ [path.join [sourceDir; "node_modules"; module]])
    end
  else Ok result.

Definition generatePaths (n : nat) (repoRoot module sourceFilePath : string)
  : Res (list string) :=
  let sourceDir := path.dirname sourceFilePath in
  generatePaths_loop n repoRoot module sourceDir [].

(** The [for] loop of [findNodeModule]. *)
Fixpoint findNodeModule_loop (module sourceFilePath : string) (modulePaths : list string)
  : M string :=
  match modulePaths with
  | [] =>
      throw (Error ("Cannot find module " +:+ module +:+ " requested by " +:+ sourceFilePath))
  | candidate :: more =>
      found ← fs_existsSync candidate;
      if found : bool then ret candidate
      else findNodeModule_loop module sourceFilePath more
  end.

Definition findNodeModule (n : nat) (repoRoot module sourceFilePath : string) : M string :=
  modulePaths ← lift (generatePaths n repoRoot module sourceFilePath);
  findNodeModule_loop module sourceFilePath modulePaths.

Definition findNodeModuleImport (n : nat) (repoRoot module sourceFilePath : string)
  : M string :=
  modulePath ← findNodeModule n repoRoot module sourceFilePath;
  let modulePackagePath := path.join [modulePath; "package.json"] in
  present ← fs_existsSync modulePackagePath;
  if negb present then
    throw (Error ("Missing " +:+ modulePackagePath +:+ " in node module " +:+ modulePath))
  else
    text ← fs_readManifest modulePackagePath;
    match manifestModule text with
    | ManifestUnreadable => throw (ManifestParseFailed modulePackagePath)
    | ModuleNotString =>
        throw (Error ("Missing property 'module' package.json at " +:+ modulePackagePath))
    | ModuleString m =>
        let result := path.join [modulePath; m] in
        found ← fs_existsSync result;
        if negb found then throw (Error ("Missing file " +:+ result))
        else ret result
    end.

End Run.

(** *** The closures of [_packageESM] *)

(** [if (o[key])] for an object whose values are booleans. *)
Definition truthy (o : option bool) : bool := default false o.

(** The names under which a plain object answers with a member of
    [Object.prototype] when it has no entry of its own: a function, or
    the prototype itself under ["__proto__"]. Each of them is truthy,
    and none is a string. *)
Definition objectPrototypeNames : list string :=
  ["constructor"; "__defineGetter__"; "__defineSetter__"; "hasOwnProperty";
   "__lookupGetter__"; "__lookupSetter__"; "isPrototypeOf";
   "propertyIsEnumerable"; "toString"; "valueOf"; "__proto__";
   "toLocaleString"].

Definition inherited (key : string) : bool :=
  bool_decide (key ∈ objectPrototypeNames).

(** What [options.resolveAlias[importText]] evaluates to. *)
Inductive AliasLookup :=
| AliasEntry (aliased : string)
| AliasInherited
| AliasUndefined.

Definition lookupAlias (options : IOptions) (importText : string) : AliasLookup :=
  match resolveAlias options !! importText with
  | Some aliased => AliasEntry aliased
  | None => if inherited importText then AliasInherited else AliasUndefined
  end.

(** [o[key]] on the entries of an object. *)
Fixpoint property (o : list (string * string)) (key : string) : option string :=
  match o with
  | [] => None
  | (k, v) :: more => if bool_decide (k = key) then Some v else property more key
  end.

(** [String(o[key])]: a missing property reads as [undefined]. *)
Definition property_text (o : list (string * string)) (key : string) : string :=
  default "undefined" (property o key).

(** Where [createDirectoryRecursive] cuts [dir]: at the last ['/'], or at
    the last backslash when there is no ['/']. *)
Definition lastSeparator (dir : string) : Z :=
  let lastSlash := Js.lastIndexOf dir Js.slash in
  if lastSlash =? -1 then Js.lastIndexOf dir Js.backslash else lastSlash.

Definition parentDirectory (dir : string) : option string :=
  let lastSlash := lastSeparator dir in
  if lastSlash =? -1 then None else Some (Js.substring dir 0 lastSlash).

Section PackageESM.
Context `{Host}.

(** [options] after the first statement of [_packageESM]; [budget] bounds
    the iterations of each inner [while] loop. *)
Variable options : IOptions.
Variable budget : nat.

Definition ESM_SRC : string := path.join [repoRoot options; esmSource options].
Definition ESM_DEST : string := path.join [repoRoot options; esmDestination options].

Definition enqueue (filePath : string) : M unit :=
  fun st =>
    if truthy (in_queue st !! filePath) then (Ok tt, st)
    else (Ok tt, mkState (fs st) (<[filePath := true]> (in_queue st))
                   (queue st ++ [filePath]) (seenDir st)
                   (log st ++ [EvEnqueue filePath])).

Definition mark_seenDir (dir : string) : M unit :=
  fun st => (Ok tt, mkState (fs st) (in_queue st) (queue st)
                      (<[dir := true]> (seenDir st)) (log st)).

(** The inner [while] of [applyDestinationFolderSimplifications] for one
    key. *)
Fixpoint replace_while (n : nat) (filePath test replacement : string) : Res string :=
  if Js.indexOf filePath test >=? 0 then
    match n with
    | O => Diverge SimplifyLoop
    | S n' => replace_while n' (Js.replace filePath test replacement) test replacement
    end
  else Ok filePath.

(** The [for (let key in ...)] loop; the replacement is looked up under
    [test], the key with its backslashes turned into slashes. *)
Fixpoint simplify_loop (keys : list string) (filePath : string) : Res string :=
  match keys with
  | [] => Ok filePath
  | key :: more =>
      let test := Js.replace_backslashes key in
      match replace_while budget filePath test
              (property_text (destinationFolderSimplification options) test) with
      | Ok filePath' => simplify_loop more filePath'
      | Throw e => Throw e
      | Diverge loop => Diverge loop
      end
  end.

Definition applyDestinationFolderSimplifications (filePath : string) : Res string :=
  let filePath := Js.replace_backslashes filePath in
  simplify_loop (map fst (destinationFolderSimplification options)) filePath.

Definition shouldSkipImport (importText : string) : bool :=
  existsb (fun skip => Js.indexOf importText skip =? 0) (resolveSkip options).

Definition computeDestinationFilePath (filePath : string) : Res string :=
  if Js.indexOf filePath ESM_SRC =? 0 then
    Ok (path.join [ESM_DEST; path.relative cwd ESM_SRC filePath])
  else
    match applyDestinationFolderSimplifications
            (path.join [ESM_DEST; path.relative cwd (repoRoot options) filePath]) with
    | Ok p => Ok (path.normalize p)
    | Throw e => Throw e
    | Diverge loop => Diverge loop
    end.

End PackageESM.

(** A value together with the equation that names it. *)
Definition remember_eq {A : Type} (x : A) : { y : A | x = y } := exist _ x eq_refl.

Section Materializer.
Context `{Host}.

(** [createDirectoryRecursive]: the parent first, then [dir] itself is
    marked and created; a failing [mkdirSync] is swallowed. The recursion
    is on a proper prefix of [dir]. *)
Equations? createDirectoryRecursive (dir : string) : M unit
  by wf (Js.len dir) lt :=
createDirectoryRecursive dir with remember_eq (parentDirectory dir) := {
  | exist _ None _ =>
      fun st =>
        if truthy (seenDir st !! dir) then (Ok tt, st)
        else (mark_seenDir dir;; fs_mkdirSync_quiet dir) st
  | exist _ (Some parent) Hparent =>
      fun st =>
        if truthy (seenDir st !! dir) then (Ok tt, st)
        else (createDirectoryRecursive parent;;
              mark_seenDir dir;; fs_mkdirSync_quiet dir) st }.
Proof.
  assert (Hlast : forall c s i acc j,
             Js.last_index_from c s i acc = Some j ->
             acc = Some j \/ (i <= j < i + Js.len s)%nat).
  { intros c s. induction s as [|a s IH]; intros i acc j Hj; simpl in Hj.
    - left; exact Hj.
    - apply IH in Hj. simpl. destruct Hj as [Hj|Hj]; [|right; lia].
      destruct (Ascii.eqb a c); [right|left; exact Hj].
      inversion Hj; lia. }
  assert (Hidx : forall c, (-1 <= Js.lastIndexOf dir c < Js.length dir)%Z).
  { intros c. unfold Js.lastIndexOf, Js.length.
    destruct (Js.last_index_from c dir 0 None) as [j|] eqn:Hj; [|lia].
    apply Hlast in Hj. destruct Hj as [Hj|Hj]; [discriminate|lia]. }
  assert (Htake : forall n s, (Js.len (Js.take n s) <= n)%nat).
  { intros n. unfold Js.len.
    induction n as [|n IH]; intros [|a s]; simpl; try lia.
    specialize (IH s). lia. }
  assert (Hdrop0 : forall s, Js.drop 0 s = s) by (intros [|? ?]; reflexivity).
  unfold parentDirectory in Hparent.
  destruct (lastSeparator dir =? -1) eqn:Hsep; [discriminate|].
  inversion Hparent; subst parent; clear Hparent.
  apply Z.eqb_neq in Hsep.
  assert (Hlt : (-1 <= lastSeparator dir < Js.length dir)%Z).
  { unfold lastSeparator. destruct (_ =? -1); apply Hidx. }
  unfold Js.substring.
  assert (Hc0 : Js.clamp dir 0 = 0%nat) by (unfold Js.clamp, Js.length; lia).
  rewrite Hc0, Nat.min_0_l, Nat.max_0_l, Nat.sub_0_r, Hdrop0.
  eapply Nat.le_lt_trans; [apply Htake|].
  unfold Js.clamp, Js.length in *. lia.
Qed.

End Materializer.

Section Traversal.
Context `{Host}.
Variable options : IOptions.
Variable budget : nat.

Definition write (filePath fileContents : string) : M unit :=
  finalFilePath ← lift (computeDestinationFilePath options budget filePath);
  createDirectoryRecursive (path.dirname finalFilePath);;
  fs_writeFileSync filePath finalFilePath fileContents.

(** The target of a bare specifier: [if (options.resolveAlias[importText])]
    takes the alias when the lookup is truthy, else the package's entry
    file is looked for. An entry is truthy when it is not the empty
    string. An inherited member is truthy as well, and it is no string:
    [importedFilename] holds it while the destination of the importing
    file is computed, and [computeDestinationFilePath(importedFilename)]
    then stops at [filePath.indexOf], which is not a function. On that
    branch the computation runs up to this first use of the value. *)
Definition resolveBare (importText filePath : string) : M string :=
  match lookupAlias options importText with
  | AliasEntry aliased =>
      if bool_decide (aliased = "")
      then findNodeModuleImport budget (repoRoot options) importText filePath
      else ret aliased
  | AliasInherited =>
      lift (computeDestinationFilePath options budget filePath);;
      throw (TypeError "filePath.indexOf is not a function")
  | AliasUndefined => findNodeModuleImport budget (repoRoot options) importText filePath
  end.

(** The specifier written in place of a bare one. *)
Definition relativeSpecifier (myDestinationPath importDestinationPath : string) : string :=
  let relativePath := path.relative cwd (path.dirname myDestinationPath) importDestinationPath in
  let relativePath :=
    if negb (Js.is_relative_specifier relativePath) then "./" +:+ relativePath
    else relativePath in
  let relativePath := Js.replace_backslashes relativePath in
  Js.strip_js relativePath.

(** The body of the [for] loop over [info.importedFiles] for one
    reference: the new file contents. *)
Definition rewriteImport (filePath : string) (ref : FileReference) (fileContents : string)
  : M string :=
  let importText := fileName ref in
  if shouldSkipImport options importText then ret fileContents
  else
    let pos := pos ref in
    let end_ := end_ ref in
    if Js.is_relative_specifier importText then
      let importedFilename := path.join [path.dirname filePath; importText] +:+ ".js" in
      enqueue importedFilename;;
      ret fileContents
    else
      importedFilename ← resolveBare importText filePath;
      myDestinationPath ← lift (computeDestinationFilePath options budget filePath);
      importDestinationPath ← lift (computeDestinationFilePath options budget importedFilename);
      let relativePath := relativeSpecifier myDestinationPath importDestinationPath in
      let fileContents :=
        Js.substring fileContents 0 (pos + 1)
        +:+ relativePath
        +:+ Js.substring_from fileContents (end_ + 1) in
      enqueue importedFilename;;
      ret fileContents.

(** [for (let i = importedFiles.length - 1; i >= 0; i--)], entered with
    [count = i + 1]. *)
Fixpoint rewriteImports (filePath : string) (importedFiles : list FileReference)
  (count : nat) (fileContents : string) : M string :=
  match count with
  | O => ret fileContents
  | S i =>
      match importedFiles !! i with
      | Some ref =>
          fileContents ← rewriteImport filePath ref fileContents;
          rewriteImports filePath importedFiles i fileContents
      | None => rewriteImports filePath importedFiles i fileContents
      end
  end.

(** One iteration of [while (queue.length > 0)] after [queue.shift()]. *)
Definition processFile (filePath : string) : M unit :=
  fileContents ← fs_readSource filePath;
  let importedFiles := preProcessFile fileContents in
  fileContents ← rewriteImports filePath importedFiles (length importedFiles) fileContents;
  write filePath fileContents.

Fixpoint mainLoop (n : nat) : M unit :=
  fun st =>
    match queue st with
    | [] => (Ok tt, st)
    | filePath :: rest =>
        match n with
        | O => (Diverge MainLoop, st)
        | S n' =>
            (set_queue rest;; processFile filePath;; mainLoop n') st
        end
    end.

(** [options.entryPoints.forEach(...)]. *)
Fixpoint enqueueEntryPoints (entries : list string) : M unit :=
  match entries with
  | [] => ret tt
  | filePath :: more =>
      enqueue (path.join [ESM_SRC options; filePath]);;
      enqueueEntryPoints more
  end.

End Traversal.

(** The first statement of [_packageESM]: [options.repoRoot] is
    overwritten in the caller's object. *)
Definition normalizeRepoRoot (options : IOptions) : IOptions :=
  mkOptions (Js.strip_trailing_separator (path.normalize (repoRoot options)))
    (esmSource options) (esmDestination options) (entryPoints options)
    (resolveAlias options) (resolveSkip options)
    (destinationFolderSimplification options).

(** What [{}] answers to a lookup before anything is stored in it:
    truthy under the names it inherits. *)
Definition plainObject : gmap string bool :=
  list_to_map ((fun name => (name, true)) <$> objectPrototypeNames).

(** The state in which the run starts: [in_queue] is
    [Object.create(null)], with no entry and nothing inherited; [seenDir]
    is [{}], in which the root is marked before the first file. *)
Definition initialState `{Host} (options : IOptions) (disk : FS) : State :=
  mkState disk ∅ [] (<[ repoRoot options := true ]> plainObject) [].

(** [_packageESM(options)] on the file system [disk]: the outcome, the
    final state of the run, and the [options] object as the caller sees
    it afterwards. [n] bounds the iterations of every loop. *)
Definition _packageESM `{Host} (n : nat) (options : IOptions) (disk : FS)
  : Res unit * State * IOptions :=
  let options := normalizeRepoRoot options in
  ((enqueueEntryPoints options (entryPoints options);; mainLoop options n n)
     (initialState options disk),
   options).

Definition packageESM `{Host} (n : nat) (options : IOptions) (disk : FS)
  : Res unit * State * IOptions :=
  _packageESM n options disk.

(** ** A small host for the examples

    Files and directories are kept by path; a file can be written where
    its directory exists, a directory created where its parent exists.
    The scanner reports every single-quoted literal as an import, with
    [pos] at the opening quote and [end] at [pos] plus the length of the
    specifier, as [ts.preProcessFile] does for [import 'x']. A manifest
    reads [module=<entry file>]; [{}] is a manifest without the field. *)

Module ExampleHost.

Record Disk := mkDisk {
  files : gmap string string;
  dirs : gset string;
}.

Definition exists_on (d : Disk) (p : string) : bool :=
  bool_decide (is_Some (files d !! p)) || bool_decide (p ∈ dirs d).

Definition write_on (d : Disk) (p text : string) : option Disk :=
  if bool_decide (p ∈ dirs d) then None
  else if bool_decide (path.dirname p ∈ dirs d)
       then Some (mkDisk (<[p := text]> (files d)) (dirs d))
       else None.

Definition mkdir_on (d : Disk) (dir : string) : option Disk :=
  if exists_on d dir then None
  else if bool_decide (path.dirname dir ∈ dirs d)
       then Some (mkDisk (files d) ({[dir]} ∪ dirs d))
       else None.

(** Characters up to the closing quote, and what follows it. *)
Fixpoint until_quote (s : string) : option (string * string) :=
  match s with
  | EmptyString => None
  | String c s' =>
      if Ascii.eqb c "'"%char then Some (EmptyString, s')
      else match until_quote s' with
           | Some (lit, rest) => Some (String c lit, rest)
           | None => None
           end
  end.

Fixpoint scan (n : nat) (offset : Z) (s : string) : list FileReference :=
  match n with
  | O => []
  | S n' =>
      match s with
      | EmptyString => []
      | String c s' =>
          if Ascii.eqb c "'"%char then
            match until_quote s' with
            | Some (lit, rest) =>
                mkRef lit offset (offset + Js.length lit)
                :: scan n' (offset + Js.length lit + 2) rest
            | None => []
            end
          else scan n' (offset + 1) s'
      end
  end.

Definition scanner (text : string) : list FileReference :=
  scan (S (Js.len text)) 0 text.

Definition manifest (text : string) : ManifestModule :=
  if Js.starts_with "module=" text then ModuleString (Js.drop 7 text)
  else if bool_decide (text = "{}") then ModuleNotString
  else ManifestUnreadable.

Definition host : Host :=
  Build_Host Disk exists_on (fun d p => files d !! p) write_on mkdir_on
    scanner manifest "/home".

End ExampleHost.

(** ** UTF-8

    Bytes, code points and code units are numbers. *)

Module Utf8.

(** U+FFFD, the replacement character. *)
Definition replacement : N := 0xFFFD.

(** A sequence that has started: the continuation bytes to come after
    the next one, the bits gathered so far, and the range in which the
    next byte has to lie. *)
Record Pending := mkPending {
  needed : nat;
  gathered : N;
  lower : N;
  upper : N;
}.

(** A byte met outside of a sequence: a character of its own, the first
    byte of a sequence, or a byte that cannot start one. *)
Definition lead (b : N) : list N * option Pending :=
  if (b <=? 0x7F)%N then ([b], None)
  else if ((0xC2 <=? b) && (b <=? 0xDF))%N then
    ([], Some (mkPending 0 (b - 0xC0) 0x80 0xBF))
  else if ((0xE0 <=? b) && (b <=? 0xEF))%N then
    ([], Some (mkPending 1 (b - 0xE0)
                 (if (b =? 0xE0)%N then 0xA0 else 0x80)
                 (if (b =? 0xED)%N then 0x9F else 0xBF)))
  else if ((0xF0 <=? b) && (b <=? 0xF4))%N then
    ([], Some (mkPending 2 (b - 0xF0)
                 (if (b =? 0xF0)%N then 0x90 else 0x80)
                 (if (b =? 0xF4)%N then 0x8F else 0xBF)))
  else ([replacement], None).

(** The code points a byte sequence decodes to. A byte that does not
    continue the sequence under way ends it with one U+FFFD and is then
    looked at as a first byte; the end of the input ends it the same
    way. *)
Fixpoint decode_from (pending : option Pending) (bytes : list N) : list N :=
  match bytes with
  | [] => match pending with None => [] | Some _ => [replacement] end
  | b :: rest =>
      match pending with
      | None => let '(out, next) := lead b in out ++ decode_from next rest
      | Some p =>
          if ((lower p <=? b) && (b <=? upper p))%N then
            let bits := (gathered p * 64 + (b - 0x80))%N in
            match needed p with
            | O => bits :: decode_from None rest
            | S k => decode_from (Some (mkPending k bits 0x80 0xBF)) rest
            end
          else
            let '(out, next) := lead b in
            replacement :: out ++ decode_from next rest
      end
  end.

Definition decode (bytes : list N) : list N := decode_from None bytes.

(** The code units of a code point in a JavaScript string: itself, or a
    surrogate pair. *)
Definition units (cp : N) : list N :=
  if (cp <? 0x10000)%N then [cp]
  else [(0xD800 + (cp - 0x10000) / 0x400)%N; (0xDC00 + (cp - 0x10000) mod 0x400)%N].

(** The bytes of a code point below U+10000. *)
Definition encode (cp : N) : list N :=
  if (cp <? 0x80)%N then [cp]
  else if (cp <? 0x800)%N then [(0xC0 + cp / 64)%N; (0x80 + cp mod 64)%N]
  else [(0xE0 + cp / 4096)%N; (0x80 + (cp / 64) mod 64)%N; (0x80 + cp mod 64)%N].

End Utf8.

(** ** A host whose files hold bytes

    Reading decodes the bytes of the file as [Buffer#toString()] does,
    writing encodes the string as [fs.writeFileSync] does. The texts of
    this host are over 256 code units: U+0000 to U+00FE, each its own
    character, and U+FFFD, for which the character 255 stands; none of
    them is a surrogate, so each is encoded as a code point. A file whose
    text has another code unit is out of the range of this host, and
    reads as a file that cannot be read. Directories, scanner and
    manifests are those of [ExampleHost]. *)

Module ByteHost.

(** The code unit a character stands for. *)
Definition unit_of (c : ascii) : N :=
  if (N_of_ascii c =? 255)%N then Utf8.replacement else N_of_ascii c.

Definition char_of (u : N) : option ascii :=
  if (u <? 255)%N then Some (ascii_of_N u)
  else if (u =? Utf8.replacement)%N then Some (ascii_of_N 255)
  else None.

Definition text_of (us : list N) : option string :=
  Js.str <$> mapM char_of us.

(** [buffer.toString()] *)
Definition toString (bytes : list Byte.byte) : option string :=
  text_of (Utf8.decode (Byte.to_N <$> bytes) ≫= Utf8.units).

Definition byte_of (n : N) : Byte.byte := byte_of_ascii (ascii_of_N n).

(** The bytes [fs.writeFileSync(p, text)] stores. *)
Definition fromString (text : string) : list Byte.byte :=
  byte_of <$> ((unit_of <$> Js.chars text) ≫= Utf8.encode).

Record Disk := mkDisk {
  files : gmap string (list Byte.byte);
  dirs : gset string;
}.

Definition exists_on (d : Disk) (p : string) : bool :=
  bool_decide (is_Some (files d !! p)) || bool_decide (p ∈ dirs d).

Definition read_on (d : Disk) (p : string) : option string :=
  files d !! p ≫= toString.

Definition write_on (d : Disk) (p text : string) : option Disk :=
  if bool_decide (p ∈ dirs d) then None
  else if bool_decide (path.dirname p ∈ dirs d)
       then Some (mkDisk (<[p := fromString text]> (files d)) (dirs d))
       else None.

Definition mkdir_on (d : Disk) (dir : string) : option Disk :=
  if exists_on d dir then None
  else if bool_decide (path.dirname dir ∈ dirs d)
       then Some (mkDisk (files d) ({[dir]} ∪ dirs d))
       else None.

Definition host : Host :=
  Build_Host Disk exists_on read_on write_on mkdir_on
    ExampleHost.scanner ExampleHost.manifest "/home".

End ByteHost.

(** ** Views of a state and of a trace *)

Section Views.
Context `{Host}.

(** A state with nothing but a file system. *)
Definition blank (disk : FS) : State := mkState disk ∅ [] ∅ [].

Definition with_log (st : State) (evs : list Event) : State :=
  mkState (fs st) (in_queue st) (queue st) (seenDir st) (log st ++ evs).

Definition enqueued (l : list Event) : list string :=
  omap (fun e => match e with EvEnqueue f => Some f | _ => None end) l.

Definition sourcesRead (l : list Event) : list string :=
  omap (fun e => match e with EvReadSource f _ => Some f | _ => None end) l.

Definition sourcesWritten (l : list Event) : list string :=
  omap (fun e => match e with EvWrite f _ _ => Some f | _ => None end) l.

(** The directories passed to [fs.mkdirSync], in order. *)
Definition directoriesMade (l : list Event) : list string :=
  omap (fun e => match e with EvMkdir dir => Some dir | _ => None end) l.

(** The events of the resolver: looking at the file system. *)
Definition is_observation (e : Event) : Prop :=
  match e with
  | EvExists _ _ | EvReadManifest _ _ => True
  | _ => False
  end.

(** Events that leave the worklist and the set of processed files alone. *)
Definition is_quiet (e : Event) : Prop :=
  match e with
  | EvExists _ _ | EvReadManifest _ _ | EvMkdir _ => True
  | _ => False
  end.

(** Every answer recorded in the trace is the answer of [disk]. *)
Definition agrees_with (disk : FS) (e : Event) : Prop :=
  match e with
  | EvExists p answer => existsSync disk p = answer
  | EvReadManifest p answer => readFileSync disk p = answer
  | EvReadSource f answer => readFileSync disk f = answer
  | _ => True
  end.

Definition faithful (disk : FS) (l : list Event) : Prop := Forall (agrees_with disk) l.

End Views.

(** ** Specification-level notions *)

(** A path segment that [normalize] keeps as it is. *)
Definition plain_segment (s : string) : Prop :=
  s <> "" /\ s <> "." /\ s <> ".." /\ Forall (fun c => c <> Js.slash) (Js.chars s).

(** The absolute path with the segments [segs]. *)
Definition absolute_of (segs : list string) : string := "/" +:+ path.intercalate segs.

(** The directories from [root/segs] up to [root]: the prefixes of
    [segs], the longest first. *)
Fixpoint upward (segs : list string) (k : nat) : list (list string) :=
  match k with
  | O => [[]]
  | S k' => take k segs :: upward segs k'
  end.

(** The simplification as its rules read: for each rule in turn, the
    pattern is replaced by the replacement of that rule until it occurs
    no more. *)
Fixpoint simplify_by_rules (budget : nat) (rules : list (string * string))
  (filePath : string) : Res string :=
  match rules with
  | [] => Ok filePath
  | (pattern, replacement) :: more =>
      match replace_while budget filePath pattern replacement with
      | Ok filePath' => simplify_by_rules budget more filePath'
      | Throw e => Throw e
      | Diverge loop => Diverge loop
      end
  end.

(** The directories of the upward walk: [dir], its parent, ... ([k] of
    them). *)
Fixpoint ancestors (k : nat) (dir : string) : list string :=
  match k with
  | O => []
  | S k' => dir :: ancestors k' (path.dirname dir)
  end.

(** The package directory tested at [dir]. *)
Definition candidate (module dir : string) : string :=
  path.join [dir; "node_modules"; module].

Definition moduleNotFound (module sourceFilePath : string) : exn :=
  Error ("Cannot find module " +:+ module +:+ " requested by " +:+ sourceFilePath).

(** The text of a file after its edits, read off the source from left to
    right: the text before a specifier, the new specifier, and so on. A
    reference without a replacement is left as it is. *)
Fixpoint spliced (src : string) (cursor : Z) (edits : list (FileReference * option string))
  : string :=
  match edits with
  | [] => Js.substring_from src cursor
  | (_, None) :: more => spliced src cursor more
  | (ref, Some specifier) :: more =>
      Js.substring src cursor (pos ref + 1) +:+ specifier
      +:+ spliced src (end_ ref + 1) more
  end.

(** The scanner's contract: references come in text order, their spans
    [pos+1 .. end+1) do not overlap and lie inside the text. *)
Fixpoint in_order (cursor : Z) (refs : list FileReference) : Prop :=
  match refs with
  | [] => True
  | ref :: more =>
      cursor <= pos ref + 1 /\ pos ref <= end_ ref /\ in_order (end_ ref + 1) more
  end.

Definition wellFormed (text : string) (refs : list FileReference) : Prop :=
  in_order 0 refs /\ Forall (fun ref => end_ ref + 1 <= Js.length text) refs.

(** The [for] loop over the references, last one first. *)
Fixpoint rewriteInOrder `{Host} (options : IOptions) (budget : nat) (filePath : string)
  (todo : list FileReference) (fileContents : string) : M string :=
  match todo with
  | [] => mret fileContents
  | ref :: more =>
      fileContents ← rewriteImport options budget filePath ref fileContents;
      rewriteInOrder options budget filePath more fileContents
  end.

Section Graph.
Context `{Host}.
Variable options : IOptions.
Variable budget : nat.
Variable disk : FS.

(** The file a reference of [filePath] leads to, on [disk]. *)
Definition importTarget (filePath : string) (ref : FileReference) : Res string :=
  if Js.is_relative_specifier (fileName ref)
  then Ok (path.join [path.dirname filePath; fileName ref] +:+ ".js")
  else (resolveBare options budget (fileName ref) filePath (blank disk)).1.

(** [filePath] imports [target] through a reference that is not skipped. *)
Definition imports (filePath target : string) : Prop :=
  exists text ref,
    readFileSync disk filePath = Some text /\
    ref ∈ preProcessFile text /\
    shouldSkipImport options (fileName ref) = false /\
    importTarget filePath ref = Ok target.

(** The files reachable from the entry points. *)
Inductive Reachable : string -> Prop :=
| reach_entry entry :
    entry ∈ entryPoints options ->
    Reachable (path.join [ESM_SRC options; entry])
| reach_import filePath target :
    Reachable filePath -> imports filePath target -> Reachable target.

End Graph.

(** ** Notions used in the statements *)

(** The directory [k] levels above [dir]. *)
Fixpoint nth_ancestor (k : nat) (dir : string) : string :=
  match k with
  | O => dir
  | S k' => nth_ancestor k' (path.dirname dir)
  end.

Section Notions.
Context `{Host}.

(** A computation that only looks at the file system: it appends its
    observations to the trace, and wherever the file system gives the
    same answers it takes the same course. *)
Definition observer {A} (m : M A) : Prop :=
  forall st, exists r evs,
    m st = (r, with_log st evs) /\
    Forall is_observation evs /\
    faithful (fs st) evs /\
    forall st0, faithful (fs st0) evs -> m st0 = (r, with_log st0 evs).

(** [m] keeps [I], whatever its outcome. *)
Definition preserves {A} (I : State -> Prop) (m : M A) : Prop :=
  forall st, I st -> I (m st).2.

(** [m] is not cut off by the bound of the main loop. *)
Definition inner {A} (m : M A) : Prop :=
  forall st, (m st).1 <> Diverge MainLoop.

(** The three ways in which the state moves. *)
Record stable (I : State -> Prop) : Prop := {
  stable_observe : forall st e, is_observation e -> I st -> I (with_log st [e]);
  stable_enqueue : forall st f, I st -> I (enqueue f st).2;
  stable_mark : forall st dir, I st -> I (mark_seenDir dir st).2;
  stable_mkdir : forall st dir, I st -> I (fs_mkdirSync_quiet dir st).2;
}.

(** What the worklist discipline sees of a state. *)
Definition view (st : State) :=
  (in_queue st, queue st, enqueued (log st), sourcesRead (log st), sourcesWritten (log st)).

(** The state moved on without touching the worklist or the lists of
    processed files: only the trace grew. *)
Definition grows (st st' : State) : Prop :=
  view st' = view st /\ exists evs, log st' = log st ++ evs.

(** [in_queue] holds exactly the files ever enqueued; each was enqueued
    once; the ones not yet taken from the queue are still in it, in
    order. *)
Definition tracked (st : State) : Prop :=
  (forall f, truthy (in_queue st !! f) = true <-> f ∈ enqueued (log st))
  /\ enqueued (log st) = sourcesRead (log st) ++ queue st
  /\ NoDup (enqueued (log st)).

(** Between two iterations every file that was read has been written. *)
Definition settled (st : State) : Prop :=
  tracked st /\ sourcesWritten (log st) = sourcesRead (log st).

(** Inside the iteration for [f]. *)
Definition working (f : string) (st : State) : Prop :=
  tracked st /\ sourcesRead (log st) = sourcesWritten (log st) ++ [f].

(** At any moment of a run. *)
Definition consistent (st : State) : Prop :=
  tracked st
  /\ (sourcesWritten (log st) = sourcesRead (log st)
      \/ exists f, sourcesRead (log st) = sourcesWritten (log st) ++ [f]).

(** After [queue.shift()] returned [f] and before [f] is read. *)
Definition shifted (f : string) (st : State) : Prop :=
  (forall g, truthy (in_queue st !! g) = true <-> g ∈ enqueued (log st))
  /\ enqueued (log st) = sourcesRead (log st) ++ f :: queue st
  /\ NoDup (enqueued (log st))
  /\ sourcesWritten (log st) = sourcesRead (log st).

(** Since the trace was [l], no file was written. *)
Definition nothing_written (l : list Event) (st : State) : Prop :=
  exists evs, log st = l ++ evs /\ sourcesWritten evs = [].

(** [mkdirSync] was called once at most for a directory, each time for a
    directory that is marked in [seenDir] since, and never for [root],
    which is marked. *)
Definition made_once (root : string) (st : State) : Prop :=
  NoDup (directoriesMade (log st))
  /\ (forall dir, dir ∈ directoriesMade (log st) -> truthy (seenDir st !! dir) = true)
  /\ truthy (seenDir st !! root) = true
  /\ root ∉ directoriesMade (log st).

(** The events of one iteration when every import is skipped: the read,
    the directories, and the write of the text that was read. *)
Definition copying (f : string) (answer : option string) (e : Event) : Prop :=
  match e with
  | EvMkdir _ => True
  | EvWrite f' _ out => f' = f /\ answer = Some out
  | _ => False
  end.

(** Every file was enqueued as an entry point, every write is the write
    of the text read from its file, and nothing was resolved. *)
Definition verbatim (entries : list string) (l : list Event) : Prop :=
  (forall f, EvEnqueue f ∈ l -> f ∈ entries)
  /\ (forall f dest out, EvWrite f dest out ∈ l -> EvReadSource f (Some out) ∈ l)
  /\ (forall e, e ∈ l -> ~ is_observation e).

Variable options : IOptions.
Variable budget : nat.

(** What was decided for a reference: nothing for a skipped or relative
    one, the computed relative specifier for a bare one. *)
Definition decided (filePath : string) (edit : FileReference * option string) : Prop :=
  let importText := fileName edit.1 in
  match edit.2 with
  | None =>
      shouldSkipImport options importText = true
      \/ Js.is_relative_specifier importText = true
  | Some specifier =>
      shouldSkipImport options importText = false
      /\ Js.is_relative_specifier importText = false
      /\ exists st st1 importedFilename myDestinationPath importDestinationPath,
          resolveBare options budget importText filePath st = (Ok importedFilename, st1)
          /\ computeDestinationFilePath options budget filePath = Ok myDestinationPath
          /\ computeDestinationFilePath options budget importedFilename
             = Ok importDestinationPath
          /\ specifier = relativeSpecifier myDestinationPath importDestinationPath
  end.

(** The write of [out] to [dest] for [f], seen in the trace [l]: [f] was
    read with some text, [dest] is its destination, [out] is that text
    with the decided edits, and the files its relative specifiers name
    were enqueued. The equation holds when the scanner kept its
    contract. *)
Definition rewritten_source (l : list Event) (f dest out : string) : Prop :=
  exists src,
    EvReadSource f (Some src) ∈ l
    /\ computeDestinationFilePath options budget f = Ok dest
    /\ (wellFormed src (preProcessFile src) ->
        exists edits,
          edits.*1 = preProcessFile src
          /\ Forall (decided f) edits
          /\ out = spliced src 0 edits)
    /\ (forall ref,
           ref ∈ preProcessFile src ->
           shouldSkipImport options (fileName ref) = false ->
           Js.is_relative_specifier (fileName ref) = true ->
           path.join [path.dirname f; fileName ref] +:+ ".js" ∈ enqueued l).

(** Every write in the trace is such a write. *)
Definition writes_rewritten (st : State) : Prop :=
  forall f dest out,
    EvWrite f dest out ∈ log st -> rewritten_source (log st) f dest out.

Variable disk : FS.

(** Between two iterations: everything enqueued is reachable, and what a
    written file imports has been enqueued. *)
Definition closed (st : State) : Prop :=
  settled st
  /\ (forall g, g ∈ enqueued (log st) -> Reachable options budget disk g)
  /\ (forall f g, f ∈ sourcesWritten (log st) ->
                  imports options budget disk f g -> g ∈ enqueued (log st)).

End Notions.

(** ** Example inputs *)

Definition example_options : IOptions :=
  mkOptions "/repo/" "src" "out" ["a.js"] {[ "lib" := "/repo/vendor/lib.js" ]}
    ["vscode"] [("node_modules/dep/dist", "dep")].

Definition example_disk : @FS ExampleHost.host :=
  ExampleHost.mkDisk
    (list_to_map [
       ("/repo/src/a.js", "import './b'; import 'lib'; import 'vscode'; import 'dep';");
       ("/repo/src/b.js", "import 'lib';");
       ("/repo/src/unused.js", "import 'dep';");
       ("/repo/vendor/lib.js", "import './c';");
       ("/repo/vendor/c.js", "");
       ("/repo/node_modules/dep/package.json", "module=dist/index.js");
       ("/repo/node_modules/dep/dist/index.js", "import './x';");
       ("/repo/node_modules/dep/dist/x.js", "")])
    (list_to_set ["/"; "/repo"; "/repo/src"; "/repo/vendor"; "/repo/node_modules";
                  "/repo/node_modules/dep"; "/repo/node_modules/dep/dist"]).

(** Two files that import each other. *)
Definition cyclic_disk : @FS ExampleHost.host :=
  ExampleHost.mkDisk
    (list_to_map [
       ("/repo/src/a.js", "import './b';");
       ("/repo/src/b.js", "import './a';")])
    (list_to_set ["/"; "/repo"; "/repo/src"]).

Definition engine_options : IOptions := normalizeRepoRoot example_options.

Definition example_source : string :=
  "import './b'; import 'lib'; import 'vscode'; import 'dep';".

Definition ref_b : FileReference := mkRef "./b" 7 10.
Definition ref_lib : FileReference := mkRef "lib" 21 24.
Definition ref_vscode : FileReference := mkRef "vscode" 35 41.
Definition ref_dep : FileReference := mkRef "dep" 52 55.

Definition backslash_key_options : IOptions :=
  mkOptions "/repo" "src" "out" [] ∅ [] [("node_modules\dep\dist", "dep")].

Definition slash_key_options : IOptions :=
  mkOptions "/repo" "src" "out" [] ∅ [] [("node_modules/dep/dist", "dep")].

(** Every import skipped. *)
Definition skip_all_options : IOptions :=
  mkOptions "/repo/" "src" "out" ["a.js"] ∅ [""] [].

(** No alias for [lib], which is not a package either. *)
Definition no_alias_options : IOptions :=
  mkOptions "/repo/" "src" "out" ["a.js"] ∅ ["vscode"] [].

(** A rule with an empty key. *)
Definition empty_key_options : IOptions :=
  mkOptions "/repo" "src" "out" [] ∅ [] [("node_modules/dep/dist", "dep"); ("", "x")].

(** The file-system root as repository root. *)
Definition root_options : IOptions :=
  mkOptions "/" "src" "out" ["a.js"] ∅ [] [].

(** An entry point that is not on the disk. *)
Definition missing_entry_options : IOptions :=
  mkOptions "/repo/" "src" "out" ["nowhere.js"; "a.js"] ∅ [] [].

(** The source directory inside the destination directory: the output of
    [/repo/vendor/x.js] is [/repo/out/vendor/x.js], a path of the source
    tree. *)
Definition overlap_options : IOptions :=
  mkOptions "/repo" "out/vendor" "out" ["a.js"]
    {[ "lib" := "/repo/vendor/lib.js" ]} [] [].

Definition overlap_disk : @FS ExampleHost.host :=
  ExampleHost.mkDisk
    (list_to_map [
       ("/repo/out/vendor/a.js", "import './lib'; import 'lib';");
       ("/repo/vendor/lib.js", "import './c';");
       ("/repo/vendor/c.js", "")])
    (list_to_set ["/"; "/repo"; "/repo/out"; "/repo/out/vendor"; "/repo/vendor"]).

(** No alias, no skip prefix. *)
Definition plain_options : IOptions :=
  mkOptions "/repo" "src" "out" ["a.js"] ∅ [] [].

(** A comment, [// caf], then the byte E9 (an e with an acute accent in
    Latin-1) and a line feed. The byte E9 starts a sequence of three
    bytes in UTF-8, and a line feed does not continue one. *)
Definition latin1_source : list Byte.byte :=
  [Byte.x2f; Byte.x2f; Byte.x20; Byte.x63; Byte.x61; Byte.x66; Byte.xe9; Byte.x0a].

Definition latin1_disk : @FS ByteHost.host :=
  ByteHost.mkDisk {[ "/repo/src/a.js" := latin1_source ]}
    (list_to_set ["/"; "/repo"; "/repo/src"]).

(** ** Facts about strings *)

#[local] Arguments String.append !_ _ / : simpl nomatch.

Ltac run_step :=
  unfold mbind, M_bind, mret, M_ret, bind, ret, throw, lift, get, emit, set_fs,
    set_queue, mark_seenDir in *.

(** The primitives on the examples of their documentation. *)

Example indexOf_found : Js.indexOf "a/node_modules/b" "node_modules" = 2.
Proof. reflexivity. Qed.

Example indexOf_missing : Js.indexOf "abc" "x" = -1.
Proof. reflexivity. Qed.

Example indexOf_empty_needle : Js.indexOf "" "" = 0.
Proof. reflexivity. Qed.

Example substring_swaps : Js.substring "abcdef" 4 1 = "bcd".
Proof. reflexivity. Qed.

Example substring_clamps : Js.substring "abc" (-2) 10 = "abc".
Proof. reflexivity. Qed.

Example replace_first_only : Js.replace "a-b-c" "-" "+" = "a+b-c".
Proof. reflexivity. Qed.

Example replace_dollar_patterns :
  Js.replace "xAy" "A" "[$&|$$|$`|$'|$1]" = "x[A|$|x|y|$1]y".
Proof. reflexivity. Qed.

Example strip_js_end_only : Js.strip_js "a.js/b.js" = "a.js/b".
Proof. reflexivity. Qed.

Example strip_separator_once : Js.strip_trailing_separator "/repo//" = "/repo/".
Proof. reflexivity. Qed.

Example lastIndexOf_last : Js.lastIndexOf "/repo/out/dep" Js.slash = 9.
Proof. reflexivity. Qed.

Example normalize_examples :
  path.normalize "/foo/bar//baz/asdf/quux/.." = "/foo/bar/baz/asdf"
  /\ path.normalize "/repo/" = "/repo/"
  /\ path.normalize "a/../../b/./c//" = "../b/c/"
  /\ path.normalize "/.." = "/"
  /\ path.normalize "" = "."
  /\ path.normalize "./" = "./".
Proof. repeat split; reflexivity. Qed.

Example join_examples :
  path.join ["/foo"; "bar"; "baz/asdf"; "quux"; ".."] = "/foo/bar/baz/asdf"
  /\ path.join [""; "src"] = "src"
  /\ path.join ["/repo/src"; "../x.js"] = "/repo/x.js"
  /\ path.join ["/repo"; "node_modules"; "dep"] = "/repo/node_modules/dep".
Proof. repeat split; reflexivity. Qed.

Example dirname_examples :
  path.dirname "/foo/bar/baz/asdf/quux" = "/foo/bar/baz/asdf"
  /\ path.dirname "/a" = "/"
  /\ path.dirname "/" = "/"
  /\ path.dirname "a" = "."
  /\ path.dirname "a/b/" = "a"
  /\ path.dirname "" = "."
  /\ path.dirname "." = ".".
Proof. repeat split; reflexivity. Qed.

Example relative_examples :
  path.relative "/home" "/data/orandea/test/aaa" "/data/orandea/impl/bbb" = "../../impl/bbb"
  /\ path.relative "/home" "/foo/bar" "/foo/bar/baz" = "baz"
  /\ path.relative "/home" "/foo/bar/baz" "/foo/bar" = ".."
  /\ path.relative "/home" "/a" "/a" = ""
  /\ path.relative "/home" "src" "src/x/y.js" = "x/y.js".
Proof. repeat split; reflexivity. Qed.

Lemma len_app s t : Js.len (s +:+ t) = (Js.len s + Js.len t)%nat.
Proof. unfold Js.len. induction s as [|c s IH]; simpl; [reflexivity | now rewrite IH]. Qed.

Lemma app_empty_r s : s +:+ "" = s.
Proof. induction s as [|c s IH]; simpl; [reflexivity | f_equal; exact IH]. Qed.

Lemma app_assoc_s (s t u : string) : (s +:+ t) +:+ u = s +:+ t +:+ u.
Proof. induction s as [|c s IH]; simpl; [reflexivity | f_equal; exact IH]. Qed.

Lemma take_drop_s n s : Js.take n s +:+ Js.drop n s = s.
Proof.
  revert s. induction n as [|n IH]; intros [|c s]; simpl; try reflexivity.
  now rewrite IH.
Qed.

Lemma len_take n s : Js.len (Js.take n s) = Nat.min n (Js.len s).
Proof.
  unfold Js.len. revert s. induction n as [|n IH]; intros [|c s]; simpl; try reflexivity.
  now rewrite IH.
Qed.

Lemma take_all n s : (Js.len s <= n)%nat -> Js.take n s = s.
Proof.
  unfold Js.len. revert s. induction n as [|n IH]; intros [|c s]; simpl; intros Hn;
    try reflexivity; try lia.
  rewrite IH; [reflexivity | lia].
Qed.

Lemma drop_all n s : (Js.len s <= n)%nat -> Js.drop n s = "".
Proof.
  unfold Js.len. revert s. induction n as [|n IH]; intros [|c s]; simpl; intros Hn;
    try reflexivity; try lia.
  apply IH. lia.
Qed.

Lemma take_app_le n s t : (n <= Js.len s)%nat -> Js.take n (s +:+ t) = Js.take n s.
Proof.
  unfold Js.len. revert s. induction n as [|n IH]; intros [|c s]; simpl; intros Hn;
    try reflexivity; try lia.
  rewrite IH; [reflexivity | lia].
Qed.

Lemma drop_app_len s t : Js.drop (Js.len s) (s +:+ t) = t.
Proof. unfold Js.len. induction s as [|c s IH]; simpl; [now destruct t | exact IH]. Qed.

Lemma take_take n m s : (n <= m)%nat -> Js.take n (Js.take m s) = Js.take n s.
Proof.
  revert m s. induction n as [|n IH]; intros [|m] [|c s] Hn; simpl; try reflexivity; try lia.
  rewrite IH; [reflexivity | lia].
Qed.

Lemma take_split n m s :
  (n <= m)%nat -> Js.take n s +:+ Js.take (m - n) (Js.drop n s) = Js.take m s.
Proof.
  revert m s. induction n as [|n IH]; intros m s Hn.
  - rewrite Nat.sub_0_r. destruct s; reflexivity.
  - destruct m as [|m]; [lia|]. destruct s as [|c s]; simpl.
    + now destruct (m - n)%nat.
    + rewrite IH; [reflexivity | lia].
Qed.

Lemma clamp_in_range s (i : Z) :
  0 <= i <= Js.length s -> Js.clamp s i = Z.to_nat i.
Proof. unfold Js.clamp. intros Hi. f_equal. lia. Qed.

Lemma substring_prefix s (b : Z) :
  0 <= b <= Js.length s -> Js.substring s 0 b = Js.take (Z.to_nat b) s.
Proof.
  intros Hb. unfold Js.substring. rewrite (clamp_in_range s b Hb).
  assert (H0 : Js.clamp s 0 = 0%nat) by (unfold Js.clamp, Js.length; lia).
  rewrite H0, Nat.min_0_l, Nat.max_0_l, Nat.sub_0_r. now destruct s.
Qed.

Lemma substring_between s (a b : Z) :
  0 <= a <= b -> b <= Js.length s ->
  Js.substring s a b = Js.take (Z.to_nat b - Z.to_nat a) (Js.drop (Z.to_nat a) s).
Proof.
  intros Ha Hb. unfold Js.substring.
  rewrite (clamp_in_range s a), (clamp_in_range s b) by lia.
  rewrite Nat.min_l, Nat.max_r by lia. reflexivity.
Qed.

Lemma substring_from_drop s (a : Z) :
  0 <= a <= Js.length s -> Js.substring_from s a = Js.drop (Z.to_nat a) s.
Proof. intros Ha. unfold Js.substring_from. now rewrite clamp_in_range. Qed.

Lemma starts_with_spec t s : Js.starts_with t s = true <-> exists u, s = t +:+ u.
Proof.
  revert s. induction t as [|a t IH]; intros s; simpl.
  - split; [intros _; now exists s | reflexivity].
  - destruct s as [|b s].
    + split; [discriminate | intros [u Hu]; simpl in Hu; discriminate].
    + destruct (Ascii.eqb_spec a b) as [->|Hne].
      * rewrite IH. split; intros [u Hu]; exists u; simpl in *; [now rewrite Hu | now inversion Hu].
      * split; [discriminate | intros [u Hu]; simpl in Hu; congruence].
Qed.

Lemma indexOf_zero s t : (Js.indexOf s t =? 0) = Js.starts_with t s.
Proof.
  unfold Js.indexOf. destruct s as [|c s]; simpl.
  - destruct (Js.starts_with t ""); reflexivity.
  - destruct (Js.starts_with t (String c s)); [reflexivity|].
    assert (Hfrom : forall u i j, Js.find_from t u i = Some j -> (i <= j)%nat).
    { intros u. induction u as [|d u IH]; intros i j; simpl.
      - destruct (Js.starts_with t ""); [intros [= <-]; lia | discriminate].
      - destruct (Js.starts_with t (String d u)); [intros [= <-]; lia|].
        intros Hj. apply IH in Hj. lia. }
    destruct (Js.find_from t s 1) as [j|] eqn:Hj; [|reflexivity].
    apply Hfrom in Hj. apply Z.eqb_neq. lia.
Qed.

Lemma strip_trailing_separator_spec s :
  (exists c, (c = Js.slash \/ c = Js.backslash) /\
             s = Js.strip_trailing_separator s +:+ String c "")
  \/ (Js.strip_trailing_separator s = s /\
      forall t c, s = t +:+ String c "" -> c <> Js.slash /\ c <> Js.backslash).
Proof.
  induction s as [|a s IH].
  - right. split; [reflexivity|]. intros [|b t] c Hc; simpl in Hc; discriminate.
  - destruct s as [|b s].
    + simpl. destruct (Ascii.eqb_spec a Js.slash) as [->|Hs]; simpl.
      { left. exists Js.slash. split; [now left | reflexivity]. }
      destruct (Ascii.eqb_spec a Js.backslash) as [->|Hb]; simpl.
      { left. exists Js.backslash. split; [now right | reflexivity]. }
      right. split; [reflexivity|].
      intros [|d [|e t]] c Hc; simpl in Hc; inversion Hc; subst; auto.
    + change (Js.strip_trailing_separator (String a (String b s)))
        with (String a (Js.strip_trailing_separator (String b s))).
      destruct IH as [(c & Hc & Heq)|[Heq Hno]].
      * left. exists c. split; [exact Hc|].
        change (String a (String b s)
                = String a (Js.strip_trailing_separator (String b s) +:+ String c "")).
        f_equal. exact Heq.
      * right. split; [f_equal; exact Heq|].
        intros [|d t] c Hc; simpl in Hc; inversion Hc; subst.
        eapply Hno; eauto.
Qed.

(** ** Reasoning about runs *)

Section Reasoning.
Context `{Host}.

Lemma with_log_nil st : with_log st [] = st.
Proof. destruct st. unfold with_log. simpl. now rewrite app_nil_r. Qed.

Lemma with_log_app st evs1 evs2 :
  with_log (with_log st evs1) evs2 = with_log st (evs1 ++ evs2).
Proof. unfold with_log. simpl. now rewrite app_assoc. Qed.

Lemma faithful_app disk l1 l2 :
  faithful disk (l1 ++ l2) <-> faithful disk l1 /\ faithful disk l2.
Proof. unfold faithful. apply Forall_app. Qed.

Lemma observer_ret {A} (a : A) : observer (mret a).
Proof.
  intros st. exists (Ok a), []. rewrite with_log_nil.
  repeat split; try constructor. intros st0 _. now rewrite with_log_nil.
Qed.

Lemma observer_throw {A} e : observer (@throw _ A e).
Proof.
  intros st. exists (Throw e), []. rewrite with_log_nil.
  repeat split; try constructor. intros st0 _. now rewrite with_log_nil.
Qed.

Lemma observer_lift {A} (r : Res A) : observer (lift r).
Proof.
  intros st. exists r, []. rewrite with_log_nil.
  repeat split; try constructor. intros st0 _. now rewrite with_log_nil.
Qed.

Lemma observer_bind {A B} (m : M A) (k : A -> M B) :
  observer m -> (forall a, observer (k a)) -> observer (m ≫= k).
Proof.
  intros Hm Hk st. destruct (Hm st) as (r & evs & Hrun & Hobs & Hfaith & Hsame).
  destruct r as [a| e |].
  - destruct (Hk a (with_log st evs)) as (r' & evs' & Hrun' & Hobs' & Hfaith' & Hsame').
    exists r', (evs ++ evs'). run_step. rewrite Hrun, Hrun', with_log_app.
    split; [reflexivity|]. split; [now apply Forall_app|].
    split; [apply faithful_app; now split|].
    intros st0 [H1 H2]%faithful_app. rewrite (Hsame st0 H1).
    rewrite (Hsame' (with_log st0 evs) H2). now rewrite with_log_app.
  - exists (Throw e), evs. run_step. rewrite Hrun. repeat split; auto.
    intros st0 H0. now rewrite (Hsame st0 H0).
  - exists (Diverge loop), evs. run_step. rewrite Hrun. repeat split; auto.
    intros st0 H0. now rewrite (Hsame st0 H0).
Qed.

Lemma observer_existsSync p : observer (fs_existsSync p).
Proof.
  intros st. exists (Ok (existsSync (fs st) p)), [EvExists p (existsSync (fs st) p)].
  split; [reflexivity|]. split; [repeat constructor|]. split; [repeat constructor|].
  intros st0 Hst0. inversion Hst0 as [|? ? Hp _]; subst. simpl in Hp.
  unfold fs_existsSync. run_step. simpl. now rewrite Hp.
Qed.

Lemma observer_readManifest p : observer (fs_readManifest p).
Proof.
  intros st.
  exists (match readFileSync (fs st) p with Some t => Ok t | None => Throw (ReadFailed p) end),
    [EvReadManifest p (readFileSync (fs st) p)].
  split. { unfold fs_readManifest. run_step. simpl. now destruct (readFileSync (fs st) p). }
  split; [repeat constructor|]. split; [repeat constructor|].
  intros st0 Hst0. inversion Hst0 as [|? ? Hp _]; subst. simpl in Hp.
  unfold fs_readManifest. run_step. simpl. rewrite Hp.
  now destruct (readFileSync (fs st) p).
Qed.

Lemma observer_findNodeModule_loop module sourceFilePath modulePaths :
  observer (findNodeModule_loop module sourceFilePath modulePaths).
Proof.
  induction modulePaths as [|c more IH]; simpl.
  - apply observer_throw.
  - apply observer_bind; [apply observer_existsSync|].
    intros [|]; [apply observer_ret | exact IH].
Qed.

Lemma observer_findNodeModule n repoRoot module sourceFilePath :
  observer (findNodeModule n repoRoot module sourceFilePath).
Proof.
  unfold findNodeModule. apply observer_bind; [apply observer_lift|].
  intros l. apply observer_findNodeModule_loop.
Qed.

Lemma observer_findNodeModuleImport n repoRoot module sourceFilePath :
  observer (findNodeModuleImport n repoRoot module sourceFilePath).
Proof.
  unfold findNodeModuleImport.
  apply observer_bind; [apply observer_findNodeModule|]. intros modulePath.
  apply observer_bind; [apply observer_existsSync|]. intros [|]; simpl.
  - apply observer_bind; [apply observer_readManifest|]. intros text.
    destruct (manifestModule text); try apply observer_throw.
    apply observer_bind; [apply observer_existsSync|].
    intros [|]; simpl; [apply observer_ret | apply observer_throw].
  - apply observer_throw.
Qed.

Lemma observer_resolveBare options budget importText filePath :
  observer (resolveBare options budget importText filePath).
Proof.
  unfold resolveBare. destruct (lookupAlias options importText) as [aliased| |].
  - case_bool_decide; [apply observer_findNodeModuleImport | apply observer_ret].
  - apply observer_bind; [apply observer_lift|]. intros _. apply observer_throw.
  - apply observer_findNodeModuleImport.
Qed.

End Reasoning.

(** ** The [options] object *)

(** C10: [packageESM] overwrites [options.repoRoot] in the caller's
    object, first thing, with the normalized root without its trailing
    separator (['/'] or a backslash, one at most); whatever the outcome of
    the run, that is what the caller finds afterwards, every other field
    is as before, and the whole run works with the overwritten object. *)
Theorem packageESM_overwrites_repoRoot `{Host} (n : nat) (options : IOptions) (disk : FS) :
  let after := (packageESM n options disk).2 in
  let normalized := path.normalize (repoRoot options) in
  ((exists c, (c = Js.slash \/ c = Js.backslash) /\
              normalized = repoRoot after +:+ String c "")
   \/ (repoRoot after = normalized /\
       forall t c, normalized = t +:+ String c "" -> c <> Js.slash /\ c <> Js.backslash))
  /\ esmSource after = esmSource options
  /\ esmDestination after = esmDestination options
  /\ entryPoints after = entryPoints options
  /\ resolveAlias after = resolveAlias options
  /\ resolveSkip after = resolveSkip options
  /\ destinationFolderSimplification after = destinationFolderSimplification options
  /\ (packageESM n options disk).1 =
       (enqueueEntryPoints after (entryPoints after);; mainLoop after n n)
         (initialState after disk).
Proof.
  simpl. split; [|repeat split].
  exact (strip_trailing_separator_spec (path.normalize (repoRoot options))).
Qed.

(** ** Resolution of bare specifiers *)

Section Resolution.
Context `{Host}.

Lemma observer_fs {A} (m : M A) st :
  observer m -> fs (m st).2 = fs st /\ in_queue (m st).2 = in_queue st
                /\ queue (m st).2 = queue st /\ seenDir (m st).2 = seenDir st.
Proof.
  intros Hm. destruct (Hm st) as (r & evs & Hrun & _). rewrite Hrun. simpl. auto.
Qed.


(** C7: once [findNodeModule] has found the package directory, the
    outcome is fixed by the file system: no manifest, an error naming the
    manifest path; a manifest whose [module] is missing or not a string,
    an error naming the manifest path; an entry file that does not exist,
    an error naming the joined path; otherwise the joined path. *)
Theorem findNodeModuleImport_manifest (n : nat) (repoRoot module sourceFilePath : string)
  (st st1 : State) (modulePath : string) :
  findNodeModule n repoRoot module sourceFilePath st = (Ok modulePath, st1) ->
  let modulePackagePath := path.join [modulePath; "package.json"] in
  (findNodeModuleImport n repoRoot module sourceFilePath st).1 =
    if negb (existsSync (fs st) modulePackagePath) then
      Throw (Error ("Missing " +:+ modulePackagePath +:+ " in node module " +:+ modulePath))
    else
      match readFileSync (fs st) modulePackagePath with
      | None => Throw (ReadFailed modulePackagePath)
      | Some text =>
          match manifestModule text with
          | ManifestUnreadable => Throw (ManifestParseFailed modulePackagePath)
          | ModuleNotString =>
              Throw (Error ("Missing property 'module' package.json at "
                            +:+ modulePackagePath))
          | ModuleString m =>
              let result := path.join [modulePath; m] in
              if existsSync (fs st) result then Ok result
              else Throw (Error ("Missing file " +:+ result))
          end
      end.
Proof.
  intros Hfound.
  pose proof (observer_fs _ st (observer_findNodeModule n repoRoot module sourceFilePath))
    as (Hfs & _).
  rewrite Hfound in Hfs. simpl in Hfs.
  unfold findNodeModuleImport. run_step. rewrite Hfound.
  unfold fs_existsSync, fs_readManifest. run_step. simpl. rewrite Hfs.
  destruct (existsSync (fs st) (path.join [modulePath; "package.json"])); simpl;
    [|reflexivity].
  destruct (readFileSync (fs st) (path.join [modulePath; "package.json"])) as [text|];
    simpl; [|reflexivity].
  destruct (manifestModule text) as [m| |]; simpl; try reflexivity.
  now destruct (existsSync (fs st) (path.join [modulePath; m])).
Qed.

End Resolution.

Section ResolutionExamples.
#[local] Existing Instance ExampleHost.host.



(** A specifier that is the name of a member of [Object.prototype], with
    no alias entry at all: the lookup is truthy, the file system is not
    consulted, and the file that holds the import is not written. *)
Lemma inherited_name_is_taken_for_an_alias :
  let options := mkOptions "/repo" "src" "out" ["a.js"] ∅ [] [] in
  let disk := ExampleHost.mkDisk
    {[ "/repo/src/a.js" := "import 'constructor';" ]} {[ "/"; "/repo" ]} in
  resolveAlias options !! "constructor" = None
  /\ resolveBare options 5 "constructor" "/repo/src/a.js" (blank disk)
     = (Throw (TypeError "filePath.indexOf is not a function"), blank disk)
  /\ (packageESM 5 options disk).1.1
     = Throw (TypeError "filePath.indexOf is not a function")
  /\ sourcesWritten (log (packageESM 5 options disk).1.2) = [].
Proof. vm_compute. repeat split. Qed.

Lemma findNodeModuleImport_manifest_witness :
  (findNodeModuleImport 5 "/repo" "dep" "/repo/src/a.js" (blank example_disk)).1
  = Ok "/repo/node_modules/dep/dist/index.js".
Proof.
  exact (findNodeModuleImport_manifest 5 "/repo" "dep" "/repo/src/a.js"
           (blank example_disk) _ "/repo/node_modules/dep" eq_refl).
Defined.

End ResolutionExamples.

(** ** The upward walk of [generatePaths] *)

Lemma len_chars s : Js.len s = length (Js.chars s).
Proof. unfold Js.len. induction s as [|c s IH]; simpl; [reflexivity | now rewrite IH]. Qed.

Lemma len_str l : Js.len (Js.str l) = length l.
Proof. unfold Js.len. induction l as [|c l IH]; simpl; [reflexivity | now rewrite IH]. Qed.

Lemma drop_while_length f l : (length (path.drop_while f l) <= length l)%nat.
Proof.
  induction l as [|c l IH]; simpl; [lia|]. destruct (f c); simpl; lia.
Qed.

Lemma drop_while_twice_length f l c rest :
  path.drop_while (fun x => negb (f x)) (path.drop_while f l) = c :: rest ->
  (S (S (length rest)) <= length l)%nat.
Proof.
  intros Hr.
  pose proof (drop_while_length f l) as Hlen.
  destruct (path.drop_while f l) as [|y r1] eqn:Hr1; [discriminate|].
  assert (Hy : f y = false).
  { clear Hr Hlen. induction l as [|a l IH]; simpl in Hr1; [discriminate|].
    destruct (f a) eqn:Ha; [now apply IH|]. now inversion Hr1; subst. }
  simpl in Hr. rewrite Hy in Hr. simpl in Hr.
  pose proof (drop_while_length (fun x => negb (f x)) r1) as Hlen'.
  rewrite Hr in Hlen'. simpl in *. lia.
Qed.

Lemma dirname_length p :
  (1 <= Js.len (path.dirname p))%nat
  /\ (2 <= Js.len p -> Js.len (path.dirname p) < Js.len p)%nat
  /\ (Js.len (path.dirname p) <= Nat.max 1 (Js.len p))%nat.
Proof.
  rewrite (len_chars p). unfold path.dirname.
  destruct (Js.chars p) as [|c0 t]; [simpl; lia|].
  destruct (path.drop_while _ (path.drop_while path.is_sep (reverse t)))
    as [|x before] eqn:Hr.
  - destruct (path.is_sep c0); simpl; lia.
  - apply drop_while_twice_length in Hr. rewrite length_reverse in Hr.
    destruct (path.is_sep c0 && bool_decide (before = [])).
    + simpl. lia.
    + rewrite len_str. simpl. rewrite length_reverse. lia.
Qed.

Section Walk.
Context `{Host}.

Lemma generatePaths_loop_ok n repoRoot module dir acc l :
  generatePaths_loop n repoRoot module dir acc = Ok l ->
  exists k,
    l = acc ++ map (candidate module) (ancestors k dir)
    /\ Forall (fun d => (Js.len repoRoot <= Js.len d)%nat) (ancestors k dir)
    /\ (Js.len (nth_ancestor k dir) < Js.len repoRoot)%nat.
Proof.
  revert dir acc. induction n as [|n IH]; intros dir acc; simpl;
    destruct (Js.length dir >=? Js.length repoRoot) eqn:Hge; try discriminate.
  - intros [= <-]. exists O. simpl. rewrite app_nil_r. unfold Js.length in Hge.
    repeat split; [constructor | lia].
  - intros Hl. apply IH in Hl as (k & -> & Hall & Hstop).
    exists (S k). simpl. rewrite <- app_assoc. unfold Js.length in Hge.
    repeat split; [constructor; [lia | exact Hall] | exact Hstop].
  - intros [= <-]. exists O. simpl. rewrite app_nil_r. unfold Js.length in Hge.
    repeat split; [constructor | lia].
Qed.

Lemma generatePaths_loop_terminates n repoRoot module dir acc :
  (2 <= Js.len repoRoot)%nat -> (Js.len dir <= n)%nat ->
  exists l, generatePaths_loop n repoRoot module dir acc = Ok l.
Proof.
  intros Hroot. revert dir acc. induction n as [|n IH]; intros dir acc Hn; simpl;
    destruct (Js.length dir >=? Js.length repoRoot) eqn:Hge; eauto;
    unfold Js.length in Hge.
  - lia.
  - apply IH. pose proof (dirname_length dir) as (_ & Hlt & _). lia.
Qed.

Lemma findNodeModule_loop_result module sourceFilePath modulePaths st :
  (findNodeModule_loop module sourceFilePath modulePaths st).1 =
    match List.find (existsSync (fs st)) modulePaths with
    | Some c => Ok c
    | None => Throw (moduleNotFound module sourceFilePath)
    end.
Proof.
  revert st. induction modulePaths as [|c more IH]; intros st; [reflexivity|].
  simpl. unfold fs_existsSync. run_step. simpl.
  destruct (existsSync (fs st) c); [reflexivity|]. now rewrite IH.
Qed.

Lemma nth_ancestor_succ k dir :
  nth_ancestor (S k) dir = path.dirname (nth_ancestor k dir).
Proof. revert dir. induction k as [|k IH]; intros dir; [reflexivity|]. simpl. now rewrite <- IH. Qed.

Lemma ancestors_lookup k dir j :
  (j < k)%nat -> ancestors k dir !! j = Some (nth_ancestor j dir).
Proof.
  revert dir j. induction k as [|k IH]; intros dir [|j] Hj; simpl; try lia; [reflexivity|].
  apply IH. lia.
Qed.

Lemma ancestors_length k dir : length (ancestors k dir) = k.
Proof. revert dir. induction k as [|k IH]; intros dir; simpl; [reflexivity | now rewrite IH]. Qed.

Lemma nth_ancestor_length_mono dir i j :
  (1 <= Js.len dir)%nat -> (i <= j)%nat ->
  (1 <= Js.len (nth_ancestor j dir) <= Js.len (nth_ancestor i dir))%nat.
Proof.
  intros Hdir Hij. induction Hij as [|j Hij IH].
  - split; [|lia]. induction i as [|i IH]; [exact Hdir|].
    rewrite nth_ancestor_succ. apply dirname_length.
  - rewrite nth_ancestor_succ.
    pose proof (dirname_length (nth_ancestor j dir)) as (H1 & _ & H3). lia.
Qed.

(** C6 (amended): for a repository root of at least two characters the
    walk ends; it tests [<dir>/node_modules/<module>] for the directory of
    the importing file and its ancestors, in that order, as long as the
    directory's path is at least as long as the root's; the first
    candidate that exists is returned, and when none exists the error
    names the module and the importing file. When the root is one of
    these ancestors, it is the last directory tested. *)
Theorem findNodeModule_walk (n : nat) (repoRoot module sourceFilePath : string) (st : State) :
  (2 <= Js.len repoRoot)%nat -> (Js.len sourceFilePath < n)%nat ->
  exists k,
    let dirs := ancestors k (path.dirname sourceFilePath) in
    Forall (fun d => (Js.len repoRoot <= Js.len d)%nat) dirs
    /\ (Js.len (nth_ancestor k (path.dirname sourceFilePath)) < Js.len repoRoot)%nat
    /\ generatePaths n repoRoot module sourceFilePath = Ok (map (candidate module) dirs)
    /\ (findNodeModule n repoRoot module sourceFilePath st).1 =
         match List.find (existsSync (fs st)) (map (candidate module) dirs) with
         | Some found => Ok found
         | None => Throw (moduleNotFound module sourceFilePath)
         end
    /\ (forall j, nth_ancestor j (path.dirname sourceFilePath) = repoRoot ->
                  last dirs = Some repoRoot).
Proof.
  intros Hroot Hn.
  pose proof (dirname_length sourceFilePath) as (Hd1 & _ & Hd3).
  destruct (generatePaths_loop_terminates n repoRoot module (path.dirname sourceFilePath) []
              Hroot ltac:(lia)) as [l Hl].
  destruct (generatePaths_loop_ok _ _ _ _ _ _ Hl) as (k & -> & Hall & Hstop).
  exists k. simpl in *. split; [exact Hall|]. split; [exact Hstop|].
  split; [exact Hl|]. split.
  - unfold findNodeModule, generatePaths. run_step. rewrite Hl.
    apply findNodeModule_loop_result.
  - intros j Hj.
    assert (Hjk : (j < k)%nat).
    { destruct (Nat.lt_ge_cases j k) as [|Hge]; [assumption|].
      pose proof (nth_ancestor_length_mono (path.dirname sourceFilePath) k j Hd1 Hge).
      rewrite Hj in *. lia. }
    assert (Hk : k = S j).
    { destruct (Nat.lt_ge_cases (S j) k) as [Hlt|]; [|lia].
      pose proof (ancestors_lookup k (path.dirname sourceFilePath) (S j) Hlt) as Hlook.
      rewrite Forall_lookup in Hall. specialize (Hall _ _ Hlook).
      rewrite nth_ancestor_succ, Hj in Hall.
      pose proof (dirname_length repoRoot) as (_ & Hlt' & _). lia. }
    subst k. rewrite last_lookup, ancestors_length.
    rewrite ancestors_lookup by (simpl; lia). simpl. now rewrite Hj.
Qed.

End Walk.

Section WalkExamples.
#[local] Existing Instance ExampleHost.host.

Lemma findNodeModule_walk_witness :
  (findNodeModule 20 "/repo" "dep" "/repo/src/a.js" (blank example_disk)).1
  = Ok "/repo/node_modules/dep"
  /\ generatePaths 20 "/repo" "dep" "/repo/src/a.js"
     = Ok ["/repo/src/node_modules/dep"; "/repo/node_modules/dep"].
Proof.
  destruct (findNodeModule_walk 20 "/repo" "dep" "/repo/src/a.js" (blank example_disk))
    as (k & _ & _ & Hpaths & Hfound & _).
  - simpl. lia.
  - simpl. lia.
  - split.
    + rewrite Hfound.
      assert (Hk : map (candidate "dep") (ancestors k (path.dirname "/repo/src/a.js"))
                   = ["/repo/src/node_modules/dep"; "/repo/node_modules/dep"]).
      { assert (Heq : generatePaths 20 "/repo" "dep" "/repo/src/a.js"
                      = Ok ["/repo/src/node_modules/dep"; "/repo/node_modules/dep"])
          by reflexivity.
        rewrite Hpaths in Heq. now inversion Heq. }
      rewrite Hk. reflexivity.
    + reflexivity.
Defined.

(** An importing file outside the repository (the target of an alias):
    the walk stops below the file-system root without ever testing the
    repository root. *)
Lemma walk_outside_repository_misses_root :
  generatePaths 20 "/repo" "dep" "/alias/lib.js" = Ok ["/alias/node_modules/dep"]
  /\ candidate "dep" "/repo" ∉ ["/alias/node_modules/dep"].
Proof.
  split; [reflexivity|]. intros Hin. apply list_elem_of_In in Hin.
  destruct Hin as [Hin|[]]. vm_compute in Hin. discriminate.
Qed.

(** With the root ["."] no directory is ever shorter than the root: the
    walk does not end. *)
Example walk_from_relative_root_never_ends n module acc :
  generatePaths_loop n "." module "." acc = Diverge WalkLoop.
Proof.
  revert acc. induction n as [|n IH]; intros acc; [reflexivity|].
  change (generatePaths_loop (S n) "." module "." acc)
    with (generatePaths_loop n "." module "."
            (acc ++ [path.join ["."; "node_modules"; module]])).
  apply IH.
Qed.

End WalkExamples.

(** ** Rewriting the specifiers of one file *)

Section Rewriting.
Context `{Host}.
Variable options : IOptions.
Variable budget : nat.

Lemma rewriteImport_contents filePath ref fileContents st fileContents' st' :
  rewriteImport options budget filePath ref fileContents st = (Ok fileContents', st') ->
  exists edit,
    decided options budget filePath (ref, edit)
    /\ fileContents' =
         match edit with
         | None => fileContents
         | Some specifier =>
             Js.substring fileContents 0 (pos ref + 1) +:+ specifier
             +:+ Js.substring_from fileContents (end_ ref + 1)
         end.
Proof.
  unfold rewriteImport, decided. simpl.
  destruct (shouldSkipImport options (fileName ref)) eqn:Hskip.
  { run_step. intros [= <- <-]. exists None. auto. }
  destruct (Js.is_relative_specifier (fileName ref)) eqn:Hrel.
  { run_step. destruct (enqueue _ st) as [[| |] st1]; try discriminate.
    intros [= <- <-]. exists None. auto. }
  run_step.
  destruct (resolveBare options budget (fileName ref) filePath st)
    as [[importedFilename| |] st1] eqn:Hres; try discriminate.
  destruct (computeDestinationFilePath options budget filePath)
    as [myDestinationPath| |] eqn:Hmy; try discriminate.
  destruct (computeDestinationFilePath options budget importedFilename)
    as [importDestinationPath| |] eqn:Himp; try discriminate.
  destruct (enqueue importedFilename st1) as [[| |] st2]; try discriminate.
  intros [= <- <-].
  exists (Some (relativeSpecifier myDestinationPath importDestinationPath)).
  split; [|reflexivity]. repeat split.
  exists st, st1, importedFilename, myDestinationPath, importDestinationPath. auto.
Qed.

Lemma rewriteImports_short filePath refs more count fileContents st :
  (count <= length refs)%nat ->
  rewriteImports options budget filePath (refs ++ more) count fileContents st
  = rewriteImports options budget filePath refs count fileContents st.
Proof.
  revert fileContents st. induction count as [|i IH]; intros fileContents st Hi;
    [reflexivity|].
  simpl. rewrite lookup_app_l by lia.
  destruct (refs !! i) as [ref|]; [|apply IH; lia].
  run_step. destruct (rewriteImport _ _ _ _ _ st) as [[c'| |] st1]; try reflexivity.
  apply IH. lia.
Qed.

Lemma rewriteInOrder_app filePath l1 l2 fileContents st :
  rewriteInOrder options budget filePath (l1 ++ l2) fileContents st =
    match rewriteInOrder options budget filePath l1 fileContents st with
    | (Ok c1, st1) => rewriteInOrder options budget filePath l2 c1 st1
    | other => other
    end.
Proof.
  revert fileContents st. induction l1 as [|ref l1 IH]; intros fileContents st;
    [reflexivity|].
  simpl. run_step.
  destruct (rewriteImport _ _ _ _ _ st) as [[c'| |] st1]; try reflexivity.
  apply IH.
Qed.

(** The loop visits the references from the last one to the first. *)
Lemma rewriteImports_reverse filePath refs fileContents st :
  rewriteImports options budget filePath refs (length refs) fileContents st
  = rewriteInOrder options budget filePath (reverse refs) fileContents st.
Proof.
  revert fileContents st. induction refs as [|ref refs IH] using rev_ind;
    intros fileContents st; [reflexivity|].
  rewrite length_app, Nat.add_1_r, reverse_app. simpl.
  rewrite lookup_app_r, Nat.sub_diag by lia. simpl. run_step.
  destruct (rewriteImport _ _ _ _ _ st) as [[c'| |] st1]; try reflexivity.
  rewrite rewriteImports_short by lia. apply IH.
Qed.

Lemma in_order_weaken b b' refs : b' <= b -> in_order b refs -> in_order b' refs.
Proof. destruct refs as [|ref more]; simpl; [auto|]. intros Hb (H1 & H2 & H3). repeat split; auto; lia. Qed.

Lemma spliced_cursor src b ref e more :
  0 <= b <= pos ref + 1 -> pos ref <= end_ ref -> end_ ref + 1 <= Js.length src ->
  Js.substring src 0 b +:+ spliced src b ((ref, Some e) :: more)
  = Js.substring src 0 (pos ref + 1) +:+ e +:+ spliced src (end_ ref + 1) more.
Proof.
  intros Hb Hpos Hend. simpl. rewrite <- app_assoc_s. f_equal.
  rewrite !substring_prefix by lia. rewrite substring_between by lia.
  apply take_split. lia.
Qed.

(** The contents after the references of [refs] have been processed,
    last one first: the source up to [cursor], then the source with the
    decided edits. *)
Lemma rewriteInOrder_spliced filePath src refs cursor st out st' :
  in_order cursor refs -> 0 <= cursor <= Js.length src ->
  Forall (fun ref => end_ ref + 1 <= Js.length src) refs ->
  rewriteInOrder options budget filePath (reverse refs) src st = (Ok out, st') ->
  exists edits,
    edits.*1 = refs /\ Forall (decided options budget filePath) edits
    /\ out = Js.substring src 0 cursor +:+ spliced src cursor edits.
Proof.
  revert cursor st out st'. induction refs as [|ref refs IH];
    intros cursor st out st' Horder Hcursor Hin Hrun.
  - simpl in Hrun. run_step. inversion Hrun; subst. exists []. repeat split; [constructor|].
    simpl. rewrite substring_prefix, substring_from_drop by lia.
    symmetry. apply take_drop_s.
  - rewrite reverse_cons, rewriteInOrder_app in Hrun.
    destruct (rewriteInOrder options budget filePath (reverse refs) src st)
      as [[mid| |] st1] eqn:Hrest; try discriminate.
    simpl in Hrun. run_step.
    destruct (rewriteImport options budget filePath ref mid st1)
      as [[c'| |] st2] eqn:Hone; try discriminate.
    inversion Hrun; subst c' st2; clear Hrun.
    destruct Horder as (Hstart & Hspan & Horder).
    inversion Hin as [|? ? Hend Hin']; subst.
    apply rewriteImport_contents in Hone as (edit & Hdec & ->).
    destruct edit as [specifier|].
    + destruct (IH (end_ ref + 1) st mid st1 Horder ltac:(lia) Hin' Hrest)
        as (edits & Hfst & Hall & ->).
      exists ((ref, Some specifier) :: edits). split; [now rewrite fmap_cons, Hfst|].
      split; [now constructor|].
      rewrite spliced_cursor by lia.
      assert (Hlen : Js.len (Js.substring src 0 (end_ ref + 1)) = Z.to_nat (end_ ref + 1)).
      { rewrite substring_prefix by lia. rewrite len_take. unfold Js.length in *. lia. }
      f_equal; [|f_equal].
      * rewrite (substring_prefix src (end_ ref + 1)) by lia.
        rewrite substring_prefix.
        -- rewrite take_app_le by (rewrite len_take; unfold Js.length in *; lia).
           rewrite take_take by lia. now rewrite substring_prefix by lia.
        -- unfold Js.length. rewrite len_app, len_take. unfold Js.length in *. lia.
      * rewrite substring_from_drop.
        -- rewrite <- Hlen. apply drop_app_len.
        -- unfold Js.length. rewrite len_app, Hlen. lia.
    + destruct (IH cursor st mid st1 ltac:(eapply in_order_weaken; [|exact Horder]; lia)
                  Hcursor Hin' Hrest) as (edits & Hfst & Hall & ->).
      exists ((ref, None) :: edits). split; [now rewrite fmap_cons, Hfst|].
      split; [now constructor|]. reflexivity.
Qed.

End Rewriting.

(** ** Invariants of a run *)

Section Invariants.
Context `{Host}.
Variable options : IOptions.
Variable budget : nat.

Lemma preserves_bind {A B} I (m : M A) (k : A -> M B) :
  preserves I m -> (forall a, preserves I (k a)) -> preserves I (m ≫= k).
Proof.
  intros Hm Hk st HI. specialize (Hm st HI). run_step.
  destruct (m st) as [[a| |] st1]; simpl in *; auto. now apply Hk.
Qed.

Lemma preserves_pure {A} I (m : M A) :
  (forall st, (m st).2 = st) -> preserves I m.
Proof. intros Hm st HI. now rewrite Hm. Qed.

Lemma stable_observations I st evs :
  stable I -> Forall is_observation evs -> I st -> I (with_log st evs).
Proof.
  intros HI Hevs. revert st. induction Hevs as [|e evs He _ IH]; intros st Hst.
  - now rewrite with_log_nil.
  - change (e :: evs) with ([e] ++ evs). rewrite <- with_log_app.
    apply IH. now apply (stable_observe I HI).
Qed.

Lemma preserves_observer {A} I (m : M A) : stable I -> observer m -> preserves I m.
Proof.
  intros HI Hm st Hst. destruct (Hm st) as (r & evs & -> & Hobs & _). simpl.
  now apply stable_observations.
Qed.

Lemma preserves_rewriteImport I filePath ref fileContents :
  stable I -> preserves I (rewriteImport options budget filePath ref fileContents).
Proof.
  intros HI. unfold rewriteImport.
  destruct (shouldSkipImport options (fileName ref)); [now apply preserves_pure|].
  destruct (Js.is_relative_specifier (fileName ref)).
  - apply preserves_bind; [intros st; apply (stable_enqueue I HI)|].
    intros _. now apply preserves_pure.
  - apply preserves_bind; [apply preserves_observer; [exact HI | apply observer_resolveBare]|].
    intros importedFilename.
    apply preserves_bind; [now apply preserves_pure|]. intros myDestinationPath.
    apply preserves_bind; [now apply preserves_pure|]. intros importDestinationPath.
    apply preserves_bind; [intros st; apply (stable_enqueue I HI)|].
    intros _. now apply preserves_pure.
Qed.

Lemma preserves_rewriteInOrder I filePath todo fileContents :
  stable I -> preserves I (rewriteInOrder options budget filePath todo fileContents).
Proof.
  intros HI. revert fileContents. induction todo as [|ref todo IH]; intros fileContents.
  - now apply preserves_pure.
  - simpl. apply preserves_bind; [now apply preserves_rewriteImport|]. exact IH.
Qed.

Lemma preserves_createDirectoryRecursive_steps I dir :
  (forall st d, I st -> I (mark_seenDir d st).2) ->
  (forall st d, I st -> I (fs_mkdirSync_quiet d st).2) ->
  preserves I (createDirectoryRecursive dir).
Proof.
  intros Hmark Hmkdir. revert dir.
  apply (createDirectoryRecursive_elim (fun dir m => preserves I m)).
  - intros dir parent _ IH _ st Hst.
    destruct (truthy (seenDir st !! dir)); [exact Hst|].
    pose proof (IH st st) as IHparent.
    revert st Hst. apply preserves_bind; [exact IHparent|]. intros _.
    apply preserves_bind; [intros st; apply Hmark|]. intros _.
    intros st; apply Hmkdir.
  - intros dir _ _ st Hst.
    destruct (truthy (seenDir st !! dir)); [exact Hst|].
    revert st Hst.
    apply preserves_bind; [intros st; apply Hmark|]. intros _.
    intros st; apply Hmkdir.
Qed.

Lemma preserves_createDirectoryRecursive I dir :
  stable I -> preserves I (createDirectoryRecursive dir).
Proof.
  intros HI. apply preserves_createDirectoryRecursive_steps.
  - apply (stable_mark I HI).
  - apply (stable_mkdir I HI).
Qed.

End Invariants.

Section Steps.
Context `{Host}.
Variable options : IOptions.
Variable budget : nat.

Lemma enqueued_app l1 l2 : enqueued (l1 ++ l2) = enqueued l1 ++ enqueued l2.
Proof. apply omap_app. Qed.

Lemma sourcesRead_app l1 l2 : sourcesRead (l1 ++ l2) = sourcesRead l1 ++ sourcesRead l2.
Proof. apply omap_app. Qed.

Lemma sourcesWritten_app l1 l2 :
  sourcesWritten (l1 ++ l2) = sourcesWritten l1 ++ sourcesWritten l2.
Proof. apply omap_app. Qed.

Lemma grows_quiet st e : is_quiet e -> grows st (with_log st [e]).
Proof.
  intros He. split; [|now exists [e]]. unfold view, with_log. simpl.
  rewrite enqueued_app, sourcesRead_app, sourcesWritten_app.
  destruct e; simpl in He; try contradiction; simpl; now rewrite !app_nil_r.
Qed.

Lemma grows_mark st dir : grows st (mark_seenDir dir st).2.
Proof. split; [reflexivity|]. exists []. simpl. now rewrite app_nil_r. Qed.

Lemma grows_mkdir st dir : grows st (fs_mkdirSync_quiet dir st).2.
Proof.
  unfold fs_mkdirSync_quiet. run_step. simpl.
  destruct (mkdirSync (fs st) dir); simpl; (split; [|now exists [EvMkdir dir]]);
    unfold view; simpl;
    rewrite enqueued_app, sourcesRead_app, sourcesWritten_app; simpl;
    now rewrite !app_nil_r.
Qed.

Lemma stable_intro (I : State -> Prop) :
  (forall st st', grows st st' -> I st -> I st') ->
  (forall st f, I st -> I (enqueue f st).2) ->
  stable I.
Proof.
  intros Hgrow Henq. split.
  - intros st e He. apply Hgrow. apply grows_quiet. destruct e; simpl in *; auto.
  - exact Henq.
  - intros st dir. apply Hgrow, grows_mark.
  - intros st dir. apply Hgrow, grows_mkdir.
Qed.

Lemma enqueue_known f st :
  truthy (in_queue st !! f) = true -> enqueue f st = (Ok tt, st).
Proof. intros Hf. unfold enqueue. now rewrite Hf. Qed.

Lemma enqueue_fresh f st :
  truthy (in_queue st !! f) = false ->
  enqueue f st = (Ok tt, mkState (fs st) (<[f := true]> (in_queue st)) (queue st ++ [f])
                           (seenDir st) (log st ++ [EvEnqueue f])).
Proof. intros Hf. unfold enqueue. now rewrite Hf. Qed.

Lemma createDirectoryRecursive_ok dir st : (createDirectoryRecursive dir st).1 = Ok tt.
Proof.
  revert dir st.
  apply (createDirectoryRecursive_elim (fun dir m => forall st, (m st).1 = Ok tt)).
  - intros dir parent _ IH _ st. destruct (truthy (seenDir st !! dir)); [reflexivity|].
    run_step. specialize (IH st st st).
    destruct (createDirectoryRecursive parent st) as [r st1]. simpl in IH. subst r.
    unfold fs_mkdirSync_quiet. run_step. simpl.
    now destruct (mkdirSync (fs st1) dir).
  - intros dir _ _ st. destruct (truthy (seenDir st !! dir)); [reflexivity|].
    unfold fs_mkdirSync_quiet. run_step. simpl. now destruct (mkdirSync (fs st) dir).
Qed.

(** The steps of [write]. *)
Lemma write_run filePath fileContents st :
  write options budget filePath fileContents st =
    match computeDestinationFilePath options budget filePath with
    | Ok finalFilePath =>
        let st1 := (createDirectoryRecursive (path.dirname finalFilePath) st).2 in
        let st2 := with_log st1 [EvWrite filePath finalFilePath fileContents] in
        match writeFileSync (fs st1) finalFilePath fileContents with
        | Some disk' =>
            (Ok tt, mkState disk' (in_queue st2) (queue st2) (seenDir st2) (log st2))
        | None => (Throw (WriteFailed finalFilePath), st2)
        end
    | Throw e => (Throw e, st)
    | Diverge loop => (Diverge loop, st)
    end.
Proof.
  unfold write. run_step.
  destruct (computeDestinationFilePath options budget filePath) as [dest| |];
    try reflexivity.
  pose proof (createDirectoryRecursive_ok (path.dirname dest) st) as Hok.
  destruct (createDirectoryRecursive (path.dirname dest) st) as [r st1]. simpl in *.
  subst r. unfold fs_writeFileSync. run_step. simpl.
  now destruct (writeFileSync (fs st1) dest fileContents).
Qed.

(** The steps of one iteration of the main loop. *)
Lemma processFile_run filePath st :
  let answer := readFileSync (fs st) filePath in
  let st1 := with_log st [EvReadSource filePath answer] in
  processFile options budget filePath st =
    match answer with
    | None => (Throw (ReadFailed filePath), st1)
    | Some src =>
        match rewriteInOrder options budget filePath (reverse (preProcessFile src)) src st1 with
        | (Ok out, st2) => write options budget filePath out st2
        | (Throw e, st2) => (Throw e, st2)
        | (Diverge loop, st2) => (Diverge loop, st2)
        end
    end.
Proof.
  simpl. unfold processFile, fs_readSource. run_step. simpl.
  destruct (readFileSync (fs st) filePath) as [src|]; [|reflexivity].
  rewrite rewriteImports_reverse.
  fold (with_log st [EvReadSource filePath (Some src)]).
  now destruct (rewriteInOrder options budget filePath (reverse (preProcessFile src)) src _)
    as [[out| |] st2].
Qed.

End Steps.

(** ** The worklist discipline *)

Section Worklist.
Context `{Host}.
Variable options : IOptions.
Variable budget : nat.

Lemma tracked_ext st st' :
  in_queue st' = in_queue st -> queue st' = queue st ->
  enqueued (log st') = enqueued (log st) ->
  sourcesRead (log st') = sourcesRead (log st) ->
  tracked st -> tracked st'.
Proof. unfold tracked. intros -> -> -> ->. auto. Qed.

Lemma tracked_grows st st' : grows st st' -> tracked st -> tracked st'.
Proof.
  intros [Hview _]. unfold view in Hview. inversion Hview. now apply tracked_ext.
Qed.

Lemma tracked_enqueue st f : tracked st -> tracked (enqueue f st).2.
Proof.
  intros (Hin & Hq & Hnd).
  destruct (truthy (in_queue st !! f)) eqn:Hf.
  - rewrite enqueue_known by assumption. exact (conj Hin (conj Hq Hnd)).
  - rewrite enqueue_fresh by assumption. unfold tracked. simpl.
    rewrite enqueued_app, sourcesRead_app. simpl. rewrite app_nil_r.
    assert (Hfresh : f ∉ enqueued (log st)).
    { intros Hf'. apply Hin in Hf'. congruence. }
    split; [|split].
    + intros g. rewrite elem_of_app, list_elem_of_singleton.
      destruct (decide (f = g)) as [->|Hne].
      * rewrite lookup_insert_eq. simpl. tauto.
      * rewrite lookup_insert_ne by assumption. rewrite Hin. split; [auto|].
        intros [?|?]; [assumption | congruence].
    + rewrite Hq. now rewrite app_assoc.
    + apply NoDup_app. split; [assumption|]. split; [|apply NoDup_singleton].
      intros g Hg Hg'. apply list_elem_of_singleton in Hg'. now subst.
Qed.

Lemma enqueue_written st f :
  sourcesWritten (log (enqueue f st).2) = sourcesWritten (log st)
  /\ sourcesRead (log (enqueue f st).2) = sourcesRead (log st).
Proof.
  unfold enqueue. destruct (truthy (in_queue st !! f)); simpl; [auto|].
  rewrite sourcesWritten_app, sourcesRead_app. simpl. now rewrite !app_nil_r.
Qed.

Lemma stable_working f : stable (working f).
Proof.
  apply stable_intro.
  - intros st st' Hgrow [Ht Hw]. split; [now apply (tracked_grows st)|].
    destruct Hgrow as [Hview _]. unfold view in Hview. inversion Hview. congruence.
  - intros st g [Ht Hw]. split; [now apply tracked_enqueue|].
    destruct (enqueue_written st g) as [-> ->]. exact Hw.
Qed.

Lemma stable_settled : stable settled.
Proof.
  apply stable_intro.
  - intros st st' Hgrow [Ht Hw]. split; [now apply (tracked_grows st)|].
    destruct Hgrow as [Hview _]. unfold view in Hview. inversion Hview. congruence.
  - intros st g [Ht Hw]. split; [now apply tracked_enqueue|].
    destruct (enqueue_written st g) as [-> ->]. exact Hw.
Qed.

Lemma working_consistent f st : working f st -> consistent st.
Proof. intros [Ht Hw]. split; [exact Ht | right; now exists f]. Qed.

Lemma settled_consistent st : settled st -> consistent st.
Proof. intros [Ht Hw]. split; [exact Ht | now left]. Qed.

Lemma working_after_read f answer st :
  shifted f st -> working f (with_log st [EvReadSource f answer]).
Proof.
  intros (Hin & Hq & Hnd & Hw). unfold working, tracked, with_log. simpl.
  rewrite enqueued_app, sourcesRead_app, sourcesWritten_app. simpl.
  rewrite !app_nil_r. repeat split; try apply Hin; auto.
  - now rewrite Hq, <- app_assoc.
  - now rewrite Hw.
Qed.

Lemma settled_after_write f dest out disk' st :
  working f st ->
  let st' := with_log st [EvWrite f dest out] in
  settled st'
  /\ settled (mkState disk' (in_queue st') (queue st') (seenDir st') (log st')).
Proof.
  intros ((Hin & Hq & Hnd) & Hw). unfold settled, tracked, with_log. simpl.
  rewrite enqueued_app, sourcesRead_app, sourcesWritten_app. simpl.
  rewrite !app_nil_r. now repeat split; try apply Hin.
Qed.

Lemma write_settles f out st :
  working f st ->
  consistent (write options budget f out st).2
  /\ ((write options budget f out st).1 = Ok tt ->
      settled (write options budget f out st).2).
Proof.
  intros Hw. rewrite write_run.
  destruct (computeDestinationFilePath options budget f) as [dest| |];
    try (split; [now apply (working_consistent f) | discriminate]).
  pose proof (preserves_createDirectoryRecursive (working f) (path.dirname dest)
                (stable_working f) st Hw) as Hw1.
  simpl.
  destruct (writeFileSync _ dest out) as [disk'|]; simpl.
  - destruct (settled_after_write f dest out disk' _ Hw1) as [_ Hs].
    split; [now apply settled_consistent | auto].
  - destruct (settled_after_write f dest out (fs st) _ Hw1) as [Hs _].
    split; [now apply settled_consistent | discriminate].
Qed.

Lemma processFile_settles f st :
  shifted f st ->
  consistent (processFile options budget f st).2
  /\ ((processFile options budget f st).1 = Ok tt ->
      settled (processFile options budget f st).2).
Proof.
  intros Hs. rewrite processFile_run.
  pose proof (working_after_read f (readFileSync (fs st) f) st Hs) as Hw.
  destruct (readFileSync (fs st) f) as [src|];
    [|split; [now apply (working_consistent f) | discriminate]].
  pose proof (preserves_rewriteInOrder options budget (working f) f
                (reverse (preProcessFile src)) src (stable_working f) _ Hw) as Hw2.
  destruct (rewriteInOrder options budget f (reverse (preProcessFile src)) src _)
    as [[out| |] st2]; simpl in Hw2;
    try (split; [now apply (working_consistent f) | discriminate]).
  now apply write_settles.
Qed.

Lemma mainLoop_settles n st :
  settled st ->
  consistent (mainLoop options budget n st).2
  /\ ((mainLoop options budget n st).1 = Ok tt ->
      settled (mainLoop options budget n st).2
      /\ queue (mainLoop options budget n st).2 = []).
Proof.
  revert st. induction n as [|n IH]; intros st Hs; simpl;
    destruct (queue st) as [|f rest] eqn:Hq; simpl;
    try (split; [now apply settled_consistent | auto; discriminate]).
  run_step.
  assert (Hshift : shifted f (mkState (fs st) (in_queue st) rest (seenDir st) (log st))).
  { destruct Hs as ((Hin & Hqueue & Hnd) & Hw). unfold shifted. simpl.
    rewrite Hq in Hqueue. auto. }
  destruct (processFile_settles f _ Hshift) as [Hc Hok].
  destruct (processFile options budget f _) as [[[]| |] st1]; simpl in *;
    try (split; [exact Hc | discriminate]).
  apply IH. now apply Hok.
Qed.

Lemma enqueueEntryPoints_ok entries st :
  (enqueueEntryPoints options entries st).1 = Ok tt.
Proof.
  revert st. induction entries as [|e entries IH]; intros st; [reflexivity|].
  simpl. run_step. unfold enqueue at 1.
  destruct (truthy _); apply IH.
Qed.

Lemma preserves_enqueueEntryPoints I entries :
  stable I -> preserves I (enqueueEntryPoints options entries).
Proof.
  intros HI. induction entries as [|e entries IH]; [now apply preserves_pure|].
  simpl. apply preserves_bind; [intros st; apply (stable_enqueue I HI)|].
  intros _. exact IH.
Qed.

Lemma settled_initialState disk : settled (initialState options disk).
Proof.
  repeat split; simpl; try constructor.
  - rewrite lookup_empty. discriminate.
  - intros Hf. inversion Hf.
Qed.

End Worklist.

(** C2: in a run of [packageESM], whatever its outcome, no file is
    enqueued twice, read twice or written twice, however many files
    import it; the files read are the ones taken from the queue, each was
    enqueued before, and the files written are among the files read; a
    file that was ever enqueued is not enqueued again. *)
Theorem no_double_processing `{Host} (n : nat) (options : IOptions) (disk : FS) :
  let st := (packageESM n options disk).1.2 in
  NoDup (enqueued (log st))
  /\ NoDup (sourcesRead (log st))
  /\ NoDup (sourcesWritten (log st))
  /\ enqueued (log st) = sourcesRead (log st) ++ queue st
  /\ sourcesWritten (log st) `prefix_of` sourcesRead (log st)
  /\ forall f, f ∈ enqueued (log st) -> enqueue f st = (Ok tt, st).
Proof.
  change (packageESM n options disk).1
    with ((enqueueEntryPoints (normalizeRepoRoot options)
             (entryPoints (normalizeRepoRoot options));;
           mainLoop (normalizeRepoRoot options) n n)
            (initialState (normalizeRepoRoot options) disk)).
  set (options' := normalizeRepoRoot options).
  pose proof (preserves_enqueueEntryPoints options' settled (entryPoints options')
                stable_settled _ (settled_initialState options' disk)) as Hs.
  pose proof (enqueueEntryPoints_ok options' (entryPoints options')
                (initialState options' disk)) as Hok.
  run_step.
  destruct (enqueueEntryPoints options' (entryPoints options') _) as [r st0].
  simpl in Hs, Hok. subst r.
  destruct (mainLoop_settles options' n n st0 Hs) as [((Hin & Hq & Hnd) & Hw) _].
  set (st := (mainLoop options' n n st0).2) in *.
  assert (Hread : NoDup (sourcesRead (log st))).
  { rewrite Hq in Hnd. now apply NoDup_app in Hnd as (? & _). }
  assert (Hpre : sourcesWritten (log st) `prefix_of` sourcesRead (log st)).
  { destruct Hw as [->|[f ->]]; [reflexivity | now exists [f]]. }
  cbv zeta.
  split; [exact Hnd|]. split; [exact Hread|]. split; [|split; [exact Hq|]].
  - destruct Hpre as [rest Hrest]. rewrite Hrest in Hread.
    now apply NoDup_app in Hread as (? & _).
  - split; [exact Hpre|]. intros f Hf. apply enqueue_known. now apply Hin.
Qed.

(** ** The rewritten specifier *)

Lemma drop_take_commute n m s : Js.take m (Js.drop n s) = Js.drop n (Js.take (n + m) s).
Proof.
  revert s. induction n as [|n IH]; intros s.
  - destruct s, m; reflexivity.
  - destruct s as [|c s]; simpl; [now destruct m|]. apply IH.
Qed.

Lemma substring_as_drop_take s (a b : Z) :
  0 <= a <= b -> b <= Js.length s ->
  Js.substring s a b = Js.drop (Z.to_nat a) (Js.take (Z.to_nat b) s).
Proof.
  intros Ha Hb. rewrite substring_between by lia. rewrite drop_take_commute.
  do 2 f_equal. lia.
Qed.

Lemma substring_three_parts s (a b : Z) :
  0 <= a <= b -> b <= Js.length s ->
  s = Js.substring s 0 a +:+ Js.substring s a b +:+ Js.substring_from s b.
Proof.
  intros Ha Hb.
  rewrite substring_prefix, substring_between, substring_from_drop by lia.
  rewrite <- app_assoc_s, take_split by lia. symmetry. apply take_drop_s.
Qed.

(** C9: for a bare specifier that is not skipped, the text written in
    its place is the relative path from the directory of the importing
    file's destination to the destination of the resolved file, with
    [./] put in front unless it starts with [./] or [../], backslashes
    turned into slashes and a final [.js] removed; it takes the place of
    the characters [pos+1 .. end] of the contents, the specifier between
    its quotes, and nothing else changes. *)
Theorem bare_specifier_rewritten `{Host} (options : IOptions) (budget : nat)
  (filePath : string) (ref : FileReference) (fileContents fileContents' : string)
  (st st' : State) :
  shouldSkipImport options (fileName ref) = false ->
  Js.is_relative_specifier (fileName ref) = false ->
  0 <= pos ref + 1 <= end_ ref + 1 -> end_ ref + 1 <= Js.length fileContents ->
  rewriteImport options budget filePath ref fileContents st = (Ok fileContents', st') ->
  exists st1 importedFilename myDestinationPath importDestinationPath,
    resolveBare options budget (fileName ref) filePath st = (Ok importedFilename, st1)
    /\ computeDestinationFilePath options budget filePath = Ok myDestinationPath
    /\ computeDestinationFilePath options budget importedFilename = Ok importDestinationPath
    /\ let relativePath :=
         path.relative cwd (path.dirname myDestinationPath) importDestinationPath in
       let prefixed :=
         if Js.starts_with "./" relativePath || Js.starts_with "../" relativePath
         then relativePath else "./" +:+ relativePath in
       let specifier := Js.strip_js (Js.replace_backslashes prefixed) in
       let before := Js.substring fileContents 0 (pos ref + 1) in
       let replaced := Js.substring fileContents (pos ref + 1) (end_ ref + 1) in
       let after := Js.substring_from fileContents (end_ ref + 1) in
       fileContents = before +:+ replaced +:+ after
       /\ fileContents' = before +:+ specifier +:+ after.
Proof.
  intros Hskip Hrel Hpos Hend Hrun.
  unfold rewriteImport in Hrun. rewrite Hskip, Hrel in Hrun. run_step.
  destruct (resolveBare options budget (fileName ref) filePath st)
    as [[importedFilename| |] st1] eqn:Hres; try discriminate.
  destruct (computeDestinationFilePath options budget filePath)
    as [myDestinationPath| |] eqn:Hmy; try discriminate.
  destruct (computeDestinationFilePath options budget importedFilename)
    as [importDestinationPath| |] eqn:Himp; try discriminate.
  destruct (enqueue importedFilename st1) as [[| |] st2]; try discriminate.
  inversion Hrun; subst; clear Hrun.
  exists st1, importedFilename, myDestinationPath, importDestinationPath.
  repeat split; try assumption.
  - now apply substring_three_parts.
  - unfold relativeSpecifier, Js.is_relative_specifier.
    now destruct (Js.starts_with "./" _ || Js.starts_with "../" _).
Qed.

(** ** Offsets under last-first rewriting *)

Lemma in_order_lower b refs :
  in_order b refs -> Forall (fun r => b <= pos r + 1 /\ pos r <= end_ r) refs.
Proof.
  revert b. induction refs as [|r refs IH]; intros b; simpl; [constructor|].
  intros (H1 & H2 & H3). constructor; [auto|].
  apply IH. eapply in_order_weaken; [|exact H3]. lia.
Qed.

Lemma in_order_app_inv b l1 l2 :
  in_order b (l1 ++ l2) ->
  in_order b l1
  /\ exists b', b <= b' /\ in_order b' l2 /\ Forall (fun r => end_ r + 1 <= b') l1.
Proof.
  revert b. induction l1 as [|r l1 IH]; intros b; simpl.
  - intros Hl2. split; [exact I|]. exists b. repeat split; [lia | exact Hl2 | constructor].
  - intros (H1 & H2 & H3). destruct (IH _ H3) as (Hl1 & b' & Hb' & Hl2 & Hall).
    split; [auto|]. exists b'. repeat split; [lia | exact Hl2 |].
    constructor; [lia | exact Hall].
Qed.

Lemma substring_of_extended_prefix src rest (B a b : Z) :
  0 <= a <= b -> b <= B -> B <= Js.length src ->
  Js.substring (Js.substring src 0 B +:+ rest) a b = Js.substring src a b.
Proof.
  intros Ha Hb HB. rewrite (substring_prefix src B) by lia.
  assert (Hlen : Js.len (Js.take (Z.to_nat B) src) = Z.to_nat B).
  { rewrite len_take. unfold Js.length in HB. lia. }
  rewrite !substring_as_drop_take; try lia.
  - f_equal. rewrite take_app_le by lia. apply take_take. lia.
  - unfold Js.length. rewrite len_app, Hlen. lia.
Qed.

(** C3: the loop takes the references from the last one reported to the
    first; with references reported in text order that is from the
    highest offset to the lowest, and when the turn of a reference comes
    the contents up to the end of its span are still those of the source:
    its specifier, and the specifier of every reference still to be
    processed, is found at the offsets the scanner reported. *)
Theorem references_rewritten_last_first `{Host} (options : IOptions) (budget : nat)
  (filePath src : string) (before after : list FileReference) (ref : FileReference)
  (st : State) :
  wellFormed src (before ++ ref :: after) ->
  (forall fileContents st0,
      rewriteImports options budget filePath (before ++ ref :: after)
        (length (before ++ ref :: after)) fileContents st0
      = rewriteInOrder options budget filePath
          (reverse after ++ ref :: reverse before) fileContents st0)
  /\ Forall (fun r => end_ ref <= pos r) after
  /\ Forall (fun r => end_ r <= pos ref) before
  /\ forall current st1,
      rewriteInOrder options budget filePath (reverse after) src st = (Ok current, st1) ->
      Js.substring current 0 (end_ ref + 1) = Js.substring src 0 (end_ ref + 1)
      /\ Forall (fun r => Js.substring current (pos r + 1) (end_ r + 1)
                          = Js.substring src (pos r + 1) (end_ r + 1))
           (before ++ [ref]).
Proof.
  intros [Horder Hin].
  apply in_order_app_inv in Horder as (Hbefore & b' & Hb' & Href & Hends).
  simpl in Href. destruct Href as (Hstart & Hspan & Hafter).
  apply Forall_app in Hin as [Hin_before Hin_rest].
  inversion Hin_rest as [|? ? Hend Hin_after]; subst.
  split; [|split; [|split]].
  - intros fileContents st0. rewrite rewriteImports_reverse.
    now rewrite reverse_app, reverse_cons, <- app_assoc.
  - apply in_order_lower in Hafter. eapply Forall_impl; [exact Hafter|].
    simpl. intros r [? ?]. lia.
  - eapply Forall_impl; [exact Hends|]. simpl. intros r ?. lia.
  - intros current st1 Hrun.
    destruct (rewriteInOrder_spliced options budget filePath src after (end_ ref + 1)
                st current st1 Hafter ltac:(lia) Hin_after Hrun)
      as (edits & _ & _ & ->).
    split; [apply substring_of_extended_prefix; lia|].
    apply Forall_app. split.
    + apply in_order_lower in Hbefore.
      rewrite Forall_forall in Hbefore, Hends |- *. intros r Hr.
      specialize (Hbefore r Hr). specialize (Hends r Hr). simpl in *.
      apply substring_of_extended_prefix; lia.
    + constructor; [|constructor]. apply substring_of_extended_prefix; lia.
Qed.

(** ** What one iteration writes *)

Section Iteration.
Context `{Host}.
Variable options : IOptions.
Variable budget : nat.

Lemma grows_view st st' :
  grows st st' ->
  in_queue st' = in_queue st /\ queue st' = queue st
  /\ enqueued (log st') = enqueued (log st)
  /\ sourcesRead (log st') = sourcesRead (log st)
  /\ sourcesWritten (log st') = sourcesWritten (log st).
Proof. intros [Hview _]. unfold view in Hview. now injection Hview. Qed.

Lemma app_eq_self_nil {A} (l evs : list A) : l ++ evs = l -> evs = [].
Proof.
  intros Heq. apply (f_equal length) in Heq. rewrite length_app in Heq.
  destruct evs; [reflexivity | simpl in Heq; lia].
Qed.

Lemma grows_events st st' :
  grows st st' ->
  exists evs, log st' = log st ++ evs
              /\ enqueued evs = [] /\ sourcesRead evs = [] /\ sourcesWritten evs = [].
Proof.
  intros Hg. destruct (grows_view _ _ Hg) as (_ & _ & He & Hr & Hw).
  destruct Hg as [_ [evs Hevs]]. exists evs. split; [exact Hevs|].
  rewrite Hevs, enqueued_app in He. rewrite Hevs, sourcesRead_app in Hr.
  rewrite Hevs, sourcesWritten_app in Hw.
  repeat split; eapply app_eq_self_nil; eassumption.
Qed.

Lemma grows_refl st : grows st st.
Proof. split; [reflexivity|]. exists []. now rewrite app_nil_r. Qed.

Lemma grows_trans st1 st2 st3 : grows st1 st2 -> grows st2 st3 -> grows st1 st3.
Proof.
  intros [Hv1 [evs1 Hl1]] [Hv2 [evs2 Hl2]]. split; [congruence|].
  exists (evs1 ++ evs2). now rewrite Hl2, Hl1, app_assoc.
Qed.

Lemma createDirectoryRecursive_grows dir st :
  grows st (createDirectoryRecursive dir st).2.
Proof.
  apply (preserves_createDirectoryRecursive_steps (grows st) dir).
  - intros st' d Hst'. eapply grows_trans; [exact Hst' | apply grows_mark].
  - intros st' d Hst'. eapply grows_trans; [exact Hst' | apply grows_mkdir].
  - apply grows_refl.
Qed.

Lemma stable_tracked : stable tracked.
Proof. apply stable_intro; [apply tracked_grows | intros st f; apply tracked_enqueue]. Qed.

Lemma stable_prefix l : stable (fun st => l `prefix_of` log st).
Proof.
  apply stable_intro.
  - intros st st' [_ [evs Hevs]] Hl. rewrite Hevs. now apply prefix_app_r.
  - intros st f Hl. unfold enqueue. destruct (truthy _); simpl; [exact Hl|].
    now apply prefix_app_r.
Qed.

Lemma stable_in_queue g : stable (fun st => truthy (in_queue st !! g) = true).
Proof.
  apply stable_intro.
  - intros st st' [Hview _]. unfold view in Hview. inversion Hview. congruence.
  - intros st f Hg. unfold enqueue. destruct (truthy (in_queue st !! f)) eqn:Hf; simpl;
      [exact Hg|].
    destruct (decide (f = g)) as [->|Hne]; [now rewrite lookup_insert_eq|].
    now rewrite lookup_insert_ne.
Qed.

Lemma enqueue_truthy f st : truthy (in_queue (enqueue f st).2 !! f) = true.
Proof.
  unfold enqueue. destruct (truthy (in_queue st !! f)) eqn:Hf; simpl; [exact Hf|].
  now rewrite lookup_insert_eq.
Qed.

(** A reference that is not skipped gets its target enqueued. *)
Lemma rewriteImport_target filePath ref fileContents st fileContents' st' :
  rewriteImport options budget filePath ref fileContents st = (Ok fileContents', st') ->
  shouldSkipImport options (fileName ref) = false ->
  exists target st1,
    st' = (enqueue target st1).2
    /\ if Js.is_relative_specifier (fileName ref)
       then target = path.join [path.dirname filePath; fileName ref] +:+ ".js"
            /\ st1 = st
       else resolveBare options budget (fileName ref) filePath st = (Ok target, st1).
Proof.
  unfold rewriteImport. intros Hrun Hskip. rewrite Hskip in Hrun.
  destruct (Js.is_relative_specifier (fileName ref)).
  - run_step.
    destruct (enqueue _ st) as [[[]| |] st1] eqn:Henq; try discriminate.
    inversion Hrun; subst. eexists _, st. rewrite Henq. auto.
  - run_step.
    destruct (resolveBare options budget (fileName ref) filePath st)
      as [[target| |] st1] eqn:Hres; try discriminate.
    destruct (computeDestinationFilePath options budget filePath); try discriminate.
    destruct (computeDestinationFilePath options budget target); try discriminate.
    destruct (enqueue target st1) as [[[]| |] st2] eqn:Henq; try discriminate.
    inversion Hrun; subst. exists target, st1. now rewrite Henq.
Qed.

Lemma rewriteInOrder_enqueues_relative filePath todo fileContents st out st' :
  rewriteInOrder options budget filePath todo fileContents st = (Ok out, st') ->
  forall ref,
    ref ∈ todo -> shouldSkipImport options (fileName ref) = false ->
    Js.is_relative_specifier (fileName ref) = true ->
    truthy (in_queue st' !! (path.join [path.dirname filePath; fileName ref] +:+ ".js"))
    = true.
Proof.
  revert fileContents st. induction todo as [|r todo IH]; intros fileContents st Hrun ref Hin;
    [inversion Hin|].
  simpl in Hrun. run_step.
  destruct (rewriteImport options budget filePath r fileContents st)
    as [[c1| |] st1] eqn:Hone; try discriminate.
  apply elem_of_cons in Hin as [->|Hin]; [|eapply IH; eauto].
  intros Hskip Hrel.
  destruct (rewriteImport_target _ _ _ _ _ _ Hone Hskip) as (target & st0 & -> & Htarget).
  rewrite Hrel in Htarget. destruct Htarget as [-> ->].
  set (target := path.join [path.dirname filePath; fileName r] +:+ ".js") in *.
  pose proof (preserves_rewriteInOrder options budget _ filePath todo c1
                (stable_in_queue target) _ (enqueue_truthy target st)) as Hkeep.
  now rewrite Hrun in Hkeep.
Qed.

Lemma stable_nothing_written l : stable (nothing_written l).
Proof.
  apply stable_intro.
  - intros st st' Hg (evs & Hevs & Hw).
    destruct (grows_events _ _ Hg) as (evs' & Hevs' & _ & _ & Hw').
    exists (evs ++ evs'). split; [now rewrite Hevs', Hevs, app_assoc|].
    now rewrite sourcesWritten_app, Hw, Hw'.
  - intros st f (evs & Hevs & Hw). unfold enqueue. destruct (truthy _); simpl.
    + now exists evs.
    + exists (evs ++ [EvEnqueue f]). split; [now rewrite Hevs, app_assoc|].
      rewrite sourcesWritten_app, Hw. reflexivity.
Qed.

(** An iteration that succeeds writes one file, at the destination of
    the file it read: the text it read with the decided edits. *)
Lemma processFile_output (filePath : string) (st st' : State) :
  processFile options budget filePath st = (Ok tt, st') ->
  exists src finalFilePath out st2,
    readFileSync (fs st) filePath = Some src
    /\ computeDestinationFilePath options budget filePath = Ok finalFilePath
    /\ writeFileSync (fs st2) finalFilePath out = Some (fs st')
    /\ (exists evs,
           log st' = log st ++ evs ++ [EvWrite filePath finalFilePath out]
           /\ sourcesWritten evs = [])
    /\ (wellFormed src (preProcessFile src) ->
        exists edits,
          edits.*1 = preProcessFile src
          /\ Forall (decided options budget filePath) edits
          /\ out = spliced src 0 edits)
    /\ (forall ref,
           ref ∈ preProcessFile src ->
           shouldSkipImport options (fileName ref) = false ->
           Js.is_relative_specifier (fileName ref) = true ->
           truthy (in_queue st'
                   !! (path.join [path.dirname filePath; fileName ref] +:+ ".js")) = true).
Proof.
  rewrite processFile_run. intros Hrun.
  destruct (readFileSync (fs st) filePath) as [src|]; [|discriminate].
  set (st1 := with_log st [EvReadSource filePath (Some src)]) in *.
  destruct (rewriteInOrder options budget filePath (reverse (preProcessFile src)) src st1)
    as [[out| |] st2] eqn:Hloop; try discriminate.
  rewrite write_run in Hrun.
  destruct (computeDestinationFilePath options budget filePath) as [dest| |]; try discriminate.
  pose proof (createDirectoryRecursive_grows (path.dirname dest) st2) as Hgrow.
  set (st3 := (createDirectoryRecursive (path.dirname dest) st2).2) in *.
  destruct (grows_events _ _ Hgrow) as (evs3 & Hevs3 & _ & _ & Hw3).
  destruct (grows_view _ _ Hgrow) as (Hq & _).
  simpl in Hrun.
  destruct (writeFileSync (fs st3) dest out) as [disk'|] eqn:Hwrite; [|discriminate].
  inversion Hrun; subst st'; clear Hrun. simpl.
  exists src, dest, out, st3. repeat split; try assumption.
  - pose proof (preserves_rewriteInOrder options budget _ filePath
                  (reverse (preProcessFile src)) src
                  (stable_nothing_written (log st1)) st1) as Hnw.
    rewrite Hloop in Hnw. destruct Hnw as (evs2 & Hevs2 & Hw2).
    { exists []. now rewrite app_nil_r. }
    simpl in Hevs2.
    exists (EvReadSource filePath (Some src) :: evs2 ++ evs3). split.
    + rewrite Hevs3, Hevs2. unfold st1, with_log. simpl.
      rewrite <- !app_assoc. reflexivity.
    + simpl. now rewrite sourcesWritten_app, Hw2, Hw3.
  - intros [Horder Hin].
    destruct (rewriteInOrder_spliced options budget filePath src (preProcessFile src) 0
                st1 out st2 Horder) as (edits & ? & ? & ->); auto.
    { split; [lia|]. unfold Js.length. lia. }
    exists edits. repeat split; auto.
    rewrite substring_prefix by (unfold Js.length; lia). reflexivity.
  - intros ref Hin Hskip Hrel. rewrite Hq.
    eapply rewriteInOrder_enqueues_relative; eauto.
    now apply elem_of_reverse.
Qed.

End Iteration.

(** ** Reachability *)

Section Closure.
Context `{Host}.
Variable options : IOptions.
Variable budget : nat.
Variable disk : FS.

#[local] Abbreviation Reach := (Reachable options budget disk).
#[local] Abbreviation targetOf := (importTarget options budget disk).

Lemma grows_observations st evs : Forall is_observation evs -> grows st (with_log st evs).
Proof.
  intros Hevs. revert st. induction Hevs as [|e evs He _ IH]; intros st.
  - rewrite with_log_nil. apply grows_refl.
  - change (e :: evs) with ([e] ++ evs). rewrite <- with_log_app.
    eapply grows_trans; [|apply IH]. apply grows_quiet. destruct e; simpl in *; auto.
Qed.

Lemma enqueue_log f st : log st `prefix_of` log (enqueue f st).2.
Proof. unfold enqueue. destruct (truthy _); simpl; [reflexivity | now apply prefix_app_r]. Qed.

Lemma rewriteInOrder_log filePath todo fileContents st :
  log st `prefix_of` log (rewriteInOrder options budget filePath todo fileContents st).2.
Proof.
  now apply (preserves_rewriteInOrder options budget _ filePath todo fileContents
               (stable_prefix (log st)) st).
Qed.

Lemma write_log filePath fileContents st :
  log st `prefix_of` log (write options budget filePath fileContents st).2.
Proof.
  rewrite write_run.
  destruct (computeDestinationFilePath options budget filePath) as [dest| |];
    try reflexivity.
  destruct (createDirectoryRecursive_grows (path.dirname dest) st) as [_ [evs Hevs]].
  simpl. destruct (writeFileSync _ dest fileContents); simpl; rewrite Hevs;
    rewrite <- app_assoc; now apply prefix_app_r.
Qed.

Lemma processFile_log filePath st :
  log st `prefix_of` log (processFile options budget filePath st).2.
Proof.
  rewrite processFile_run.
  assert (Hread : log st `prefix_of`
                  log (with_log st [EvReadSource filePath (readFileSync (fs st) filePath)]))
    by (simpl; now apply prefix_app_r).
  destruct (readFileSync (fs st) filePath) as [src|]; [|exact Hread].
  pose proof (rewriteInOrder_log filePath (reverse (preProcessFile src)) src
                (with_log st [EvReadSource filePath (Some src)])) as Hloop.
  destruct (rewriteInOrder options budget filePath _ src _) as [[out| |] st2];
    simpl in Hloop; try (etrans; eassumption).
  etrans; [exact Hread|]. etrans; [exact Hloop|]. apply write_log.
Qed.

Lemma mainLoop_log n st : log st `prefix_of` log (mainLoop options budget n st).2.
Proof.
  revert st. induction n as [|n IH]; intros st; simpl;
    destruct (queue st) as [|f rest]; try reflexivity.
  run_step.
  pose proof (processFile_log f (mkState (fs st) (in_queue st) rest (seenDir st) (log st)))
    as Hone.
  destruct (processFile options budget f _) as [[[]| |] st1]; simpl in *; try exact Hone.
  etrans; [exact Hone | apply IH].
Qed.

Lemma faithful_prefix l l' : l `prefix_of` l' -> faithful disk l' -> faithful disk l.
Proof. intros [rest ->] Hl. now apply faithful_app in Hl as [? _]. Qed.

Lemma enqueued_prefix l l' g : l `prefix_of` l' -> g ∈ enqueued l -> g ∈ enqueued l'.
Proof. intros [rest ->] Hg. rewrite enqueued_app. apply elem_of_app. now left. Qed.

(** The target enqueued for a reference is its target on [disk], as long
    as the answers the resolver got are those of [disk]. *)
Lemma rewriteImport_static filePath ref fileContents st fileContents' st' :
  rewriteImport options budget filePath ref fileContents st = (Ok fileContents', st') ->
  shouldSkipImport options (fileName ref) = false ->
  faithful disk (log st') ->
  exists target st1,
    st' = (enqueue target st1).2 /\ grows st st1 /\ targetOf filePath ref = Ok target.
Proof.
  intros Hrun Hskip Hfaith.
  destruct (rewriteImport_target _ _ _ _ _ _ _ _ Hrun Hskip) as (target & st1 & -> & Htarget).
  exists target, st1. split; [reflexivity|].
  unfold importTarget. destruct (Js.is_relative_specifier (fileName ref)).
  - destruct Htarget as [-> ->]. split; [apply grows_refl | reflexivity].
  - destruct (observer_resolveBare options budget (fileName ref) filePath st)
      as (r & evs & Hres & Hobs & _ & Hsame).
    rewrite Hres in Htarget. inversion Htarget; subst r st1; clear Htarget.
    split; [now apply grows_observations|].
    rewrite (Hsame (blank disk)); [reflexivity|]. simpl.
    apply (faithful_prefix _ _ (enqueue_log target (with_log st evs))) in Hfaith.
    simpl in Hfaith. now apply faithful_app in Hfaith as [_ ?].
Qed.

Lemma rewriteInOrder_closes filePath todo fileContents st out st' :
  rewriteInOrder options budget filePath todo fileContents st = (Ok out, st') ->
  tracked st -> faithful disk (log st') ->
  forall ref target,
    ref ∈ todo -> shouldSkipImport options (fileName ref) = false ->
    targetOf filePath ref = Ok target -> target ∈ enqueued (log st').
Proof.
  revert fileContents st. induction todo as [|r todo IH];
    intros fileContents st Hrun Htracked Hfaith ref target Hin; [inversion Hin|].
  simpl in Hrun. run_step.
  destruct (rewriteImport options budget filePath r fileContents st)
    as [[c1| |] st1] eqn:Hone; try discriminate.
  pose proof (rewriteInOrder_log filePath todo c1 st1) as Hlog. rewrite Hrun in Hlog.
  simpl in Hlog.
  pose proof (preserves_rewriteImport options budget tracked filePath r fileContents
                stable_tracked st Htracked) as Htracked1.
  rewrite Hone in Htracked1. simpl in Htracked1.
  apply elem_of_cons in Hin as [->|Hin]; [|eapply IH; eauto].
  intros Hskip Htarget.
  destruct (rewriteImport_static _ _ _ _ _ _ Hone Hskip (faithful_prefix _ _ Hlog Hfaith))
    as (target' & st0 & Hst1 & _ & Htarget').
  rewrite Htarget in Htarget'. inversion Htarget'; subst target'.
  apply (enqueued_prefix _ _ _ Hlog). apply Htracked1. rewrite Hst1.
  apply enqueue_truthy.
Qed.

Lemma rewriteInOrder_reachable filePath src todo fileContents st out st' :
  rewriteInOrder options budget filePath todo fileContents st = (Ok out, st') ->
  faithful disk (log st') ->
  Reach filePath -> readFileSync disk filePath = Some src ->
  (forall ref, ref ∈ todo -> ref ∈ preProcessFile src) ->
  (forall g, g ∈ enqueued (log st) -> Reach g) ->
  forall g, g ∈ enqueued (log st') -> Reach g.
Proof.
  revert fileContents st. induction todo as [|r todo IH];
    intros fileContents st Hrun Hfaith Hfile Hsrc Hrefs Hreach.
  - simpl in Hrun. run_step. now inversion Hrun; subst.
  - simpl in Hrun. run_step.
    destruct (rewriteImport options budget filePath r fileContents st)
      as [[c1| |] st1] eqn:Hone; try discriminate.
    pose proof (rewriteInOrder_log filePath todo c1 st1) as Hlog. rewrite Hrun in Hlog.
    simpl in Hlog.
    eapply IH; eauto.
    { intros ref Href. apply Hrefs. now right. }
    destruct (shouldSkipImport options (fileName r)) eqn:Hskip.
    { unfold rewriteImport in Hone. rewrite Hskip in Hone. run_step.
      now inversion Hone; subst. }
    destruct (rewriteImport_static _ _ _ _ _ _ Hone Hskip (faithful_prefix _ _ Hlog Hfaith))
      as (target & st0 & -> & Hgrow & Htarget).
    intros g Hg. destruct (grows_view _ _ Hgrow) as (_ & _ & Henq & _).
    unfold enqueue in Hg. destruct (truthy (in_queue st0 !! target)); simpl in Hg.
    + apply Hreach. now rewrite <- Henq.
    + rewrite enqueued_app, elem_of_app in Hg. destruct Hg as [Hg|Hg].
      * apply Hreach. now rewrite <- Henq.
      * simpl in Hg. apply list_elem_of_singleton in Hg as ->.
        apply (reach_import _ _ _ filePath); [exact Hfile|].
        exists src, r. repeat split; auto. apply Hrefs. now left.
Qed.

Lemma processFile_closed f rest st st' :
  closed options budget disk st -> queue st = f :: rest ->
  processFile options budget f (mkState (fs st) (in_queue st) rest (seenDir st) (log st))
  = (Ok tt, st') ->
  faithful disk (log st') ->
  closed options budget disk st'.
Proof.
  intros (Hs & Hreach & Hclosed) Hq Hrun Hfaith.
  set (st0 := mkState (fs st) (in_queue st) rest (seenDir st) (log st)) in *.
  assert (Hshift : shifted f st0).
  { destruct Hs as ((Hin & Hqueue & Hnd) & Hw). unfold shifted, st0. simpl.
    rewrite Hq in Hqueue. auto. }
  destruct (processFile_settles options budget f st0 Hshift) as [_ Hsettled].
  rewrite Hrun in Hsettled. specialize (Hsettled eq_refl). simpl in Hsettled.
  split; [exact Hsettled|].
  assert (Hf : Reach f).
  { apply Hreach. destruct Hs as ((_ & -> & _) & _). rewrite Hq.
    apply elem_of_app. right. now left. }
  rewrite processFile_run in Hrun.
  destruct (readFileSync (fs st0) f) as [src|] eqn:Hread; [|discriminate].
  set (st1 := with_log st0 [EvReadSource f (Some src)]) in *.
  destruct (rewriteInOrder options budget f (reverse (preProcessFile src)) src st1)
    as [[out| |] st2] eqn:Hloop; try discriminate.
  pose proof (write_log f out st2) as Hlog2. rewrite Hrun in Hlog2. simpl in Hlog2.
  pose proof (rewriteInOrder_log f (reverse (preProcessFile src)) src st1) as Hlog1.
  rewrite Hloop in Hlog1. simpl in Hlog1.
  assert (Hfaith2 : faithful disk (log st2)) by now apply (faithful_prefix _ _ Hlog2).
  assert (Hsrc : readFileSync disk f = Some src).
  { apply (faithful_prefix _ _ Hlog1) in Hfaith2. simpl in Hfaith2.
    apply faithful_app in Hfaith2 as [_ Hev]. now inversion Hev. }
  assert (Henq1 : enqueued (log st1) = enqueued (log st)).
  { simpl. rewrite enqueued_app. simpl. now rewrite app_nil_r. }
  assert (Hreach2 : forall g, g ∈ enqueued (log st2) -> Reach g).
  { eapply rewriteInOrder_reachable; eauto.
    - intros ref Href. now apply elem_of_reverse.
    - intros g Hg. apply Hreach. now rewrite <- Henq1. }
  assert (Htracked1 : tracked st1).
  { apply (working_after_read f (Some src) st0 Hshift). }
  assert (Hclosed2 : forall ref target,
             ref ∈ preProcessFile src ->
             shouldSkipImport options (fileName ref) = false ->
             targetOf f ref = Ok target -> target ∈ enqueued (log st2)).
  { intros ref target Href. eapply rewriteInOrder_closes; eauto.
    now apply elem_of_reverse. }
  rewrite write_run in Hrun.
  destruct (computeDestinationFilePath options budget f) as [dest| |]; try discriminate.
  pose proof (createDirectoryRecursive_grows (path.dirname dest) st2) as Hgrow.
  set (st3 := (createDirectoryRecursive (path.dirname dest) st2).2) in *.
  destruct (grows_view _ _ Hgrow) as (_ & _ & Henq3 & _ & Hw3).
  simpl in Hrun.
  destruct (writeFileSync (fs st3) dest out) as [disk'|]; [|discriminate].
  inversion Hrun; subst st'; clear Hrun. simpl.
  rewrite enqueued_app, sourcesWritten_app. simpl. rewrite app_nil_r, Henq3, Hw3.
  split; [exact Hreach2|].
  intros f' g Hf' Himports. apply elem_of_app in Hf' as [Hf'|Hf'].
  - assert (Hold : sourcesWritten (log st2) = sourcesWritten (log st)).
    { pose proof (preserves_rewriteInOrder options budget _ f
                    (reverse (preProcessFile src)) src
                    (stable_nothing_written (log st1)) st1) as Hnw.
      rewrite Hloop in Hnw. destruct Hnw as (evs2 & Hevs2 & Hw2).
      { exists []. now rewrite app_nil_r. }
      simpl in Hevs2. rewrite Hevs2, !sourcesWritten_app, Hw2. simpl.
      now rewrite !app_nil_r. }
    rewrite Hold in Hf'. specialize (Hclosed f' g Hf' Himports).
    apply (enqueued_prefix (log st)); [|exact Hclosed].
    etrans; [|exact Hlog1]. simpl. now apply prefix_app_r.
  - apply list_elem_of_singleton in Hf' as ->.
    destruct Himports as (text & ref & Htext & Href & Hskip & Htarget).
    rewrite Hsrc in Htext. inversion Htext; subst text. eauto.
Qed.

Lemma mainLoop_closed n st st' :
  mainLoop options budget n st = (Ok tt, st') ->
  faithful disk (log st') -> closed options budget disk st ->
  closed options budget disk st' /\ queue st' = [].
Proof.
  revert st. induction n as [|n IH]; intros st; simpl;
    destruct (queue st) as [|f rest] eqn:Hq; try discriminate;
    try (intros [= <-]; auto).
  run_step.
  destruct (processFile options budget f _) as [[[]| |] st1] eqn:Hone; try discriminate.
  intros Hrun Hfaith Hclosed.
  pose proof (mainLoop_log n st1) as Hlog. rewrite Hrun in Hlog. simpl in Hlog.
  apply (IH st1 Hrun Hfaith).
  eapply processFile_closed; eauto. now apply (faithful_prefix _ _ Hlog).
Qed.

Lemma enqueueEntryPoints_closed entries st :
  tracked st ->
  (forall entry, entry ∈ entries -> entry ∈ entryPoints options) ->
  (forall g, g ∈ enqueued (log st) -> Reach g) ->
  let st' := (enqueueEntryPoints options entries st).2 in
  (forall g, g ∈ enqueued (log st') -> Reach g)
  /\ (forall entry, entry ∈ entries ->
                    path.join [ESM_SRC options; entry] ∈ enqueued (log st'))
  /\ log st `prefix_of` log st'.
Proof.
  revert st. induction entries as [|e entries IH]; intros st Htracked Hsub Hreach.
  - simpl. split; [exact Hreach|]. split; [intros entry Hentry; inversion Hentry | reflexivity].
  - simpl. run_step.
    set (target := path.join [ESM_SRC options; e]).
    pose proof (tracked_enqueue st target Htracked) as Htracked1.
    pose proof (enqueue_truthy target st) as Hin.
    pose proof (enqueue_log target st) as Hlog.
    assert (Hreach1 : forall g, g ∈ enqueued (log (enqueue target st).2) -> Reach g).
    { intros g. unfold enqueue. destruct (truthy (in_queue st !! target)); simpl;
        intros Hg; [auto|].
      rewrite enqueued_app, elem_of_app in Hg. destruct Hg as [Hg|Hg]; [auto|].
      simpl in Hg. apply list_elem_of_singleton in Hg as ->.
      apply reach_entry. apply Hsub. now left. }
    destruct (enqueue target st) as [[[]| |] st1] eqn:Henq;
      try (unfold enqueue in Henq; destruct (truthy _); discriminate).
    simpl in *.
    destruct (IH st1 Htracked1 ltac:(intros x Hx; apply Hsub; now right) Hreach1)
      as (Hr & Hentries & Hlog').
    split; [exact Hr|]. split; [|etrans; eassumption].
    intros entry Hentry. apply elem_of_cons in Hentry as [->|Hentry]; [|auto].
    apply (enqueued_prefix _ _ _ Hlog'). now apply Htracked1.
Qed.

(** Whatever the outcome, only reachable files are enqueued. *)

Lemma rewriteImport_failure filePath ref fileContents st :
  match (rewriteImport options budget filePath ref fileContents st).1 with
  | Ok _ => True
  | _ => grows st (rewriteImport options budget filePath ref fileContents st).2
  end.
Proof.
  unfold rewriteImport.
  destruct (shouldSkipImport options (fileName ref)); [exact I|].
  destruct (Js.is_relative_specifier (fileName ref)).
  - run_step. unfold enqueue. now destruct (truthy _).
  - run_step.
    destruct (observer_resolveBare options budget (fileName ref) filePath st)
      as (r & evs & Hres & Hobs & _).
    rewrite Hres. pose proof (grows_observations st evs Hobs) as Hgrow.
    destruct r as [target| |]; simpl; try exact Hgrow.
    destruct (computeDestinationFilePath options budget filePath); simpl; try exact Hgrow.
    destruct (computeDestinationFilePath options budget target); simpl; try exact Hgrow.
    unfold enqueue. now destruct (truthy _).
Qed.

Lemma rewriteInOrder_sound filePath src todo fileContents st :
  let st' := (rewriteInOrder options budget filePath todo fileContents st).2 in
  faithful disk (log st') ->
  Reach filePath -> readFileSync disk filePath = Some src ->
  (forall ref, ref ∈ todo -> ref ∈ preProcessFile src) ->
  (forall g, g ∈ enqueued (log st) -> Reach g) ->
  forall g, g ∈ enqueued (log st') -> Reach g.
Proof.
  revert fileContents st. induction todo as [|r todo IH];
    intros fileContents st st' Hfaith Hfile Hsrc Hrefs Hreach; [exact Hreach|].
  subst st'. simpl in *. run_step.
  pose proof (rewriteImport_failure filePath r fileContents st) as Hfail.
  destruct (rewriteImport options budget filePath r fileContents st)
    as [[c1| |] st1] eqn:Hone; simpl in *.
  - pose proof (rewriteInOrder_log filePath todo c1 st1) as Hlog.
    apply (IH c1 st1); auto.
    { intros ref Href. apply Hrefs. now right. }
    apply (rewriteInOrder_reachable filePath src [r] fileContents st c1 st1); auto.
    + simpl. run_step. now rewrite Hone.
    + now apply (faithful_prefix _ _ Hlog).
    + intros ref Href. apply Hrefs. apply list_elem_of_singleton in Href as ->. now left.
  - destruct (grows_view _ _ Hfail) as (_ & _ & -> & _). exact Hreach.
  - destruct (grows_view _ _ Hfail) as (_ & _ & -> & _). exact Hreach.
Qed.

Lemma write_enqueued filePath fileContents st :
  enqueued (log (write options budget filePath fileContents st).2) = enqueued (log st).
Proof.
  rewrite write_run.
  destruct (computeDestinationFilePath options budget filePath) as [dest| |];
    try reflexivity.
  destruct (grows_view _ _ (createDirectoryRecursive_grows (path.dirname dest) st))
    as (_ & _ & Henq & _).
  simpl. destruct (writeFileSync _ dest fileContents); simpl;
    rewrite enqueued_app, Henq; simpl; now rewrite app_nil_r.
Qed.

Lemma processFile_sound f st :
  let st' := (processFile options budget f st).2 in
  faithful disk (log st') -> Reach f ->
  (forall g, g ∈ enqueued (log st) -> Reach g) ->
  forall g, g ∈ enqueued (log st') -> Reach g.
Proof.
  intros st'. subst st'. rewrite processFile_run. intros Hfaith Hf Hreach.
  assert (Hread : forall answer g,
             g ∈ enqueued (log (with_log st [EvReadSource f answer])) -> Reach g).
  { intros answer g. simpl. rewrite enqueued_app. simpl. rewrite app_nil_r. apply Hreach. }
  destruct (readFileSync (fs st) f) as [src|] eqn:Hfs; [|apply Hread].
  set (st1 := with_log st [EvReadSource f (Some src)]) in *.
  pose proof (rewriteInOrder_sound f src (reverse (preProcessFile src)) src st1) as Hloop.
  pose proof (rewriteInOrder_log f (reverse (preProcessFile src)) src st1) as Hlog1.
  destruct (rewriteInOrder options budget f (reverse (preProcessFile src)) src st1)
    as [r2 st2]. simpl in Hloop, Hlog1.
  assert (Hst2 : faithful disk (log st2) -> forall g, g ∈ enqueued (log st2) -> Reach g).
  { intros Hfaith2. apply Hloop; [exact Hfaith2 | exact Hf | | | apply Hread].
    - apply (faithful_prefix _ _ Hlog1) in Hfaith2. simpl in Hfaith2.
      apply faithful_app in Hfaith2 as [_ Hev]. now inversion Hev.
    - intros ref Href. now apply elem_of_reverse. }
  destruct r2 as [out| |]; try (now apply Hst2).
  intros g. rewrite write_enqueued. apply Hst2.
  now apply (faithful_prefix _ _ (write_log f out st2)).
Qed.

Lemma mainLoop_sound n st :
  settled st ->
  faithful disk (log (mainLoop options budget n st).2) ->
  (forall g, g ∈ enqueued (log st) -> Reach g) ->
  forall g, g ∈ enqueued (log (mainLoop options budget n st).2) -> Reach g.
Proof.
  revert st. induction n as [|n IH]; intros st Hs; simpl;
    destruct (queue st) as [|f rest] eqn:Hq; simpl; auto.
  run_step.
  set (st0 := mkState (fs st) (in_queue st) rest (seenDir st) (log st)).
  assert (Hshift : shifted f st0).
  { destruct Hs as ((Hin & Hqueue & Hnd) & Hw). unfold shifted, st0. simpl.
    rewrite Hq in Hqueue. auto. }
  destruct (processFile_settles options budget f st0 Hshift) as [_ Hsettled].
  pose proof (processFile_sound f st0) as Hone.
  destruct (processFile options budget f st0) as [[[]| |] st1] eqn:Hrun; simpl in *;
    intros Hfaith Hreach;
    assert (Hf : Reach f)
      by (apply Hreach; destruct Hs as ((_ & -> & _) & _); rewrite Hq;
          apply elem_of_app; right; now left);
    try (now apply Hone).
  pose proof (mainLoop_log n st1) as Hlog.
  apply IH; auto. apply Hone; auto. now apply (faithful_prefix _ _ Hlog).
Qed.

End Closure.

(** ** The main loop ends

    Each iteration reads one more file, and a file is enqueued once: a
    run whose main loop is cut off after [n] iterations has enqueued
    more than [n] files. *)

Section Termination.
Context `{Host}.
Variable options : IOptions.
Variable budget : nat.

Lemma inner_ret {A} (a : A) : inner (mret a).
Proof. intros st. discriminate. Qed.

Lemma inner_throw {A} e : inner (@throw _ A e).
Proof. intros st. discriminate. Qed.

Lemma inner_lift {A} (r : Res A) : r <> Diverge MainLoop -> inner (lift r).
Proof. intros Hr st. exact Hr. Qed.

Lemma inner_bind {A B} (m : M A) (k : A -> M B) :
  inner m -> (forall a, inner (k a)) -> inner (m ≫= k).
Proof.
  intros Hm Hk st. specialize (Hm st). run_step.
  destruct (m st) as [[a| |loop] st1]; simpl in *;
    [apply Hk | discriminate | intros [= ->]; now apply Hm].
Qed.

Lemma generatePaths_loop_inner n repoRoot module sourceDir result :
  generatePaths_loop n repoRoot module sourceDir result <> Diverge MainLoop.
Proof.
  revert sourceDir result. induction n as [|n IH]; intros sourceDir result; simpl;
    destruct (_ >=? _); try discriminate. apply IH.
Qed.

Lemma replace_while_inner n filePath test replacement :
  replace_while n filePath test replacement <> Diverge MainLoop.
Proof.
  revert filePath. induction n as [|n IH]; intros filePath; simpl;
    destruct (_ >=? _); try discriminate. apply IH.
Qed.

Lemma simplify_loop_inner keys filePath :
  simplify_loop options budget keys filePath <> Diverge MainLoop.
Proof.
  revert filePath. induction keys as [|key keys IH]; intros filePath; simpl;
    [discriminate|].
  pose proof (replace_while_inner budget filePath (Js.replace_backslashes key)
                (property_text (destinationFolderSimplification options)
                   (Js.replace_backslashes key))) as Hw.
  destruct (replace_while budget filePath _ _) as [p| |loop];
    [apply IH | discriminate | exact Hw].
Qed.

Lemma computeDestinationFilePath_inner filePath :
  computeDestinationFilePath options budget filePath <> Diverge MainLoop.
Proof.
  unfold computeDestinationFilePath, applyDestinationFolderSimplifications.
  destruct (_ =? 0); [discriminate|].
  match goal with
  | |- context [simplify_loop options budget ?keys ?p] =>
      pose proof (simplify_loop_inner keys p) as Hs;
      destruct (simplify_loop options budget keys p)
  end; [discriminate | discriminate | exact Hs].
Qed.

Lemma inner_existsSync p : inner (fs_existsSync p).
Proof. intros st. unfold fs_existsSync. run_step. simpl. discriminate. Qed.

Lemma inner_readManifest p : inner (fs_readManifest p).
Proof.
  intros st. unfold fs_readManifest. run_step. simpl.
  destruct (readFileSync (fs st) p); discriminate.
Qed.

Lemma inner_findNodeModule_loop module sourceFilePath modulePaths :
  inner (findNodeModule_loop module sourceFilePath modulePaths).
Proof.
  induction modulePaths as [|c more IH]; simpl.
  - apply inner_throw.
  - apply inner_bind; [apply inner_existsSync|].
    intros [|]; [apply inner_ret | exact IH].
Qed.

Lemma inner_findNodeModuleImport n repoRoot module sourceFilePath :
  inner (findNodeModuleImport n repoRoot module sourceFilePath).
Proof.
  unfold findNodeModuleImport, findNodeModule.
  apply inner_bind.
  { apply inner_bind; [apply inner_lift, generatePaths_loop_inner|].
    intros l. apply inner_findNodeModule_loop. }
  intros modulePath.
  apply inner_bind; [apply inner_existsSync|]. intros [|]; simpl.
  - apply inner_bind; [apply inner_readManifest|]. intros text.
    destruct (manifestModule text); try apply inner_throw.
    apply inner_bind; [apply inner_existsSync|].
    intros [|]; simpl; [apply inner_ret | apply inner_throw].
  - apply inner_throw.
Qed.

Lemma inner_resolveBare importText filePath :
  inner (resolveBare options budget importText filePath).
Proof.
  unfold resolveBare. destruct (lookupAlias options importText) as [aliased| |].
  - case_bool_decide; [apply inner_findNodeModuleImport | apply inner_ret].
  - apply inner_bind; [apply inner_lift, computeDestinationFilePath_inner|].
    intros _. apply inner_throw.
  - apply inner_findNodeModuleImport.
Qed.

Lemma inner_enqueue f : inner (enqueue f).
Proof. intros st. unfold enqueue. destruct (truthy _); discriminate. Qed.

Lemma inner_rewriteImport filePath ref fileContents :
  inner (rewriteImport options budget filePath ref fileContents).
Proof.
  unfold rewriteImport.
  destruct (shouldSkipImport options (fileName ref)); [apply inner_ret|].
  destruct (Js.is_relative_specifier (fileName ref)).
  - apply inner_bind; [apply inner_enqueue|]. intros _. apply inner_ret.
  - apply inner_bind; [apply inner_resolveBare|]. intros importedFilename.
    apply inner_bind; [apply inner_lift, computeDestinationFilePath_inner|].
    intros myDestinationPath.
    apply inner_bind; [apply inner_lift, computeDestinationFilePath_inner|].
    intros importDestinationPath.
    apply inner_bind; [apply inner_enqueue|]. intros _. apply inner_ret.
Qed.

Lemma inner_rewriteInOrder filePath todo fileContents :
  inner (rewriteInOrder options budget filePath todo fileContents).
Proof.
  revert fileContents. induction todo as [|ref todo IH]; intros fileContents.
  - apply inner_ret.
  - simpl. apply inner_bind; [apply inner_rewriteImport | exact IH].
Qed.

Lemma inner_write filePath fileContents :
  inner (write options budget filePath fileContents).
Proof.
  intros st. rewrite write_run.
  pose proof (computeDestinationFilePath_inner filePath) as Hd.
  destruct (computeDestinationFilePath options budget filePath) as [dest| |];
    [|discriminate | simpl; intros [= ->]; now apply Hd].
  simpl. destruct (writeFileSync _ dest fileContents); discriminate.
Qed.

Lemma inner_processFile filePath : inner (processFile options budget filePath).
Proof.
  intros st. rewrite processFile_run.
  destruct (readFileSync (fs st) filePath) as [src|]; [|discriminate].
  pose proof (inner_rewriteInOrder filePath (reverse (preProcessFile src)) src
                (with_log st [EvReadSource filePath (Some src)])) as Hr.
  destruct (rewriteInOrder options budget filePath (reverse (preProcessFile src)) src _)
    as [[out| |loop] st2]; simpl in Hr;
    [|discriminate | simpl; intros [= ->]; now apply Hr].
  apply inner_write.
Qed.

Lemma stable_read_count k :
  stable (fun st => (k <= length (sourcesRead (log st)))%nat).
Proof.
  apply stable_intro.
  - intros st st' [Hview _] Hk. unfold view in Hview. inversion Hview. congruence.
  - intros st g Hk. destruct (enqueue_written st g) as [_ ->]. exact Hk.
Qed.

(** One iteration reads one more file. *)
Lemma processFile_reads f st :
  (S (length (sourcesRead (log st)))
   <= length (sourcesRead (log (processFile options budget f st).2)))%nat.
Proof.
  rewrite processFile_run.
  set (k := S (length (sourcesRead (log st)))).
  assert (Hread : forall answer,
             (k <= length (sourcesRead (log (with_log st [EvReadSource f answer]))))%nat).
  { intros answer. unfold with_log. simpl. rewrite sourcesRead_app, length_app.
    simpl. unfold k. lia. }
  destruct (readFileSync (fs st) f) as [src|]; [|apply Hread].
  pose proof (preserves_rewriteInOrder options budget _ f
                (reverse (preProcessFile src)) src (stable_read_count k) _
                (Hread (Some src))) as H2.
  destruct (rewriteInOrder options budget f (reverse (preProcessFile src)) src _)
    as [[out| |] st2]; simpl in H2; try exact H2.
  rewrite write_run.
  destruct (computeDestinationFilePath options budget f) as [dest| |]; try exact H2.
  pose proof (preserves_createDirectoryRecursive _ (path.dirname dest)
                (stable_read_count k) st2 H2) as H3.
  simpl.
  destruct (writeFileSync _ dest out); simpl;
    rewrite sourcesRead_app; simpl; now rewrite app_nil_r.
Qed.

(** A main loop that is cut off after [n] iterations has read [n] more
    files and has another one in its queue. *)
Lemma mainLoop_cut_off n st :
  settled st ->
  (mainLoop options budget n st).1 = Diverge MainLoop ->
  (n + length (sourcesRead (log st))
   < length (enqueued (log (mainLoop options budget n st).2)))%nat.
Proof.
  revert st. induction n as [|n IH]; intros st Hs; simpl;
    destruct (queue st) as [|f rest] eqn:Hq; simpl; try discriminate.
  - intros _. destruct Hs as ((_ & Hqueue & _) & _).
    rewrite Hqueue, Hq, length_app. simpl. lia.
  - run_step.
    set (st0 := mkState (fs st) (in_queue st) rest (seenDir st) (log st)).
    assert (Hshift : shifted f st0).
    { destruct Hs as ((Hin & Hqueue & Hnd) & Hw). unfold shifted, st0. simpl.
      rewrite Hq in Hqueue. auto. }
    destruct (processFile_settles options budget f _ Hshift) as [_ Hok].
    pose proof (processFile_reads f st0) as Hone.
    pose proof (inner_processFile f st0) as Hin.
    destruct (processFile options budget f st0) as [[[]| |loop] st1]; simpl in *;
      try discriminate.
    + intros Hcut. specialize (IH st1 (Hok eq_refl) Hcut). lia.
    + intros Hcut. contradiction.
Qed.

End Termination.

Lemma shouldSkipImport_spec (options : IOptions) (importText : string) :
  shouldSkipImport options importText = true
  <-> exists skip rest, skip ∈ resolveSkip options /\ importText = skip +:+ rest.
Proof.
  unfold shouldSkipImport. rewrite existsb_exists. split.
  - intros (skip & Hin & Hskip). rewrite indexOf_zero in Hskip.
    apply starts_with_spec in Hskip as [rest ->].
    exists skip, rest. split; [now apply list_elem_of_In | reflexivity].
  - intros (skip & rest & Hin & ->). exists skip. split; [now apply list_elem_of_In|].
    rewrite indexOf_zero. apply starts_with_spec. now exists rest.
Qed.

Lemma pair_of_outcome {A B} (p : A * B) (a : A) : p.1 = a -> p = (a, p.2).
Proof. destruct p. simpl. now intros ->. Defined.

Lemma run_closure `{Host} (n : nat) (after : IOptions) (disk : FS) (st : State) :
  (enqueueEntryPoints after (entryPoints after);; mainLoop after n n)
    (initialState after disk) = (Ok tt, st) ->
  faithful disk (log st) ->
  (forall f, f ∈ sourcesRead (log st) <-> Reachable after n disk f)
  /\ sourcesWritten (log st) = sourcesRead (log st).
Proof.
  intros Hrun Hfaith. run_step.
  pose proof (enqueueEntryPoints_ok after (entryPoints after) (initialState after disk))
    as Hok.
  pose proof (preserves_enqueueEntryPoints after settled (entryPoints after)
                stable_settled _ (settled_initialState after disk)) as Hsettled.
  pose proof (preserves_enqueueEntryPoints after (nothing_written [])
                (entryPoints after) (stable_nothing_written []) (initialState after disk))
    as Hnw.
  destruct (enqueueEntryPoints_closed after n disk (entryPoints after)
              (initialState after disk)) as (Hreach0 & Hentries & _).
  { apply settled_initialState. }
  { auto. }
  { intros g Hg. inversion Hg. }
  destruct (enqueueEntryPoints after (entryPoints after) (initialState after disk))
    as [r st0]. simpl in Hok, Hsettled, Hnw, Hreach0, Hentries. subst r.
  destruct Hnw as (evs & Hevs & Hw0); [now exists []|]. simpl in Hevs.
  assert (Hclosed0 : closed after n disk st0).
  { split; [exact Hsettled|]. split; [exact Hreach0|].
    intros f g Hf. rewrite Hevs, Hw0 in Hf. inversion Hf. }
  pose proof (mainLoop_log after n n st0) as Hlog. rewrite Hrun in Hlog. simpl in Hlog.
  destruct (mainLoop_closed after n disk n st0 st Hrun Hfaith Hclosed0)
    as ((((Hin & Hq & Hnd) & Hw) & Hreach & Hclosed) & Hempty).
  rewrite Hempty, app_nil_r in Hq.
  split; [|exact Hw].
  intros f. split.
  - intros Hf. apply Hreach. now rewrite Hq.
  - intros Hf. induction Hf as [entry Hentry | f g _ IH Himports].
    + rewrite <- Hq. apply (enqueued_prefix _ _ _ Hlog). now apply Hentries.
    + rewrite <- Hq. apply (Hclosed f g); [|exact Himports]. now rewrite Hw.
Qed.

Lemma run_sound `{Host} (n : nat) (after : IOptions) (disk : FS) :
  let st := ((enqueueEntryPoints after (entryPoints after);; mainLoop after n n)
               (initialState after disk)).2 in
  faithful disk (log st) ->
  (forall f, f ∈ sourcesRead (log st) -> Reachable after n disk f)
  /\ (forall f, f ∈ sourcesWritten (log st) -> Reachable after n disk f).
Proof.
  run_step.
  pose proof (enqueueEntryPoints_ok after (entryPoints after) (initialState after disk))
    as Hok.
  pose proof (preserves_enqueueEntryPoints after settled (entryPoints after)
                stable_settled _ (settled_initialState after disk)) as Hsettled.
  destruct (enqueueEntryPoints_closed after n disk (entryPoints after)
              (initialState after disk)) as (Hreach0 & _ & _).
  { apply settled_initialState. }
  { auto. }
  { intros g Hg. inversion Hg. }
  destruct (enqueueEntryPoints after (entryPoints after) (initialState after disk))
    as [r st0]. simpl in Hok, Hsettled, Hreach0. subst r. simpl.
  intros Hfaith.
  pose proof (mainLoop_sound after n disk n st0 Hsettled Hfaith Hreach0) as Hreach.
  destruct (mainLoop_settles after n n st0 Hsettled) as [((_ & Hq & _) & Hw) _].
  assert (Hread : forall f, f ∈ sourcesRead (log (mainLoop after n n st0).2) ->
                            Reachable after n disk f).
  { intros f Hf. apply Hreach. rewrite Hq. apply elem_of_app. now left. }
  split; [exact Hread|].
  intros f Hf. apply Hread. destruct Hw as [<-|[g ->]]; [exact Hf|].
  apply elem_of_app. now left.
Qed.

Lemma run_terminates `{Host} (n : nat) (after : IOptions) (disk : FS)
  (files : list string) :
  let run := (enqueueEntryPoints after (entryPoints after);; mainLoop after n n)
               (initialState after disk) in
  faithful disk (log run.2) ->
  (forall f, Reachable after n disk f -> f ∈ files) ->
  (length files <= n)%nat ->
  run.1 <> Diverge MainLoop.
Proof.
  run_step.
  pose proof (enqueueEntryPoints_ok after (entryPoints after) (initialState after disk))
    as Hok.
  pose proof (preserves_enqueueEntryPoints after settled (entryPoints after)
                stable_settled _ (settled_initialState after disk)) as Hsettled.
  destruct (enqueueEntryPoints_closed after n disk (entryPoints after)
              (initialState after disk)) as (Hreach0 & _ & _).
  { apply settled_initialState. }
  { auto. }
  { intros g Hg. inversion Hg. }
  destruct (enqueueEntryPoints after (entryPoints after) (initialState after disk))
    as [r st0]. simpl in Hok, Hsettled, Hreach0. subst r. simpl.
  intros Hfaith Hfiles Hlen Hcut.
  pose proof (mainLoop_sound after n disk n st0 Hsettled Hfaith Hreach0) as Hreach.
  destruct (mainLoop_settles after n n st0 Hsettled) as [((_ & _ & Hnd) & _) _].
  pose proof (mainLoop_cut_off after n n st0 Hsettled Hcut) as Hmany.
  assert (Hfew : (length (enqueued (log (mainLoop after n n st0).2)) <= length files)%nat).
  { apply submseteq_length, NoDup_submseteq; [exact Hnd|].
    intros f Hf. apply Hfiles, Hreach, Hf. }
  lia.
Qed.

(** C1 (amended): in a run of [packageESM] in which the file system
    answered as the initial disk does, that is, in which nothing the run
    wrote or created changed an answer it received later, every file
    read or written is reachable on that disk from the entry points
    through imports that are not skipped; when the run completes, every
    reachable file has been read, and the files written are the files
    read. The main loop ends: when the reachable files are among
    [files], a bound of [length files] iterations is not used up, whether
    the imports form cycles or not. A specifier that starts with a skip
    prefix leaves the run as it is: it is not resolved, nothing is
    enqueued and nothing is read for it. *)
Theorem reachability_closure `{Host} (n : nat) (options : IOptions) (disk : FS) :
  let outcome := (packageESM n options disk).1.1 in
  let st := (packageESM n options disk).1.2 in
  let after := (packageESM n options disk).2 in
  faithful disk (log st) ->
  (forall f, f ∈ sourcesRead (log st) -> Reachable after n disk f)
  /\ (forall f, f ∈ sourcesWritten (log st) -> Reachable after n disk f)
  /\ (outcome = Ok tt ->
      (forall f, Reachable after n disk f -> f ∈ sourcesRead (log st))
      /\ sourcesWritten (log st) = sourcesRead (log st))
  /\ (forall files : list string,
         (forall f, Reachable after n disk f -> f ∈ files) ->
         (length files <= n)%nat ->
         outcome <> Diverge MainLoop)
  /\ (forall filePath skip rest p e fileContents st0,
         skip ∈ resolveSkip after ->
         rewriteImport after n filePath (mkRef (skip +:+ rest) p e) fileContents st0
         = (Ok fileContents, st0)).
Proof.
  change (packageESM n options disk).1
    with ((enqueueEntryPoints (normalizeRepoRoot options)
             (entryPoints (normalizeRepoRoot options));;
           mainLoop (normalizeRepoRoot options) n n)
            (initialState (normalizeRepoRoot options) disk)).
  change (packageESM n options disk).2 with (normalizeRepoRoot options).
  set (after := normalizeRepoRoot options). cbv zeta. intros Hfaith.
  destruct (run_sound n after disk Hfaith) as [Hread Hwritten].
  split; [exact Hread|]. split; [exact Hwritten|]. split.
  - intros Hok.
    destruct (run_closure n after disk _ (pair_of_outcome _ _ Hok) Hfaith) as [Hreach Hw].
    split; [|exact Hw]. intros f Hf. now apply Hreach.
  - split; [intros files; exact (run_terminates n after disk files Hfaith)|].
    intros filePath skip rest p e fileContents st1 Hskip.
    unfold rewriteImport. simpl.
    assert (Hs : shouldSkipImport after (skip +:+ rest) = true).
    { apply shouldSkipImport_spec. now exists skip, rest. }
    now rewrite Hs.
Qed.

(** ** What a run writes *)

Section Outputs.
Context `{Host}.
Variable options : IOptions.
Variable budget : nat.

Lemma no_write_event evs f dest out :
  sourcesWritten evs = [] -> EvWrite f dest out ∉ evs.
Proof.
  induction evs as [|e evs IH]; intros Hw Hin; [inversion Hin|].
  apply elem_of_cons in Hin as [<-|Hin]; [discriminate|].
  apply IH; [|exact Hin]. destruct e; simpl in Hw; auto; discriminate.
Qed.

Lemma rewritten_source_prefix l l' f dest out :
  l `prefix_of` l' ->
  rewritten_source options budget l f dest out ->
  rewritten_source options budget l' f dest out.
Proof.
  intros [rest ->] (src & Hread & Hdest & Hedits & Hrel).
  exists src. split; [apply elem_of_app; now left|]. split; [exact Hdest|].
  split; [exact Hedits|]. intros ref Href Hskip Hr.
  rewrite enqueued_app. apply elem_of_app. left. now apply Hrel.
Qed.

Lemma processFile_writes f st :
  shifted f st ->
  forall g dest out,
    EvWrite g dest out ∈ log (processFile options budget f st).2 ->
    EvWrite g dest out ∈ log st
    \/ rewritten_source options budget (log (processFile options budget f st).2) g dest out.
Proof.
  intros Hshift g dest out. rewrite processFile_run.
  pose proof (working_after_read f (readFileSync (fs st) f) st Hshift) as [Htracked1 _].
  destruct (readFileSync (fs st) f) as [src|] eqn:Hsrc.
  2:{ simpl. rewrite elem_of_app, list_elem_of_singleton. intros [?|?]; [now left|discriminate]. }
  set (st1 := with_log st [EvReadSource f (Some src)]) in *.
  pose proof (preserves_rewriteInOrder options budget _ f (reverse (preProcessFile src)) src
                (stable_nothing_written (log st1)) st1) as Hnw.
  pose proof (preserves_rewriteInOrder options budget _ f (reverse (preProcessFile src)) src
                stable_tracked st1 Htracked1) as Htracked2.
  destruct (rewriteInOrder options budget f (reverse (preProcessFile src)) src st1)
    as [r2 st2] eqn:Hloop. simpl in Hnw, Htracked2.
  destruct Hnw as (evs2 & Hevs2 & Hw2); [exists []; now rewrite app_nil_r|].
  assert (Hquiet : EvWrite g dest out ∈ log st2 -> EvWrite g dest out ∈ log st).
  { rewrite Hevs2. simpl. rewrite !elem_of_app, list_elem_of_singleton.
    intros [[?|?]|Hin]; [assumption | discriminate |].
    now apply no_write_event in Hin. }
  destruct r2 as [text| |]; try (intros Hin; left; now apply Hquiet).
  rewrite write_run.
  destruct (computeDestinationFilePath options budget f) as [final| |] eqn:Hfinal;
    try (intros Hin; left; now apply Hquiet).
  pose proof (createDirectoryRecursive_grows (path.dirname final) st2) as Hgrow.
  set (st3 := (createDirectoryRecursive (path.dirname final) st2).2) in *.
  destruct (grows_events _ _ Hgrow) as (evs3 & Hevs3 & _ & _ & Hw3).
  assert (Hgen : EvWrite g dest out ∈ log st3 ++ [EvWrite f final text] ->
                 EvWrite g dest out ∈ log st
                 \/ rewritten_source options budget (log st3 ++ [EvWrite f final text])
                      g dest out).
  { rewrite elem_of_app, list_elem_of_singleton. intros [Hin|Heq].
    - left. apply Hquiet. rewrite Hevs3 in Hin. apply elem_of_app in Hin as [?|Hin];
        [assumption | now apply no_write_event in Hin].
    - right. inversion Heq; subst g dest out. exists src.
      assert (Hpre : log st2 `prefix_of` log st3 ++ [EvWrite f final text]).
      { rewrite Hevs3, <- app_assoc. now apply prefix_app_r. }
      split; [|split; [exact Hfinal|split]].
      + rewrite Hevs3, Hevs2. simpl. rewrite !elem_of_app, list_elem_of_singleton. auto.
      + intros [Horder Hin].
        destruct (rewriteInOrder_spliced options budget f src (preProcessFile src) 0
                    st1 text st2 Horder) as (edits & ? & ? & ->); auto.
        { split; [lia|]. unfold Js.length. lia. }
        exists edits. repeat split; auto.
        rewrite substring_prefix by (unfold Js.length; lia). reflexivity.
      + intros ref Href Hskip Hrel. apply (enqueued_prefix _ _ _ Hpre).
        apply Htracked2. eapply rewriteInOrder_enqueues_relative; eauto.
        now apply elem_of_reverse. }
  simpl. destruct (writeFileSync (fs st3) final text); simpl; exact Hgen.
Qed.

Lemma mainLoop_writes n st :
  settled st -> writes_rewritten options budget st ->
  writes_rewritten options budget (mainLoop options budget n st).2.
Proof.
  revert st. induction n as [|n IH]; intros st Hs Hw; simpl;
    destruct (queue st) as [|f rest] eqn:Hq; simpl; try exact Hw.
  run_step.
  set (st0 := mkState (fs st) (in_queue st) rest (seenDir st) (log st)).
  assert (Hshift : shifted f st0).
  { destruct Hs as ((Hin & Hqueue & Hnd) & Hwr). unfold shifted, st0. simpl.
    rewrite Hq in Hqueue. auto. }
  pose proof (processFile_writes f st0 Hshift) as Hone.
  pose proof (processFile_log options budget f st0) as Hlog.
  destruct (processFile_settles options budget f st0 Hshift) as [_ Hsettled].
  assert (Hw1 : writes_rewritten options budget (processFile options budget f st0).2).
  { intros g dest out Hin. destruct (Hone g dest out Hin) as [Hold|Hnew]; [|exact Hnew].
    apply (rewritten_source_prefix (log st0)); [exact Hlog|]. now apply Hw. }
  destruct (processFile options budget f st0) as [[[]| |] st1]; simpl in *; try exact Hw1.
  apply IH; auto.
Qed.

End Outputs.

(** C4 (amended): the text a run writes for a file is the text it read
    from the source file, which is the source decoded as UTF-8, with the
    specifier of each bare, non-skipped reference replaced by the
    computed relative specifier and every other character as it was; in
    particular a relative specifier stays as it is, and the file it
    names has been enqueued. The file is written at the destination of
    its source. *)
Theorem every_output_is_its_source_rewritten `{Host} (n : nat) (options : IOptions)
  (disk : FS) (f dest out : string) :
  let st := (packageESM n options disk).1.2 in
  let after := (packageESM n options disk).2 in
  EvWrite f dest out ∈ log st ->
  exists src,
    EvReadSource f (Some src) ∈ log st
    /\ computeDestinationFilePath after n f = Ok dest
    /\ (wellFormed src (preProcessFile src) ->
        exists edits,
          edits.*1 = preProcessFile src
          /\ Forall (decided after n f) edits
          /\ out = spliced src 0 edits)
    /\ (forall ref,
           ref ∈ preProcessFile src ->
           shouldSkipImport after (fileName ref) = false ->
           Js.is_relative_specifier (fileName ref) = true ->
           path.join [path.dirname f; fileName ref] +:+ ".js" ∈ enqueued (log st)).
Proof.
  change (packageESM n options disk).1
    with ((enqueueEntryPoints (normalizeRepoRoot options)
             (entryPoints (normalizeRepoRoot options));;
           mainLoop (normalizeRepoRoot options) n n)
            (initialState (normalizeRepoRoot options) disk)).
  change (packageESM n options disk).2 with (normalizeRepoRoot options).
  set (after := normalizeRepoRoot options). cbv zeta.
  pose proof (preserves_enqueueEntryPoints after settled (entryPoints after)
                stable_settled _ (settled_initialState after disk)) as Hs.
  pose proof (preserves_enqueueEntryPoints after (nothing_written [])
                (entryPoints after) (stable_nothing_written []) (initialState after disk))
    as Hnw.
  pose proof (enqueueEntryPoints_ok after (entryPoints after)
                (initialState after disk)) as Hok.
  run_step.
  destruct (enqueueEntryPoints after (entryPoints after) _) as [r st0].
  simpl in Hs, Hok, Hnw. subst r.
  destruct Hnw as (evs & Hevs & Hw0); [now exists []|]. simpl in Hevs.
  assert (Hstart : writes_rewritten after n st0).
  { intros g d o Hin. rewrite Hevs in Hin. now apply no_write_event in Hin. }
  exact (mainLoop_writes after n n st0 Hs Hstart f dest out).
Qed.

(** ** Destination paths *)

Section Destination.
Context `{Host}.
Variable options : IOptions.
Variable budget : nat.

Lemma computeDestinationFilePath_in_source filePath :
  Js.starts_with (ESM_SRC options) filePath = true ->
  computeDestinationFilePath options budget filePath
  = Ok (path.join [ESM_DEST options; path.relative cwd (ESM_SRC options) filePath]).
Proof. intros Hsrc. unfold computeDestinationFilePath. now rewrite indexOf_zero, Hsrc. Qed.

Lemma replace_while_no_occurrence n filePath test replacement out :
  replace_while n filePath test replacement = Ok out -> Js.indexOf out test < 0.
Proof.
  revert filePath. induction n as [|n IH]; intros filePath; simpl;
    destruct (Js.indexOf filePath test >=? 0) eqn:Hge; try discriminate.
  - intros [= <-]. lia.
  - apply IH.
  - intros [= <-]. lia.
Qed.

Lemma computeDestinationFilePath_outside_source filePath :
  Js.starts_with (ESM_SRC options) filePath = false ->
  computeDestinationFilePath options budget filePath
  = match applyDestinationFolderSimplifications options budget
            (path.join [ESM_DEST options;
                        path.relative cwd (repoRoot options) filePath]) with
    | Ok p => Ok (path.normalize p)
    | Throw e => Throw e
    | Diverge loop => Diverge loop
    end.
Proof. intros Hsrc. unfold computeDestinationFilePath. now rewrite indexOf_zero, Hsrc. Qed.

(** A key without backslashes is its own pattern, and the replacement
    found for it is the one of its rule. *)
Lemma replace_backslashes_without_backslash key :
  Forall (fun c => c <> Js.backslash) (Js.chars key) -> Js.replace_backslashes key = key.
Proof.
  induction key as [|c key IH]; intros Hkey; [reflexivity|].
  simpl in *. inversion Hkey as [|? ? Hc Hrest]; subst.
  rewrite (IH Hrest). now destruct (Ascii.eqb_spec c Js.backslash).
Qed.

Lemma property_text_of_rule (rules : list (string * string)) key replacement :
  NoDup rules.*1 -> (key, replacement) ∈ rules -> property_text rules key = replacement.
Proof.
  unfold property_text. induction rules as [|[k v] rules IH]; intros Hnd Hin;
    [inversion Hin|].
  rewrite fmap_cons in Hnd. apply NoDup_cons in Hnd as [Hk Hnd]. simpl in *.
  apply elem_of_cons in Hin as [Heq|Hin].
  - inversion Heq; subst. now rewrite bool_decide_eq_true_2.
  - rewrite bool_decide_eq_false_2; [now apply IH|].
    intros ->. apply Hk. apply list_elem_of_fmap. now exists (key, replacement).
Qed.

End Destination.

Section Examples.
#[local] Existing Instance ExampleHost.host.

Example scanner_on_example_source :
  preProcessFile example_source = [ref_b; ref_lib; ref_vscode; ref_dep].
Proof. reflexivity. Qed.

Lemma wellFormed_example_source :
  wellFormed example_source [ref_b; ref_lib; ref_vscode; ref_dep].
Proof.
  split.
  - simpl. lia.
  - repeat constructor; vm_compute; discriminate.
Defined.

(** C8: a simplification rule whose key is written with backslashes
    matches, but its replacement is looked up under the key with slashes,
    which the object does not have: the text [undefined] is put in the
    path. The same rule written with slashes gives the intended path. *)
Theorem simplification_key_with_backslashes :
  property (destinationFolderSimplification backslash_key_options)
    "node_modules\dep\dist" = Some "dep"
  /\ computeDestinationFilePath backslash_key_options 20
       "/repo/node_modules/dep/dist/index.js" = Ok "/repo/out/undefined/index.js"
  /\ computeDestinationFilePath slash_key_options 20
       "/repo/node_modules/dep/dist/index.js" = Ok "/repo/out/dep/index.js".
Proof. repeat split; reflexivity. Qed.

(** A file in a sibling directory whose name starts like the source
    directory counts as a source file: its destination is computed
    relative to the source directory and is the file itself. *)
Example sibling_of_source_directory :
  computeDestinationFilePath engine_options 20 "/repo/src2/x.js" = Ok "/repo/src2/x.js".
Proof. reflexivity. Qed.

Lemma references_rewritten_last_first_witness :
  wellFormed example_source ([ref_b] ++ ref_lib :: [ref_vscode; ref_dep])
  /\ Forall (fun r => end_ ref_lib <= pos r) [ref_vscode; ref_dep].
Proof.
  split; [exact wellFormed_example_source|].
  exact (proj1 (proj2 (references_rewritten_last_first engine_options 20
                         "/repo/src/a.js" example_source [ref_b] [ref_vscode; ref_dep]
                         ref_lib (blank example_disk) wellFormed_example_source))).
Defined.

Lemma bare_specifier_rewritten_witness :
  exists importedFilename myDestinationPath importDestinationPath,
    computeDestinationFilePath engine_options 20 "/repo/src/a.js" = Ok myDestinationPath
    /\ computeDestinationFilePath engine_options 20 importedFilename
       = Ok importDestinationPath
    /\ importedFilename = "/repo/vendor/lib.js"
    /\ (rewriteImport engine_options 20 "/repo/src/a.js" ref_lib example_source
          (blank example_disk)).1
       = Ok "import './b'; import './vendor/lib'; import 'vscode'; import 'dep';".
Proof.
  destruct (bare_specifier_rewritten engine_options 20 "/repo/src/a.js" ref_lib
              example_source
              "import './b'; import './vendor/lib'; import 'vscode'; import 'dep';"
              (blank example_disk)
              (rewriteImport engine_options 20 "/repo/src/a.js" ref_lib example_source
                 (blank example_disk)).2)
    as (st1 & importedFilename & my & imp & Hres & Hmy & Himp & _).
  - reflexivity.
  - reflexivity.
  - simpl. lia.
  - vm_compute. discriminate.
  - apply pair_of_outcome. reflexivity.
  - exists importedFilename, my, imp. repeat split; try assumption.
    apply (f_equal fst) in Hres. vm_compute in Hres. now injection Hres.
Defined.

Example processFile_output_example :
  exists src finalFilePath out,
    readFileSync example_disk "/repo/src/b.js" = Some src
    /\ computeDestinationFilePath engine_options 20 "/repo/src/b.js" = Ok finalFilePath
    /\ (processFile engine_options 20 "/repo/src/b.js" (blank example_disk)).1 = Ok tt
    /\ EvWrite "/repo/src/b.js" finalFilePath out
       ∈ log (processFile engine_options 20 "/repo/src/b.js" (blank example_disk)).2.
Proof.
  assert (Hok : (processFile engine_options 20 "/repo/src/b.js" (blank example_disk)).1
                = Ok tt) by reflexivity.
  destruct (processFile_output engine_options 20 "/repo/src/b.js"
              (blank example_disk) _ (pair_of_outcome _ _ Hok))
    as (src & dest & out & st2 & Hsrc & Hdest & _ & (evs & Hlog & _) & _).
  exists src, dest, out. repeat split; try assumption.
  rewrite Hlog. rewrite !elem_of_app. right. right. now left.
Qed.

Lemma every_output_is_its_source_rewritten_witness :
  let st := (packageESM 20 example_options example_disk).1.2 in
  EvWrite "/repo/src/a.js" "/repo/out/a.js"
    "import './b'; import './vendor/lib'; import 'vscode'; import './dep/index';"
  ∈ log st
  /\ exists src,
      EvReadSource "/repo/src/a.js" (Some src) ∈ log st
      /\ computeDestinationFilePath (packageESM 20 example_options example_disk).2 20
           "/repo/src/a.js" = Ok "/repo/out/a.js".
Proof.
  intros st.
  assert (Hin : EvWrite "/repo/src/a.js" "/repo/out/a.js"
                  "import './b'; import './vendor/lib'; import 'vscode'; import './dep/index';"
                ∈ log st).
  { apply list_elem_of_lookup. exists 11%nat. vm_compute. reflexivity. }
  split; [exact Hin|].
  destruct (every_output_is_its_source_rewritten 20 example_options example_disk
              _ _ _ Hin) as (src & Hread & Hdest & _).
  exists src. split; assumption.
Defined.

Example cyclic_imports_complete :
  let run := packageESM 2 example_options cyclic_disk in
  run.1.1 = Ok tt
  /\ sourcesRead (log run.1.2) = ["/repo/src/a.js"; "/repo/src/b.js"]
  /\ sourcesWritten (log run.1.2) = ["/repo/src/a.js"; "/repo/src/b.js"].
Proof. vm_compute. repeat split. Qed.

Lemma reachability_closure_witness :
  let run := packageESM 20 example_options example_disk in
  run.1.1 = Ok tt
  /\ faithful example_disk (log run.1.2)
  /\ (forall f, f ∈ sourcesRead (log run.1.2) -> Reachable run.2 20 example_disk f)
  /\ (forall f, Reachable run.2 20 example_disk f -> f ∈ sourcesRead (log run.1.2))
  /\ sourcesRead (log run.1.2)
     = ["/repo/src/a.js"; "/repo/node_modules/dep/dist/index.js"; "/repo/vendor/lib.js";
        "/repo/src/b.js"; "/repo/node_modules/dep/dist/x.js"; "/repo/vendor/c.js"].
Proof.
  intros run.
  assert (Hok : run.1.1 = Ok tt) by reflexivity.
  assert (Hfaith : faithful example_disk (log run.1.2)).
  { vm_compute. repeat constructor. }
  destruct (reachability_closure 20 example_options example_disk Hfaith)
    as (Hsound & _ & Hcomplete & _).
  destruct (Hcomplete Hok) as [Hall _].
  split; [exact Hok|]. split; [exact Hfaith|]. split; [exact Hsound|].
  split; [exact Hall | reflexivity].
Defined.

(** The files reachable on [overlap_disk]: [/repo/out/vendor/lib.js] is
    named by an import of the entry point, and it is not on the disk, so
    nothing is reachable through it. *)
Lemma overlap_reachable f :
  Reachable overlap_options 8 overlap_disk f ->
  f ∈ ["/repo/out/vendor/a.js"; "/repo/vendor/lib.js"; "/repo/out/vendor/lib.js";
       "/repo/vendor/c.js"].
Proof.
  induction 1 as [entry Hentry | filePath target _ IH Himp].
  - apply list_elem_of_singleton in Hentry as ->. vm_compute. left.
  - destruct Himp as (text & ref & Hread & Hin & _ & Htarget).
    repeat (apply elem_of_cons in IH as [-> | IH]); try (now inversion IH);
      vm_compute in Hread; try discriminate;
      injection Hread as <-; vm_compute in Hin;
      repeat (apply elem_of_cons in Hin as [-> | Hin]); try (now inversion Hin);
      vm_compute in Htarget; injection Htarget as <-;
      repeat first [left | right].
Qed.

(** With the source directory [out/vendor] inside the destination
    directory [out], the run writes [/repo/vendor/lib.js] to
    [/repo/out/vendor/lib.js], a path the entry point imports and that
    the initial disk does not have. The run then reads what it wrote
    there, follows its import to [/repo/out/vendor/c.js], which it has
    written as well by then, and reads and writes that file too: a file
    that is not reachable from the entry point on the initial disk. The
    run completes. *)
Lemma run_reads_what_it_wrote :
  let run := packageESM 8 overlap_options overlap_disk in
  run.1.1 = Ok tt
  /\ readFileSync overlap_disk "/repo/out/vendor/lib.js" = None
  /\ readFileSync overlap_disk "/repo/out/vendor/c.js" = None
  /\ sourcesRead (log run.1.2)
     = ["/repo/out/vendor/a.js"; "/repo/vendor/lib.js"; "/repo/out/vendor/lib.js";
        "/repo/vendor/c.js"; "/repo/out/vendor/c.js"]
  /\ sourcesWritten (log run.1.2) = sourcesRead (log run.1.2)
  /\ EvWrite "/repo/vendor/c.js" "/repo/out/vendor/c.js" "" ∈ log run.1.2
  /\ EvReadSource "/repo/out/vendor/c.js" (Some "") ∈ log run.1.2
  /\ ~ Reachable run.2 8 overlap_disk "/repo/out/vendor/c.js"
  /\ ~ faithful overlap_disk (log run.1.2).
Proof.
  cbv zeta. split; [vm_compute; reflexivity|].
  split; [vm_compute; reflexivity|]. split; [vm_compute; reflexivity|].
  split; [vm_compute; reflexivity|]. split; [vm_compute; reflexivity|].
  split; [vm_compute; repeat first [left | right]|].
  split; [vm_compute; repeat first [left | right]|].
  split.
  - intros Hr. apply overlap_reachable in Hr.
    repeat (apply elem_of_cons in Hr as [Hr | Hr]; [discriminate|]). inversion Hr.
  - intros Hf.
    assert (Hin : EvReadSource "/repo/out/vendor/c.js" (Some "")
                  ∈ log (packageESM 8 overlap_options overlap_disk).1.2).
    { vm_compute. repeat first [left | right]. }
    apply (proj1 (Forall_forall _ _) Hf) in Hin. vm_compute in Hin. discriminate.
Qed.

End Examples.

(** * Further properties of the engine *)

(** ** Occurrences of a pattern *)

Lemma starts_with_app t rest : Js.starts_with t (t +:+ rest) = true.
Proof. apply starts_with_spec. now exists rest. Qed.

Lemma find_from_spec t s i j :
  Js.find_from t s i = Some j ->
  exists a b, s = a +:+ t +:+ b /\ j = (i + Js.len a)%nat.
Proof.
  revert i. induction s as [|c s IH]; intros i; simpl.
  - destruct (Js.starts_with t "") eqn:Ht; [|discriminate].
    intros [= <-]. apply starts_with_spec in Ht as [rest Hrest].
    exists "", rest. simpl. split; [exact Hrest | unfold Js.len; simpl; lia].
  - destruct (Js.starts_with t (String c s)) eqn:Ht.
    + intros [= <-]. apply starts_with_spec in Ht as [rest Hrest].
      exists "", rest. simpl. split; [exact Hrest | unfold Js.len; simpl; lia].
    + intros Hj. apply IH in Hj as (a & b & -> & ->).
      exists (String c a), b. split; [reflexivity | unfold Js.len; simpl; lia].
Qed.

Lemma find_from_occurrence t a b i : Js.find_from t (a +:+ t +:+ b) i <> None.
Proof.
  revert i. induction a as [|c a IH]; intros i.
  - simpl. destruct (t +:+ b) eqn:Heq; simpl; rewrite <- ?Heq, starts_with_app; discriminate.
  - simpl. destruct (Js.starts_with t (String c (a +:+ t +:+ b))); [discriminate | apply IH].
Qed.

Lemma indexOf_none s t : Js.indexOf s t < 0 <-> Js.find_from t s 0 = None.
Proof.
  unfold Js.indexOf. destruct (Js.find_from t s 0); split; intros Hx;
    try lia; try discriminate; reflexivity.
Qed.

Lemma indexOf_some s t : (Js.indexOf s t >=? 0) = true <-> Js.find_from t s 0 <> None.
Proof.
  unfold Js.indexOf. destruct (Js.find_from t s 0) as [i|]; split; intros Hx.
  - discriminate.
  - apply Z.geb_le. lia.
  - discriminate.
  - contradiction.
Qed.

Lemma get_substitution_plain matched before after repl :
  Forall (fun c => c <> Js.dollar) (Js.chars repl) ->
  Js.get_substitution matched before after repl = repl.
Proof.
  induction repl as [|d repl IH]; intros Hrepl; [reflexivity|].
  simpl in Hrepl. inversion Hrepl as [|? ? Hd Hrest]; subst.
  destruct repl as [|c rest]; [reflexivity|].
  change (Js.get_substitution matched before after (String d (String c rest)))
    with (if Ascii.eqb d Js.dollar then
            if Ascii.eqb c Js.dollar
            then String Js.dollar (Js.get_substitution matched before after rest)
            else if Ascii.eqb c "&"%char
                 then matched +:+ Js.get_substitution matched before after rest
                 else if Ascii.eqb c "`"%char
                      then before +:+ Js.get_substitution matched before after rest
                      else if Ascii.eqb c "'"%char
                           then after +:+ Js.get_substitution matched before after rest
                           else String d (Js.get_substitution matched before after
                                            (String c rest))
          else String d (Js.get_substitution matched before after (String c rest))).
  destruct (Ascii.eqb_spec d Js.dollar) as [->|_]; [contradiction|].
  now rewrite (IH Hrest).
Qed.

(** [s.replace(t, r)] where [t] occurs and [r] has no [$]. *)
Lemma replace_occurrence s t r :
  Forall (fun c => c <> Js.dollar) (Js.chars r) ->
  Js.find_from t s 0 <> None ->
  exists a b, s = a +:+ t +:+ b /\ Js.replace s t r = a +:+ r +:+ b.
Proof.
  intros Hr Hocc. unfold Js.replace.
  destruct (Js.find_from t s 0) as [i|] eqn:Hi; [|contradiction].
  apply find_from_spec in Hi as (a & b & -> & ->). simpl.
  exists a, b. split; [reflexivity|].
  rewrite get_substitution_plain by assumption.
  rewrite take_app_le by lia. rewrite take_all by lia.
  f_equal. f_equal.
  rewrite <- len_app, <- app_assoc_s. apply drop_app_len.
Qed.

(** ** The simplification loop *)

Section Simplification.
Context `{Host}.
Variable options : IOptions.
Variable budget : nat.

Lemma replace_while_absent n filePath test replacement :
  Js.indexOf filePath test < 0 -> replace_while n filePath test replacement = Ok filePath.
Proof.
  intros Hno.
  assert (Hge : (Js.indexOf filePath test >=? 0) = false)
    by (rewrite Z.geb_leb; apply Z.leb_gt; lia).
  destruct n; simpl; now rewrite Hge.
Qed.

Lemma replace_while_outcome n filePath test replacement :
  (exists out, replace_while n filePath test replacement = Ok out)
  \/ replace_while n filePath test replacement = Diverge SimplifyLoop.
Proof.
  revert filePath. induction n as [|n IH]; intros filePath; simpl;
    destruct (_ >=? 0); eauto.
Qed.

Lemma len_replace_backslashes s : Js.len (Js.replace_backslashes s) = Js.len s.
Proof. unfold Js.len. induction s as [|c s IH]; simpl; [reflexivity | now rewrite IH]. Qed.

Lemma absent_from_shorter s t : (Js.len s < Js.len t)%nat -> Js.indexOf s t < 0.
Proof.
  intros Hlen. apply indexOf_none.
  destruct (Js.find_from t s 0) as [i|] eqn:Hi; [|reflexivity].
  apply find_from_spec in Hi as (a & b & -> & _). rewrite !len_app in Hlen. lia.
Qed.

Lemma replace_while_shrinks n filePath test replacement :
  Forall (fun c => c <> Js.dollar) (Js.chars replacement) ->
  (Js.len replacement < Js.len test)%nat ->
  (Js.len filePath <= n)%nat ->
  exists out,
    replace_while n filePath test replacement = Ok out
    /\ Js.indexOf out test < 0
    /\ (Js.len out <= Js.len filePath)%nat.
Proof.
  intros Hplain Hshort. revert filePath. induction n as [|n IH]; intros filePath Hn.
  - exists filePath.
    assert (Hno : Js.indexOf filePath test < 0) by (apply absent_from_shorter; lia).
    rewrite replace_while_absent by assumption. auto.
  - simpl. destruct (Js.indexOf filePath test >=? 0) eqn:Hge.
    + apply indexOf_some in Hge.
      destruct (replace_occurrence filePath test replacement Hplain Hge)
        as (a & b & -> & ->).
      rewrite !len_app in Hn.
      destruct (IH (a +:+ replacement +:+ b)) as (out & Hout & Hno & Hlen).
      { rewrite !len_app. lia. }
      exists out. rewrite !len_app in *. split; [exact Hout|]. split; [exact Hno | lia].
    + exists filePath. rewrite Z.geb_leb in Hge. apply Z.leb_gt in Hge.
      split; [reflexivity|]. split; [exact Hge | lia].
Qed.

Lemma replace_while_empty_pattern n filePath replacement :
  replace_while n filePath "" replacement = Diverge SimplifyLoop.
Proof.
  revert filePath. induction n as [|n IH]; intros filePath; simpl.
  - now destruct filePath.
  - assert (Hge : (Js.indexOf filePath "" >=? 0) = true) by now destruct filePath.
    rewrite Hge. apply IH.
Qed.

Lemma replace_while_growing n filePath test replacement :
  Forall (fun c => c <> Js.dollar) (Js.chars replacement) ->
  Js.find_from test replacement 0 <> None ->
  Js.find_from test filePath 0 <> None ->
  replace_while n filePath test replacement = Diverge SimplifyLoop.
Proof.
  intros Hplain Hin. revert filePath. induction n as [|n IH]; intros filePath Hocc; simpl;
    rewrite (proj2 (indexOf_some filePath test) Hocc); [reflexivity|].
  apply IH.
  destruct (replace_occurrence filePath test replacement Hplain Hocc) as (a & b & _ & ->).
  destruct (Js.find_from test replacement 0) as [i|] eqn:Hi; [|contradiction].
  apply find_from_spec in Hi as (a' & b' & -> & _).
  rewrite !app_assoc_s, <- (app_assoc_s a a'). apply find_from_occurrence.
Qed.

Lemma simplify_loop_absent keys filePath :
  (forall key, key ∈ keys -> Js.indexOf filePath (Js.replace_backslashes key) < 0) ->
  simplify_loop options budget keys filePath = Ok filePath.
Proof.
  induction keys as [|key keys IH]; intros Hkeys; [reflexivity|].
  simpl. rewrite replace_while_absent by (apply Hkeys; left).
  apply IH. intros k Hk. apply Hkeys. now right.
Qed.

Lemma simplify_loop_shrinks keys filePath :
  (forall key, key ∈ keys ->
     let test := Js.replace_backslashes key in
     let replacement := property_text (destinationFolderSimplification options) test in
     Forall (fun c => c <> Js.dollar) (Js.chars replacement)
     /\ (Js.len replacement < Js.len test)%nat) ->
  (Js.len filePath <= budget)%nat ->
  exists out,
    simplify_loop options budget keys filePath = Ok out
    /\ (Js.len out <= Js.len filePath)%nat
    /\ (forall key, last keys = Some key ->
                    Js.indexOf out (Js.replace_backslashes key) < 0).
Proof.
  revert filePath. induction keys as [|key keys IH]; intros filePath Hkeys Hlen.
  - exists filePath. repeat split; auto. discriminate.
  - destruct (Hkeys key) as [Hplain Hshort]; [left|].
    destruct (replace_while_shrinks budget filePath _ _ Hplain Hshort Hlen)
      as (mid & Hmid & Hno & Hle).
    simpl. rewrite Hmid.
    destruct (IH mid) as (out & Hout & Hle' & Hlast).
    { intros k Hk. apply Hkeys. now right. }
    { lia. }
    exists out. split; [exact Hout|]. split; [lia|].
    intros k Hk. destruct keys as [|k' keys'].
    + simpl in Hk, Hout. inversion Hk; subst. now inversion Hout; subst.
    + apply Hlast. exact Hk.
Qed.

Lemma simplify_loop_empty_key keys filePath :
  "" ∈ keys -> simplify_loop options budget keys filePath = Diverge SimplifyLoop.
Proof.
  revert filePath. induction keys as [|key keys IH]; intros filePath Hin;
    [inversion Hin|].
  simpl. apply elem_of_cons in Hin as [<-|Hin].
  - simpl. now rewrite replace_while_empty_pattern.
  - destruct (replace_while_outcome budget filePath (Js.replace_backslashes key)
                (property_text (destinationFolderSimplification options)
                   (Js.replace_backslashes key))) as [[mid ->] | ->];
      [now apply IH | reflexivity].
Qed.

End Simplification.

(** X1: a file outside the source directory whose destination holds none
    of the patterns gets the destination under the destination
    directory, relative to the repository root, with backslashes turned
    into slashes and normalized; the bound of the loop plays no part. *)
Theorem destination_without_matching_rule `{Host} (options : IOptions) (budget : nat)
  (filePath : string) :
  let joined :=
    path.join [ESM_DEST options; path.relative cwd (repoRoot options) filePath] in
  Js.indexOf filePath (ESM_SRC options) <> 0 ->
  (forall key, key ∈ map fst (destinationFolderSimplification options) ->
               Js.indexOf (Js.replace_backslashes joined) (Js.replace_backslashes key) < 0) ->
  computeDestinationFilePath options budget filePath
  = Ok (path.normalize (Js.replace_backslashes joined)).
Proof.
  cbv zeta. intros Hsrc Hkeys. unfold computeDestinationFilePath.
  apply Z.eqb_neq in Hsrc. rewrite Hsrc.
  unfold applyDestinationFolderSimplifications.
  now rewrite simplify_loop_absent.
Qed.

Lemma simplify_loop_by_rules `{Host} (options : IOptions) (budget : nat)
  (rules : list (string * string)) (filePath : string) :
  NoDup (destinationFolderSimplification options).*1 ->
  (forall rule, rule ∈ rules -> rule ∈ destinationFolderSimplification options) ->
  (forall rule, rule ∈ rules -> Forall (fun c => c <> Js.backslash) (Js.chars rule.1)) ->
  simplify_loop options budget (map fst rules) filePath
  = simplify_by_rules budget rules filePath.
Proof.
  intros Hnd. revert filePath. induction rules as [|[key replacement] rules IH];
    intros filePath Hsub Hplain; [reflexivity|].
  simpl.
  rewrite (replace_backslashes_without_backslash key) by (apply (Hplain (key, replacement)); left).
  rewrite (property_text_of_rule _ key replacement Hnd) by (apply Hsub; left).
  destruct (replace_while budget filePath key replacement) as [mid| |]; try reflexivity.
  apply IH; intros rule Hrule; [apply Hsub | apply Hplain]; now right.
Qed.

(** X2: when no key of [destinationFolderSimplification] holds a
    backslash, the rules apply as they are written: each pattern is
    replaced by the replacement of its own rule, one rule after the
    other. *)
Theorem rules_without_backslash_apply_as_written `{Host} (options : IOptions)
  (budget : nat) (filePath : string) :
  NoDup (map fst (destinationFolderSimplification options)) ->
  (forall key, key ∈ map fst (destinationFolderSimplification options) ->
               Forall (fun c => c <> Js.backslash) (Js.chars key)) ->
  applyDestinationFolderSimplifications options budget filePath
  = simplify_by_rules budget (destinationFolderSimplification options)
      (Js.replace_backslashes filePath).
Proof.
  intros Hnd Hplain. unfold applyDestinationFolderSimplifications.
  apply simplify_loop_by_rules; [exact Hnd | auto |].
  intros rule Hrule. apply Hplain. apply list_elem_of_fmap. now exists rule.
Qed.

(** X3: a single rule whose key holds a backslash has its pattern, the
    key with slashes, replaced by the text [undefined]: the replacement
    is looked up under the pattern, which is not a key of the object. *)
Theorem backslash_key_puts_undefined `{Host} (options : IOptions) (budget : nat)
  (key replacement filePath : string) :
  destinationFolderSimplification options = [(key, replacement)] ->
  Js.replace_backslashes key <> key ->
  applyDestinationFolderSimplifications options budget filePath
  = replace_while budget (Js.replace_backslashes filePath)
      (Js.replace_backslashes key) "undefined".
Proof.
  intros Hrules Hkey. unfold applyDestinationFolderSimplifications.
  rewrite Hrules. simpl. unfold property_text. rewrite Hrules. simpl.
  rewrite bool_decide_eq_false_2 by congruence. simpl.
  now destruct (replace_while budget _ _ "undefined").
Qed.

(** X4: when the replacement of every rule is shorter than its pattern
    and holds no [$], the simplification ends within as many iterations
    per rule as the path has characters; the result is no longer than the
    path and the pattern of the last rule does not occur in it. *)
Theorem shrinking_rules_terminate `{Host} (options : IOptions) (budget : nat)
  (filePath : string) :
  (forall key, key ∈ map fst (destinationFolderSimplification options) ->
     let test := Js.replace_backslashes key in
     let replacement := property_text (destinationFolderSimplification options) test in
     Forall (fun c => c <> Js.dollar) (Js.chars replacement)
     /\ (Js.len replacement < Js.len test)%nat) ->
  (Js.len filePath <= budget)%nat ->
  exists out,
    applyDestinationFolderSimplifications options budget filePath = Ok out
    /\ (Js.len out <= Js.len filePath)%nat
    /\ (forall key, last (map fst (destinationFolderSimplification options)) = Some key ->
                    Js.indexOf out (Js.replace_backslashes key) < 0).
Proof.
  intros Hkeys Hlen. unfold applyDestinationFolderSimplifications.
  destruct (simplify_loop_shrinks options budget _ (Js.replace_backslashes filePath) Hkeys)
    as (out & Hout & Hle & Hlast).
  { now rewrite len_replace_backslashes. }
  exists out. rewrite len_replace_backslashes in Hle. auto.
Qed.

(** X5: a rule whose key is the empty string makes the simplification
    loop for ever, whatever the path and the other rules: the
    destination of a file outside the source directory is never
    computed. *)
Theorem empty_simplification_key_never_ends `{Host} (options : IOptions) (budget : nat)
  (filePath : string) :
  "" ∈ map fst (destinationFolderSimplification options) ->
  applyDestinationFolderSimplifications options budget filePath = Diverge SimplifyLoop
  /\ (Js.indexOf filePath (ESM_SRC options) <> 0 ->
      computeDestinationFilePath options budget filePath = Diverge SimplifyLoop).
Proof.
  intros Hkey.
  assert (Hloop : forall p,
             applyDestinationFolderSimplifications options budget p = Diverge SimplifyLoop).
  { intros p. unfold applyDestinationFolderSimplifications.
    now apply simplify_loop_empty_key. }
  split; [apply Hloop|].
  intros Hsrc. unfold computeDestinationFilePath.
  apply Z.eqb_neq in Hsrc. now rewrite Hsrc, Hloop.
Qed.

(** X6: the [while] loop of a rule never ends when the pattern occurs in
    the path and in the replacement (one without [$]): each replacement
    brings the pattern back. *)
Theorem growing_replacement_never_ends (n : nat) (filePath test replacement : string) :
  Forall (fun c => c <> Js.dollar) (Js.chars replacement) ->
  0 <= Js.indexOf replacement test ->
  0 <= Js.indexOf filePath test ->
  replace_while n filePath test replacement = Diverge SimplifyLoop.
Proof.
  intros Hplain Hin Hocc.
  apply replace_while_growing; [exact Hplain| |];
    apply indexOf_some, Z.geb_le; assumption.
Qed.


(** ** Paths made of plain segments *)
Lemma split_not_nil s : path.split s <> [].
Proof.
  induction s as [|c s IH]; simpl; [discriminate|].
  destruct (Ascii.eqb c Js.slash); [discriminate|].
  destruct (path.split s); [contradiction | discriminate].
Qed.

Lemma split_app_slash x y :
  path.split (x +:+ String Js.slash y) = path.split x ++ path.split y.
Proof.
  induction x as [|c x IH]; [reflexivity|].
  simpl. rewrite IH. destruct (Ascii.eqb c Js.slash); [reflexivity|].
  pose proof (split_not_nil x) as Hx.
  destruct (path.split x) as [|h t]; [contradiction | reflexivity].
Qed.

Lemma split_without_slash s :
  Forall (fun c => c <> Js.slash) (Js.chars s) -> path.split s = [s].
Proof.
  induction s as [|c s IH]; intros Hs; [reflexivity|].
  simpl in *. inversion Hs as [|? ? Hc Hrest]; subst.
  rewrite (IH Hrest). now destruct (Ascii.eqb_spec c Js.slash).
Qed.

Lemma intercalate_cons s segs :
  segs <> [] -> path.intercalate (s :: segs) = s +:+ String Js.slash (path.intercalate segs).
Proof. destruct segs; [contradiction | reflexivity]. Qed.

Lemma split_intercalate segs :
  Forall plain_segment segs -> segs <> [] -> path.split (path.intercalate segs) = segs.
Proof.
  induction segs as [|s segs IH]; intros Hsegs Hne; [contradiction|].
  inversion Hsegs as [|? ? (_ & _ & _ & Hs) Hrest]; subst.
  destruct segs as [|s' segs'].
  - simpl. now apply split_without_slash.
  - rewrite intercalate_cons by discriminate.
    rewrite split_app_slash, split_without_slash by assumption.
    simpl. f_equal. apply IH; [assumption | discriminate].
Qed.

(** The segments [normalize] sees in a path made of plain segments:
    the plain ones and empty ones. *)
Lemma foldl_push_plain allow segs stack :
  Forall (fun s => s = "" \/ plain_segment s) segs ->
  foldl (path.push_segment allow) stack segs
  = reverse (filter (fun s => s ≠ "") segs) ++ stack.
Proof.
  revert stack. induction segs as [|s segs IH]; intros stack Hsegs; [reflexivity|].
  inversion Hsegs as [|? ? Hs Hrest]; subst. simpl.
  rewrite (IH _ Hrest). destruct Hs as [->|(Hne & Hdot & Hdots & _)].
  - unfold path.push_segment. simpl.
    rewrite filter_cons_False by (intros Hx; now apply Hx). reflexivity.
  - unfold path.push_segment.
    rewrite (bool_decide_eq_false_2 (s = "")), (bool_decide_eq_false_2 (s = ".")),
      (bool_decide_eq_false_2 (s = "..")) by assumption.
    simpl. rewrite filter_cons_True by assumption.
    rewrite reverse_cons, <- app_assoc. reflexivity.
Qed.

Lemma normalize_segments_plain allow segs :
  Forall (fun s => s = "" \/ plain_segment s) segs ->
  path.normalize_segments allow segs = filter (fun s => s ≠ "") segs.
Proof.
  intros Hsegs. unfold path.normalize_segments.
  rewrite foldl_push_plain by assumption. now rewrite app_nil_r, reverse_involutive.
Qed.

Lemma filter_plain segs :
  Forall plain_segment segs -> filter (fun s => s ≠ "") segs = segs.
Proof.
  induction 1 as [|s segs (Hne & _) _ IH]; [reflexivity|].
  rewrite filter_cons_True by assumption. now rewrite IH.
Qed.

(** What [split] makes of the path of [segs], up to empty segments. *)
Lemma split_absolute_of segs :
  Forall plain_segment segs ->
  Forall (fun s => s = "" \/ plain_segment s) (path.split (absolute_of segs))
  /\ filter (fun s => s ≠ "") (path.split (absolute_of segs)) = segs.
Proof.
  intros Hsegs. unfold absolute_of.
  change ("/" +:+ path.intercalate segs)
    with ("" +:+ String Js.slash (path.intercalate segs)).
  rewrite split_app_slash. simpl.
  destruct segs as [|s segs'].
  - simpl. split; [repeat constructor; now left|].
    rewrite !filter_cons_False by (intros Hx; now apply Hx). reflexivity.
  - rewrite split_intercalate by (assumption || discriminate). split.
    + constructor; [now left|]. eapply Forall_impl; [exact Hsegs|]. now right.
    + rewrite filter_cons_False by (intros Hx; now apply Hx).
      now apply filter_plain.
Qed.

Lemma chars_app a b : Js.chars (a +:+ b) = Js.chars a ++ Js.chars b.
Proof. unfold Js.chars. induction a as [|c a IH]; simpl; [reflexivity | now rewrite IH]. Qed.

Lemma no_trailing_separator x s :
  plain_segment s -> path.has_trailing_separator (x +:+ s) = false.
Proof.
  intros (Hne & _ & _ & Hs). unfold path.has_trailing_separator.
  rewrite chars_app, last_app.
  destruct (last (Js.chars s)) as [c|] eqn:Hlast.
  - apply last_Some_elem_of in Hlast. rewrite Forall_forall in Hs.
    specialize (Hs c Hlast). now destruct (Ascii.eqb_spec c Js.slash).
  - assert (Hnil : Js.chars s = []).
    { destruct (Js.chars s) as [|c l] eqn:Hc; [reflexivity|].
      assert (His : is_Some (last (c :: l))) by (apply last_is_Some; discriminate).
      rewrite Hlast in His. now destruct His. }
    destruct s; [contradiction | discriminate].
Qed.

Lemma intercalate_app a b :
  a <> [] -> b <> [] ->
  path.intercalate (a ++ b) = path.intercalate a +:+ String Js.slash (path.intercalate b).
Proof.
  intros Ha Hb. induction a as [|s a IH]; [contradiction|].
  destruct a as [|s' a'].
  - change ([s] ++ b) with (s :: b). now rewrite intercalate_cons.
  - change ((s :: s' :: a') ++ b) with (s :: ((s' :: a') ++ b)).
    rewrite !intercalate_cons by discriminate.
    rewrite IH by discriminate. now rewrite app_assoc_s.
Qed.

Lemma no_trailing_separator_segments x segs :
  segs <> [] -> Forall plain_segment segs ->
  path.has_trailing_separator (x +:+ path.intercalate segs) = false.
Proof.
  intros Hne Hsegs.
  assert (Hlast : exists init z, segs = init ++ [z]).
  { destruct (last segs) as [z|] eqn:Hl.
    - apply last_Some in Hl as [init ->]. now exists init, z.
    - assert (His : is_Some (last segs)) by now apply last_is_Some.
      rewrite Hl in His. now destruct His. }
  destruct Hlast as (init & z & ->).
  apply Forall_app in Hsegs as [_ Hzp]. inversion Hzp as [|? ? Hplain _]; subst.
  destruct init as [|i init'].
  - now apply no_trailing_separator.
  - rewrite intercalate_app by discriminate.
    replace (x +:+ path.intercalate (i :: init') +:+ String Js.slash (path.intercalate [z]))
      with ((x +:+ path.intercalate (i :: init') +:+ "/") +:+ z)
      by (simpl; now rewrite !app_assoc_s).
    now apply no_trailing_separator.
Qed.

Lemma absolute_of_prefix s segs :
  Js.starts_with (absolute_of s) (absolute_of (s ++ segs)) = true.
Proof.
  apply starts_with_spec. unfold absolute_of.
  destruct s as [|x s']; [now exists (path.intercalate segs)|].
  destruct segs as [|y segs']; [exists ""; now rewrite app_nil_r, app_empty_r|].
  exists (String Js.slash (path.intercalate (y :: segs'))).
  rewrite intercalate_app by discriminate. simpl. now rewrite app_assoc_s.
Qed.

Lemma segments_absolute_of segs :
  Forall plain_segment segs -> path.segments (absolute_of segs) = segs.
Proof. intros Hsegs. unfold path.segments. now apply split_absolute_of. Qed.

Lemma absolute_of_inj a b :
  Forall plain_segment a -> Forall plain_segment b -> absolute_of a = absolute_of b -> a = b.
Proof.
  intros Ha Hb Heq. rewrite <- (segments_absolute_of a Ha), <- (segments_absolute_of b Hb).
  now rewrite Heq.
Qed.

(** [normalize] on an absolute path whose segments are plain or empty
    and that does not end with a separator. *)
Lemma normalize_plain p :
  Js.starts_with "/" p = true ->
  Forall (fun s => s = "" \/ plain_segment s) (path.split p) ->
  path.has_trailing_separator p = false ->
  path.normalize p = absolute_of (filter (fun s => s ≠ "") (path.split p)).
Proof.
  intros Habs Hsplit Htrail. unfold path.normalize, path.is_absolute.
  rewrite Habs, Htrail. simpl.
  rewrite bool_decide_eq_false_2 by (intros ->; discriminate).
  unfold path.normalize_string. rewrite normalize_segments_plain by assumption.
  rewrite !andb_false_r. reflexivity.
Qed.

Lemma normalize_absolute_of segs :
  Forall plain_segment segs -> path.normalize (absolute_of segs) = absolute_of segs.
Proof.
  intros Hsegs. destruct (split_absolute_of segs Hsegs) as [Hsplit Hfilter].
  destruct segs as [|s segs'] eqn:Hs; [reflexivity|]. rewrite <- Hs in *.
  rewrite normalize_plain; [now rewrite Hfilter | reflexivity | exact Hsplit |].
  apply no_trailing_separator_segments; [now rewrite Hs | assumption].
Qed.

Section PlainPaths.
Context `{Host}.

Lemma resolve_absolute_of segs :
  Forall plain_segment segs -> path.resolve cwd [absolute_of segs] = absolute_of segs.
Proof.
  intros Hsegs. destruct (split_absolute_of segs Hsegs) as [Hsplit Hfilter].
  unfold path.resolve. simpl.
  change (String "/" (path.intercalate segs +:+ "/"))
    with (absolute_of segs +:+ String Js.slash "").
  unfold path.normalize_string. rewrite split_app_slash.
  change (path.split "") with [""].
  rewrite normalize_segments_plain
    by (apply Forall_app; split; [exact Hsplit | repeat constructor; now left]).
  rewrite filter_app, Hfilter.
  rewrite filter_cons_False by (intros Hx; now apply Hx).
  rewrite filter_nil, app_nil_r. reflexivity.
Qed.

Lemma strip_common_prefix a b : path.strip_common a (a ++ b) = ([], b).
Proof.
  induction a as [|x a IH]; [now destruct b|].
  simpl. now rewrite bool_decide_eq_true_2.
Qed.

Lemma relative_absolute_of s segs :
  Forall plain_segment s -> Forall plain_segment segs ->
  path.relative cwd (absolute_of s) (absolute_of (s ++ segs)) = path.intercalate segs.
Proof.
  intros Hs Hsegs.
  assert (Hall : Forall plain_segment (s ++ segs)) by (apply Forall_app; now split).
  unfold path.relative. rewrite !resolve_absolute_of by assumption.
  destruct segs as [|x segs'] eqn:Hx.
  - rewrite app_nil_r. now rewrite bool_decide_eq_true_2.
  - rewrite <- Hx in *.
    assert (Hne : absolute_of s <> absolute_of (s ++ segs)).
    { intros Heq. apply absolute_of_inj in Heq; [|assumption..].
      apply (f_equal length) in Heq. rewrite length_app, Hx in Heq. simpl in Heq. lia. }
    rewrite !bool_decide_eq_false_2 by assumption.
    rewrite !segments_absolute_of by assumption.
    now rewrite strip_common_prefix.
Qed.

Lemma join_absolute_of d segs :
  Forall plain_segment d -> Forall plain_segment segs ->
  path.join [absolute_of d; path.intercalate segs] = absolute_of (d ++ segs).
Proof.
  intros Hd Hsegs. unfold path.join.
  rewrite filter_cons_True by discriminate.
  destruct segs as [|x segs'] eqn:Hx.
  - change (path.intercalate []) with "".
    rewrite filter_cons_False by (intros Hx'; now apply Hx').
    rewrite filter_nil, app_nil_r.
    change (path.intercalate [absolute_of d]) with (absolute_of d).
    now apply normalize_absolute_of.
  - rewrite <- Hx in *.
    assert (Hsplit : path.split (path.intercalate segs) = segs)
      by (apply split_intercalate; [assumption | now rewrite Hx]).
    assert (Hne : path.intercalate segs <> "").
    { intros Heq. rewrite Heq in Hsplit. simpl in Hsplit. rewrite <- Hsplit in Hsegs.
      inversion Hsegs as [|? ? (Hempty & _) _]. now apply Hempty. }
    rewrite filter_cons_True by assumption. rewrite filter_nil.
    change (path.intercalate [absolute_of d; path.intercalate segs])
      with (absolute_of d +:+ String Js.slash (path.intercalate segs)).
    destruct (split_absolute_of d Hd) as [Hdsplit Hdfilter].
    rewrite normalize_plain.
    + rewrite split_app_slash, filter_app, Hdfilter, Hsplit.
      now rewrite filter_plain.
    + reflexivity.
    + rewrite split_app_slash, Hsplit. apply Forall_app. split; [exact Hdsplit|].
      eapply Forall_impl; [exact Hsegs|]. now right.
    + replace (absolute_of d +:+ String Js.slash (path.intercalate segs))
        with ((absolute_of d +:+ "/") +:+ path.intercalate segs)
        by (now rewrite app_assoc_s).
      apply no_trailing_separator_segments; [now rewrite Hx | assumption].
Qed.

End PlainPaths.

Section Mirror.
Context `{Host}.
Variable options : IOptions.
Variables root source destination : list string.
Hypothesis Hroot : repoRoot options = absolute_of root.
Hypothesis Hsource : esmSource options = path.intercalate source.
Hypothesis Hdestination : esmDestination options = path.intercalate destination.
Hypothesis Hr : Forall plain_segment root.
Hypothesis Hs : Forall plain_segment source.
Hypothesis Hd : Forall plain_segment destination.

Lemma ESM_SRC_absolute_of : ESM_SRC options = absolute_of (root ++ source).
Proof. unfold ESM_SRC. rewrite Hroot, Hsource. now apply join_absolute_of. Qed.

Lemma ESM_DEST_absolute_of : ESM_DEST options = absolute_of (root ++ destination).
Proof. unfold ESM_DEST. rewrite Hroot, Hdestination. now apply join_absolute_of. Qed.

End Mirror.

(** X7: with the repository at an absolute path of plain segments and
    the source and destination directories given by plain segments, a
    file under the source directory has its destination at the same place
    under the destination directory, whatever the simplification rules
    and the bound of their loop. *)
Theorem source_tree_is_mirrored `{Host} (options : IOptions) (budget : nat)
  (root source destination segs : list string) :
  repoRoot options = absolute_of root ->
  esmSource options = path.intercalate source ->
  esmDestination options = path.intercalate destination ->
  Forall plain_segment root -> Forall plain_segment source ->
  Forall plain_segment destination -> Forall plain_segment segs ->
  computeDestinationFilePath options budget (absolute_of (root ++ source ++ segs))
  = Ok (absolute_of (root ++ destination ++ segs)).
Proof.
  intros Hroot Hsource Hdestination Hr Hs Hd Hsegs.
  pose proof (ESM_SRC_absolute_of options root source Hroot Hsource Hr Hs) as Hsrc.
  pose proof (ESM_DEST_absolute_of options root destination Hroot Hdestination Hr Hd)
    as Hdest.
  rewrite !app_assoc.
  rewrite computeDestinationFilePath_in_source
    by (rewrite Hsrc; apply absolute_of_prefix).
  rewrite Hsrc, Hdest, relative_absolute_of
    by (try apply Forall_app; auto).
  rewrite join_absolute_of by (try apply Forall_app; auto).
  reflexivity.
Qed.

(** X8: a file under the repository root and outside the source
    directory, in whose destination no pattern occurs and no backslash,
    has its destination at the same place under the destination
    directory as it has under the repository root. *)
Theorem dependency_tree_is_mirrored `{Host} (options : IOptions) (budget : nat)
  (root destination segs : list string) :
  repoRoot options = absolute_of root ->
  esmDestination options = path.intercalate destination ->
  Forall plain_segment root -> Forall plain_segment destination ->
  Forall plain_segment segs ->
  Js.indexOf (absolute_of (root ++ segs)) (ESM_SRC options) <> 0 ->
  Forall (fun c => c <> Js.backslash)
    (Js.chars (absolute_of (root ++ destination ++ segs))) ->
  (forall key, key ∈ map fst (destinationFolderSimplification options) ->
               Js.indexOf (absolute_of (root ++ destination ++ segs))
                 (Js.replace_backslashes key) < 0) ->
  computeDestinationFilePath options budget (absolute_of (root ++ segs))
  = Ok (absolute_of (root ++ destination ++ segs)).
Proof.
  intros Hroot Hdestination Hr Hd Hsegs Hout Hplain Hkeys.
  assert (Hdest : ESM_DEST options = absolute_of (root ++ destination)).
  { unfold ESM_DEST. rewrite Hroot, Hdestination. now apply join_absolute_of. }
  assert (Hrd : Forall plain_segment (root ++ destination)) by (apply Forall_app; now split).
  rewrite app_assoc in *.
  unfold computeDestinationFilePath. apply Z.eqb_neq in Hout. rewrite Hout.
  rewrite Hroot, Hdest, relative_absolute_of, join_absolute_of by assumption.
  unfold applyDestinationFolderSimplifications.
  rewrite replace_backslashes_without_backslash by assumption.
  rewrite simplify_loop_absent by assumption.
  rewrite normalize_absolute_of; [reflexivity|]. apply Forall_app. now split.
Qed.

Lemma str_chars s : Js.str (Js.chars s) = s.
Proof. apply String.string_of_list_ascii_of_string. Qed.

Lemma drop_while_stop f (l : list ascii) c rest :
  l = c :: rest -> f c = false -> path.drop_while f l = l.
Proof. intros -> Hc. simpl. now rewrite Hc. Qed.

Lemma drop_while_all f (l : list ascii) :
  Forall (fun c => f c = true) l -> path.drop_while f l = [].
Proof. induction 1 as [|c l Hc _ IH]; [reflexivity|]. simpl. now rewrite Hc. Qed.

Lemma drop_while_app f (l1 l2 : list ascii) c :
  Forall (fun x => f x = true) l1 -> f c = false ->
  path.drop_while f (l1 ++ c :: l2) = c :: l2.
Proof.
  intros Hl1 Hc. induction Hl1 as [|x l Hx _ IH]; simpl; [now rewrite Hc|].
  now rewrite Hx.
Qed.

Lemma plain_chars s :
  plain_segment s ->
  exists c rest, reverse (Js.chars s) = c :: rest
                 /\ Forall (fun x => negb (path.is_sep x) = true) (reverse (Js.chars s)).
Proof.
  intros (Hne & _ & _ & Hs).
  assert (Hall : Forall (fun x => negb (path.is_sep x) = true) (reverse (Js.chars s))).
  { apply Forall_reverse. eapply Forall_impl; [exact Hs|]. intros x Hx.
    unfold path.is_sep. now destruct (Ascii.eqb_spec x Js.slash). }
  destruct (reverse (Js.chars s)) as [|c rest] eqn:Hrev.
  - apply (f_equal reverse) in Hrev. rewrite reverse_involutive in Hrev.
    destruct s; [contradiction | discriminate].
  - now exists c, rest.
Qed.

Lemma intercalate_not_empty segs :
  Forall plain_segment segs -> segs <> [] -> path.intercalate segs <> "".
Proof.
  intros Hsegs Hne Heq.
  pose proof (split_intercalate segs Hsegs Hne) as Hsplit.
  rewrite Heq in Hsplit. simpl in Hsplit. rewrite <- Hsplit in Hsegs.
  inversion Hsegs as [|? ? (Hempty & _) _]. now apply Hempty.
Qed.

(** The directory of a file at an absolute path of plain segments. *)
Lemma dirname_absolute_of dir file :
  Forall plain_segment dir -> plain_segment file ->
  path.dirname (absolute_of (dir ++ [file])) = absolute_of dir.
Proof.
  intros Hdir Hfile.
  destruct (plain_chars file Hfile) as (c & rest & Hrev & Hall).
  assert (Hc : path.is_sep c = false).
  { rewrite Hrev in Hall. inversion Hall as [|? ? Hx _]; subst.
    now destruct (path.is_sep c). }
  unfold path.dirname, absolute_of.
  destruct dir as [|d dir'] eqn:Hd.
  - simpl. rewrite (drop_while_stop _ _ c rest Hrev Hc).
    now rewrite drop_while_all.
  - rewrite <- Hd in *.
    assert (Hne : dir <> []) by now rewrite Hd.
    rewrite intercalate_app by (assumption || discriminate).
    change (Js.chars ("/" +:+ path.intercalate dir
                      +:+ String Js.slash (path.intercalate [file])))
      with (Js.slash :: Js.chars (path.intercalate dir +:+ String Js.slash file)).
    rewrite chars_app.
    change (Js.chars (String Js.slash file)) with (Js.slash :: Js.chars file).
    rewrite reverse_app, reverse_cons, <- app_assoc. simpl.
    rewrite (drop_while_stop path.is_sep (reverse (Js.chars file) ++ _) c
               (rest ++ Js.slash :: reverse (Js.chars (path.intercalate dir))))
      by (rewrite ?Hrev; (reflexivity || exact Hc)).
    rewrite drop_while_app by (assumption || reflexivity).
    assert (Hnil : reverse (Js.chars (path.intercalate dir)) <> []).
    { intros Hnil. apply (f_equal reverse) in Hnil. rewrite reverse_involutive in Hnil.
      apply (intercalate_not_empty dir Hdir Hne).
      destruct (path.intercalate dir); [reflexivity | discriminate]. }
    rewrite bool_decide_eq_false_2 by assumption. rewrite ?andb_false_r.
    rewrite reverse_involutive. simpl. now rewrite str_chars.
Qed.

Lemma normalize_absolute p :
  Js.starts_with "/" p = true ->
  path.has_trailing_separator p = false ->
  path.normalize p
  = "/" +:+ path.intercalate (path.normalize_segments false (path.split p)).
Proof.
  intros Habs Htrail. unfold path.normalize, path.is_absolute.
  rewrite Habs, Htrail. simpl.
  rewrite bool_decide_eq_false_2 by (intros ->; discriminate).
  unfold path.normalize_string. rewrite !andb_false_r. reflexivity.
Qed.

(** [path.join(dir, spec)] for a specifier that starts with [./] or
    [../] and goes on with plain segments. *)
Lemma join_relative_specifier dir segs (step : string) :
  Forall plain_segment dir -> Forall plain_segment segs -> segs <> [] ->
  step = "." \/ step = ".." ->
  path.join [absolute_of dir; step +:+ String Js.slash (path.intercalate segs)]
  = "/" +:+ path.intercalate
              (reverse (foldl (path.push_segment false)
                          (path.push_segment false (reverse dir) step) segs)).
Proof.
  intros Hdir Hsegs Hne Hstep. unfold path.join.
  rewrite filter_cons_True by discriminate.
  rewrite filter_cons_True by (destruct Hstep as [-> | ->]; discriminate).
  rewrite filter_nil.
  change (path.intercalate [absolute_of dir; step +:+ String Js.slash (path.intercalate segs)])
    with (absolute_of dir +:+ String Js.slash
            (step +:+ String Js.slash (path.intercalate segs))).
  destruct (split_absolute_of dir Hdir) as [Hdsplit Hdfilter].
  rewrite normalize_absolute.
  - rewrite (split_app_slash (absolute_of dir)), (split_app_slash step).
    rewrite (split_intercalate segs Hsegs Hne).
    assert (Hs : path.split step = [step]) by (destruct Hstep as [-> | ->]; reflexivity).
    rewrite Hs. unfold path.normalize_segments.
    rewrite foldl_app.
    rewrite (foldl_push_plain false (path.split (absolute_of dir)) []) by assumption.
    rewrite Hdfilter, app_nil_r. reflexivity.
  - reflexivity.
  - replace (absolute_of dir +:+ String Js.slash
               (step +:+ String Js.slash (path.intercalate segs)))
      with ((absolute_of dir +:+ "/" +:+ step +:+ "/") +:+ path.intercalate segs)
      by (rewrite !app_assoc_s; reflexivity).
    now apply no_trailing_separator_segments.
Qed.

Lemma foldl_push_all_plain allow segs stack :
  Forall plain_segment segs ->
  foldl (path.push_segment allow) stack segs = reverse segs ++ stack.
Proof.
  intros Hsegs. rewrite foldl_push_plain.
  - now rewrite filter_plain.
  - eapply Forall_impl; [exact Hsegs|]. now right.
Qed.

Section Specifiers.
Context `{Host}.

Lemma strip_common_diverge common (up down : list string) :
  match up, down with
  | x :: _, y :: _ => x <> y
  | _, _ => True
  end ->
  path.strip_common (common ++ up) (common ++ down) = (up, down).
Proof.
  intros Hdiff. induction common as [|c common IH].
  - destruct up as [|x up'], down as [|y down']; simpl; try reflexivity.
    now rewrite bool_decide_eq_false_2.
  - simpl. now rewrite bool_decide_eq_true_2.
Qed.

Lemma relative_between common up down :
  Forall plain_segment common -> Forall plain_segment up -> Forall plain_segment down ->
  match up, down with
  | x :: _, y :: _ => x <> y
  | _, _ => True
  end ->
  path.relative cwd (absolute_of (common ++ up)) (absolute_of (common ++ down))
  = path.intercalate (replicate (length up) ".." ++ down).
Proof.
  intros Hc Hu Hd Hdiff.
  assert (Hfrom : Forall plain_segment (common ++ up)) by (apply Forall_app; now split).
  assert (Hto : Forall plain_segment (common ++ down)) by (apply Forall_app; now split).
  unfold path.relative. rewrite !resolve_absolute_of by assumption.
  destruct (decide (absolute_of (common ++ up) = absolute_of (common ++ down)))
    as [Heq|Hne].
  - rewrite bool_decide_eq_true_2 by assumption.
    apply absolute_of_inj in Heq; [|assumption..].
    apply app_inv_head in Heq. subst down.
    destruct up as [|x up']; [reflexivity | now destruct Hdiff].
  - rewrite !bool_decide_eq_false_2 by assumption.
    rewrite !segments_absolute_of by assumption.
    now rewrite strip_common_diverge.
Qed.

Lemma plain_head_not_relative segs :
  Forall plain_segment segs -> segs <> [] ->
  Js.is_relative_specifier (path.intercalate segs) = false.
Proof.
  intros Hsegs Hne.
  pose proof (split_intercalate segs Hsegs Hne) as Hsplit.
  unfold Js.is_relative_specifier.
  destruct (Js.starts_with "./" (path.intercalate segs)) eqn:H1.
  - apply starts_with_spec in H1 as [rest Hrest]. rewrite Hrest in Hsplit.
    change ("./" +:+ rest) with ("." +:+ String Js.slash rest) in Hsplit.
    rewrite split_app_slash in Hsplit. rewrite <- Hsplit in Hsegs.
    inversion Hsegs as [|? ? (_ & Hdot & _) _]. now destruct Hdot.
  - destruct (Js.starts_with "../" (path.intercalate segs)) eqn:H2; [|reflexivity].
    apply starts_with_spec in H2 as [rest Hrest]. rewrite Hrest in Hsplit.
    change ("../" +:+ rest) with (".." +:+ String Js.slash rest) in Hsplit.
    rewrite split_app_slash in Hsplit. rewrite <- Hsplit in Hsegs.
    inversion Hsegs as [|? ? (_ & _ & Hdots & _) _]. now destruct Hdots.
Qed.

(** X9: the specifier written for an import, for an importing file and a
    target at absolute destinations of plain segments: from the directory
    of the importing file, one [..] for each directory to leave, then the
    segments of the target; [./] in front when there is no directory to
    leave; and the final [.js] is dropped. *)
Theorem rewritten_specifier_between_destinations
  (common up down : list string) (file : string) :
  Forall plain_segment common -> Forall plain_segment up -> Forall plain_segment down ->
  plain_segment file -> down <> [] ->
  match up, down with
  | x :: _, y :: _ => x <> y
  | _, _ => True
  end ->
  relativeSpecifier (absolute_of (common ++ up ++ [file])) (absolute_of (common ++ down))
  = Js.strip_js
      (Js.replace_backslashes
         (path.intercalate
            (match up with
             | [] => "." :: down
             | _ => replicate (length up) ".." ++ down
             end))).
Proof.
  intros Hc Hu Hd Hfile Hne Hdiff. unfold relativeSpecifier.
  rewrite app_assoc, dirname_absolute_of by (try apply Forall_app; auto).
  rewrite relative_between by assumption.
  destruct up as [|x up'].
  - change (replicate (length []) ".." ++ down) with down. cbv zeta.
    rewrite plain_head_not_relative by assumption.
    rewrite (intercalate_cons "." down Hne). reflexivity.
  - assert (Hrel : Js.is_relative_specifier
                     (path.intercalate (replicate (length (x :: up')) ".." ++ down)) = true).
    { change (replicate (length (x :: up')) ".." ++ down)
        with (".." :: (replicate (length up') ".." ++ down)).
      rewrite intercalate_cons by (destruct up', down; simpl; congruence).
      reflexivity. }
    cbv zeta. now rewrite Hrel.
Qed.

End Specifiers.

Section RelativeImports.
Context `{Host}.
Variable options : IOptions.
Variable budget : nat.

Lemma rewriteImport_relative filePath importText p e fileContents st :
  shouldSkipImport options importText = false ->
  Js.is_relative_specifier importText = true ->
  rewriteImport options budget filePath (mkRef importText p e) fileContents st
  = (Ok fileContents,
     (enqueue (path.join [path.dirname filePath; importText] +:+ ".js") st).2).
Proof.
  intros Hskip Hrel. unfold rewriteImport. simpl. rewrite Hskip, Hrel. run_step.
  unfold enqueue. now destruct (truthy _).
Qed.

Lemma join_beside dir segs :
  Forall plain_segment dir -> Forall plain_segment segs -> segs <> [] ->
  path.join [absolute_of dir; "./" +:+ path.intercalate segs] = absolute_of (dir ++ segs).
Proof.
  intros Hdir Hsegs Hne.
  change ("./" +:+ path.intercalate segs)
    with ("." +:+ String Js.slash (path.intercalate segs)).
  rewrite join_relative_specifier by auto.
  change (path.push_segment false (reverse dir) ".") with (reverse dir).
  rewrite foldl_push_all_plain by assumption.
  now rewrite reverse_app, !reverse_involutive.
Qed.

Lemma join_above dir d segs :
  Forall plain_segment dir -> plain_segment d -> Forall plain_segment segs -> segs <> [] ->
  path.join [absolute_of (dir ++ [d]); "../" +:+ path.intercalate segs]
  = absolute_of (dir ++ segs).
Proof.
  intros Hdir Hd Hsegs Hne.
  change ("../" +:+ path.intercalate segs)
    with (".." +:+ String Js.slash (path.intercalate segs)).
  assert (Hall : Forall plain_segment (dir ++ [d]))
    by (apply Forall_app; split; [assumption | now constructor]).
  rewrite join_relative_specifier by auto.
  rewrite reverse_snoc. unfold path.push_segment at 2. simpl.
  rewrite (bool_decide_eq_false_2 (d = "..")) by apply Hd.
  rewrite foldl_push_all_plain by assumption.
  now rewrite reverse_app, !reverse_involutive.
Qed.

End RelativeImports.

(** X10: a relative import that is not skipped is enqueued as the file it
    names from the directory of the importing file, with [.js] added:
    [./] stays in that directory, [../] leaves it; the text of the file
    is returned as it is. *)
Theorem relative_import_is_resolved_from_the_importer `{Host} (options : IOptions)
  (budget : nat) (dir segs : list string) (d file fileContents : string) (p e : Z)
  (st : State) :
  Forall plain_segment dir -> plain_segment d -> plain_segment file ->
  Forall plain_segment segs -> segs <> [] ->
  (shouldSkipImport options ("./" +:+ path.intercalate segs) = false ->
   rewriteImport options budget (absolute_of (dir ++ [file]))
     (mkRef ("./" +:+ path.intercalate segs) p e) fileContents st
   = (Ok fileContents, (enqueue (absolute_of (dir ++ segs) +:+ ".js") st).2))
  /\ (shouldSkipImport options ("../" +:+ path.intercalate segs) = false ->
      rewriteImport options budget (absolute_of (dir ++ [d; file]))
        (mkRef ("../" +:+ path.intercalate segs) p e) fileContents st
      = (Ok fileContents, (enqueue (absolute_of (dir ++ segs) +:+ ".js") st).2)).
Proof.
  intros Hdir Hd Hfile Hsegs Hne. split; intros Hskip.
  - rewrite rewriteImport_relative by (assumption || reflexivity).
    rewrite dirname_absolute_of by assumption.
    now rewrite join_beside.
  - rewrite rewriteImport_relative by (assumption || reflexivity).
    change (dir ++ [d; file]) with (dir ++ [d] ++ [file]).
    assert (Hall : Forall plain_segment (dir ++ [d]))
      by (apply Forall_app; split; [assumption | now constructor]).
    rewrite app_assoc, dirname_absolute_of by assumption.
    now rewrite join_above.
Qed.

Lemma len_absolute_of_app a b :
  Forall plain_segment b -> b <> [] ->
  (Js.len (absolute_of a) < Js.len (absolute_of (a ++ b)))%nat.
Proof.
  intros Hb Hne. unfold absolute_of. rewrite !len_app.
  assert (Hpos : (0 < Js.len (path.intercalate b))%nat).
  { pose proof (intercalate_not_empty b Hb Hne).
    destruct (path.intercalate b); [contradiction | unfold Js.len; simpl; lia]. }
  destruct a as [|x a']; [simpl; unfold Js.len in *; simpl; lia|].
  rewrite intercalate_app by (assumption || discriminate).
  rewrite len_app. unfold Js.len in *. simpl. lia.
Qed.

Lemma upward_take segs k j :
  (k <= j)%nat -> upward (take j segs) k = upward segs k.
Proof.
  intros Hk. induction k as [|k IH]; [reflexivity|].
  simpl. rewrite IH by lia. f_equal.
  rewrite list.take_take. f_equal. lia.
Qed.

Section Candidates.
Context `{Host}.
Variable module : string.
Variable root : list string.
Hypothesis Hroot : Forall plain_segment root.
Hypothesis Hinside : root <> [].

Lemma generatePaths_loop_upward n segs acc :
  Forall plain_segment segs -> (length segs < n)%nat ->
  generatePaths_loop n (absolute_of root) module (absolute_of (root ++ segs)) acc
  = Ok (acc ++ map (fun l => candidate module (absolute_of (root ++ l)))
                 (upward segs (length segs))).
Proof.
  revert n acc. induction segs as [|x segs IH] using rev_ind; intros n acc Hsegs Hn.
  - destruct n as [|n]; [simpl in Hn; lia|].
    rewrite app_nil_r. simpl.
    assert (Hge : (Js.length (absolute_of root) >=? Js.length (absolute_of root)) = true)
      by (apply Z.geb_le; lia).
    rewrite Hge.
    assert (Hlast : exists init z, root = init ++ [z]).
    { destruct (last root) as [z|] eqn:Hl.
      - apply last_Some in Hl as [init ->]. now exists init, z.
      - assert (His : is_Some (last root)) by now apply last_is_Some.
        rewrite Hl in His. now destruct His. }
    destruct Hlast as (init & z & Hz).
    assert (Hdir : path.dirname (absolute_of root) = absolute_of init).
    { rewrite Hz in *. apply Forall_app in Hroot as [Hi Hzp].
      inversion Hzp; subst. now apply dirname_absolute_of. }
    rewrite Hdir.
    assert (Hlt : (Js.len (absolute_of init) < Js.len (absolute_of root))%nat).
    { rewrite Hz in *. apply Forall_app in Hroot as [_ Hzp].
      apply len_absolute_of_app; [assumption | discriminate]. }
    assert (Hstop : (Js.length (absolute_of init) >=? Js.length (absolute_of root)) = false).
    { rewrite Z.geb_leb. apply Z.leb_gt. unfold Js.length. lia. }
    destruct n; simpl; rewrite Hstop; now rewrite app_nil_r.
  - destruct n as [|n]; [lia|].
    apply Forall_app in Hsegs as [Hinit Hx]. inversion Hx as [|? ? Hxp _]; subst.
    rewrite length_app in *. simpl in Hn.
    change (generatePaths_loop (S n) (absolute_of root) module
              (absolute_of (root ++ segs ++ [x])) acc)
      with (if Js.length (absolute_of (root ++ segs ++ [x])) >=? Js.length (absolute_of root)
            then generatePaths_loop n (absolute_of root) module
                   (path.dirname (absolute_of (root ++ segs ++ [x])))
                   (acc ++ [path.join [absolute_of (root ++ segs ++ [x]);
                                       "node_modules"; module]])
            else Ok acc).
    assert (Hge : (Js.length (absolute_of (root ++ segs ++ [x]))
                   >=? Js.length (absolute_of root)) = true).
    { apply Z.geb_le. unfold Js.length.
      pose proof (len_absolute_of_app root (segs ++ [x])) as Hlen.
      assert ((Js.len (absolute_of root) < Js.len (absolute_of (root ++ segs ++ [x])))%nat).
      { apply Hlen; [apply Forall_app; now split | now destruct segs]. }
      lia. }
    rewrite Hge, app_assoc, dirname_absolute_of
      by (try apply Forall_app; auto).
    rewrite IH by (assumption || lia).
    rewrite <- (app_assoc acc). do 2 f_equal.
    replace (length segs + length [x])%nat with (S (length segs)) by (simpl; lia).
    change (upward (segs ++ [x]) (S (length segs)))
      with (take (S (length segs)) (segs ++ [x]) :: upward (segs ++ [x]) (length segs)).
    rewrite firstn_all2 by (rewrite length_app; simpl; lia).
    rewrite <- (upward_take (segs ++ [x]) (length segs) (length segs)) by lia.
    rewrite list.take_app_length. simpl. unfold candidate at 1.
    now rewrite (app_assoc root).
Qed.

End Candidates.

Lemma last_upward segs k : last (upward segs k) = Some [].
Proof.
  induction k as [|k IH]; [reflexivity|].
  simpl. destruct (upward segs k) eqn:Hu; [discriminate | exact IH].
Qed.

(** X11: for a file under the repository root, at absolute paths of plain
    segments, the walk tests the directory of the file, then each
    directory above it, and the repository root last. *)
Theorem candidates_from_the_file_up_to_the_root `{Host} (n : nat) (module file : string)
  (root segs : list string) :
  Forall plain_segment root -> root <> [] ->
  Forall plain_segment segs -> plain_segment file ->
  (length segs < n)%nat ->
  let tested :=
    map (fun l => candidate module (absolute_of (root ++ l)))
      (upward segs (length segs)) in
  generatePaths n (absolute_of root) module (absolute_of (root ++ segs ++ [file]))
  = Ok tested
  /\ last tested = Some (candidate module (absolute_of root)).
Proof.
  intros Hroot Hne Hsegs Hfile Hn. cbv zeta. split.
  - unfold generatePaths.
    rewrite app_assoc, dirname_absolute_of by (try apply Forall_app; auto).
    now rewrite (generatePaths_loop_upward module root Hroot Hne n segs []).
  - rewrite fmap_last, last_upward. simpl. now rewrite app_nil_r.
Qed.

(** ** Directories *)

Section Directories.
Context `{Host}.

Lemma directoriesMade_app l1 l2 :
  directoriesMade (l1 ++ l2) = directoriesMade l1 ++ directoriesMade l2.
Proof. apply omap_app. Qed.

Lemma createDirectoryRecursive_seen dir st :
  truthy (seenDir st !! dir) = true -> createDirectoryRecursive dir st = (Ok tt, st).
Proof.
  revert dir st.
  apply (createDirectoryRecursive_elim
           (fun dir m => forall st, truthy (seenDir st !! dir) = true -> m st = (Ok tt, st))).
  - intros dir parent _ _ _ st Hseen. now rewrite Hseen.
  - intros dir _ _ st Hseen. now rewrite Hseen.
Qed.

(** What [createDirectoryRecursive] does for a directory that is not
    marked: the parent first, then the mark and the call of [mkdirSync]. *)
Lemma createDirectoryRecursive_unseen dir st :
  truthy (seenDir st !! dir) = false ->
  createDirectoryRecursive dir st =
    let st1 := match parentDirectory dir with
               | Some parent => (createDirectoryRecursive parent st).2
               | None => st
               end in
    fs_mkdirSync_quiet dir (mark_seenDir dir st1).2.
Proof.
  revert dir st.
  apply (createDirectoryRecursive_elim
           (fun dir m => forall st,
                truthy (seenDir st !! dir) = false ->
                m st = let st1 := match parentDirectory dir with
                                  | Some parent => (createDirectoryRecursive parent st).2
                                  | None => st
                                  end in
                       fs_mkdirSync_quiet dir (mark_seenDir dir st1).2)).
  - intros dir parent Hparent _ _ st Hseen. rewrite Hseen, Hparent. run_step.
    pose proof (createDirectoryRecursive_ok parent st) as Hok.
    destruct (createDirectoryRecursive parent st) as [r st1]. simpl in *. now subst r.
  - intros dir Hnone _ st Hseen. rewrite Hseen, Hnone. now run_step.
Qed.

Lemma parentDirectory_shorter dir parent :
  parentDirectory dir = Some parent -> (Js.len parent < Js.len dir)%nat.
Proof.
  intros Hparent.
  assert (Hlast : forall c s i acc j,
             Js.last_index_from c s i acc = Some j ->
             acc = Some j \/ (i <= j < i + Js.len s)%nat).
  { intros c s. induction s as [|a s IH]; intros i acc j Hj; simpl in Hj.
    - left; exact Hj.
    - apply IH in Hj. unfold Js.len in *. simpl. destruct Hj as [Hj|Hj]; [|right; lia].
      destruct (Ascii.eqb a c); [right|left; exact Hj].
      inversion Hj; lia. }
  assert (Hidx : forall c, (-1 <= Js.lastIndexOf dir c < Js.length dir)%Z).
  { intros c. unfold Js.lastIndexOf, Js.length.
    destruct (Js.last_index_from c dir 0 None) as [j|] eqn:Hj; [|lia].
    apply Hlast in Hj. destruct Hj as [Hj|Hj]; [discriminate|lia]. }
  unfold parentDirectory in Hparent.
  destruct (lastSeparator dir =? -1) eqn:Hsep; [discriminate|].
  inversion Hparent; subst parent; clear Hparent.
  apply Z.eqb_neq in Hsep.
  assert (Hlt : (-1 <= lastSeparator dir < Js.length dir)%Z).
  { unfold lastSeparator. destruct (_ =? -1); apply Hidx. }
  rewrite substring_prefix by lia. rewrite len_take.
  unfold Js.length in Hlt. lia.
Qed.

Lemma seenDir_mkdir dir st : seenDir (fs_mkdirSync_quiet dir st).2 = seenDir st.
Proof. unfold fs_mkdirSync_quiet. run_step. simpl. now destruct (mkdirSync (fs st) dir). Qed.

Lemma log_mkdir dir st : log (fs_mkdirSync_quiet dir st).2 = log st ++ [EvMkdir dir].
Proof. unfold fs_mkdirSync_quiet. run_step. simpl. now destruct (mkdirSync (fs st) dir). Qed.

(** The marks on longer paths are not touched. *)
Lemma createDirectoryRecursive_longer dir st key :
  (Js.len dir < Js.len key)%nat ->
  seenDir (createDirectoryRecursive dir st).2 !! key = seenDir st !! key.
Proof.
  remember (Js.len dir) as m eqn:Hm. revert dir Hm st.
  induction (lt_wf m) as [m _ IH]. intros dir -> st Hkey.
  destruct (truthy (seenDir st !! dir)) eqn:Hseen.
  - now rewrite createDirectoryRecursive_seen.
  - rewrite createDirectoryRecursive_unseen by assumption. cbv zeta.
    rewrite seenDir_mkdir. unfold mark_seenDir at 1. simpl.
    rewrite lookup_insert_ne by (intros ->; lia).
    destruct (parentDirectory dir) as [parent|] eqn:Hparent; [|reflexivity].
    pose proof (parentDirectory_shorter _ _ Hparent).
    apply (IH (Js.len parent)); [assumption | reflexivity | lia].
Qed.

Lemma createDirectoryRecursive_marks dir st :
  truthy (seenDir (createDirectoryRecursive dir st).2 !! dir) = true.
Proof.
  destruct (truthy (seenDir st !! dir)) eqn:Hseen.
  - now rewrite createDirectoryRecursive_seen.
  - rewrite createDirectoryRecursive_unseen by assumption. cbv zeta.
    rewrite seenDir_mkdir. unfold mark_seenDir. simpl. now rewrite lookup_insert_eq.
Qed.

Lemma made_once_ext root st st' :
  seenDir st' = seenDir st ->
  directoriesMade (log st') = directoriesMade (log st) ->
  made_once root st -> made_once root st'.
Proof. unfold made_once. intros -> ->. auto. Qed.

Lemma made_once_step root dir st :
  made_once root st -> truthy (seenDir st !! dir) = false ->
  made_once root (fs_mkdirSync_quiet dir (mark_seenDir dir st).2).2.
Proof.
  intros (Hnd & Hseen & Hroot & Hnot) Hdir. unfold made_once.
  rewrite seenDir_mkdir, log_mkdir. unfold mark_seenDir. simpl.
  rewrite directoriesMade_app. simpl.
  assert (Hfresh : dir ∉ directoriesMade (log st)).
  { intros Hin. apply Hseen in Hin. congruence. }
  assert (Hne : dir <> root) by (intros ->; congruence).
  split; [|split; [|split]].
  - apply NoDup_app. split; [exact Hnd|]. split; [|apply NoDup_singleton].
    intros d Hd Hd'. apply list_elem_of_singleton in Hd'. now subst.
  - intros d Hd. apply elem_of_app in Hd as [Hd|Hd].
    + destruct (decide (dir = d)) as [->|Hdd]; [now rewrite lookup_insert_eq|].
      rewrite lookup_insert_ne by assumption. now apply Hseen.
    + apply list_elem_of_singleton in Hd. subst. now rewrite lookup_insert_eq.
  - now rewrite lookup_insert_ne.
  - intros Hin. apply elem_of_app in Hin as [Hin|Hin]; [contradiction|].
    apply list_elem_of_singleton in Hin. congruence.
Qed.

Lemma made_once_createDirectoryRecursive root dir st :
  made_once root st -> made_once root (createDirectoryRecursive dir st).2.
Proof.
  remember (Js.len dir) as m eqn:Hm. revert dir Hm st.
  induction (lt_wf m) as [m _ IH]. intros dir -> st Hst.
  destruct (truthy (seenDir st !! dir)) eqn:Hseen.
  - now rewrite createDirectoryRecursive_seen.
  - rewrite createDirectoryRecursive_unseen by assumption. cbv zeta.
    destruct (parentDirectory dir) as [parent|] eqn:Hparent.
    + pose proof (parentDirectory_shorter _ _ Hparent) as Hshort.
      apply made_once_step.
      * apply (IH (Js.len parent)); [assumption | reflexivity | assumption].
      * now rewrite createDirectoryRecursive_longer.
    + now apply made_once_step.
Qed.

End Directories.

Section Quiet.
Context `{Host}.
Variable options : IOptions.
Variable budget : nat.

(** What resolving and enqueueing keep, the loop over the references
    keeps. *)
Lemma preserves_rewriteInOrder_quiet (I : State -> Prop) filePath todo fileContents :
  (forall st evs, Forall is_observation evs -> I st -> I (with_log st evs)) ->
  (forall st f, I st -> I (enqueue f st).2) ->
  preserves I (rewriteInOrder options budget filePath todo fileContents).
Proof.
  intros Hobs Henq.
  assert (Hone : forall ref c, preserves I (rewriteImport options budget filePath ref c)).
  { intros ref c. unfold rewriteImport.
    destruct (shouldSkipImport options (fileName ref)); [now apply preserves_pure|].
    destruct (Js.is_relative_specifier (fileName ref)).
    - apply preserves_bind; [intros st; apply Henq|]. intros _. now apply preserves_pure.
    - apply preserves_bind.
      { intros st Hst.
        destruct (observer_resolveBare options budget (fileName ref) filePath st)
          as (r & evs & -> & Hevs & _). simpl. now apply Hobs. }
      intros importedFilename.
      apply preserves_bind; [now apply preserves_pure|]. intros myDestinationPath.
      apply preserves_bind; [now apply preserves_pure|]. intros importDestinationPath.
      apply preserves_bind; [intros st; apply Henq|]. intros _. now apply preserves_pure. }
  revert fileContents. induction todo as [|ref todo IH]; intros fileContents.
  - now apply preserves_pure.
  - simpl. apply preserves_bind; [apply Hone | exact IH].
Qed.

Variable root : string.

Lemma directoriesMade_observations evs :
  Forall is_observation evs -> directoriesMade evs = [].
Proof.
  induction 1 as [|e evs He _ IH]; [reflexivity|].
  destruct e; simpl in *; try contradiction; exact IH.
Qed.

Lemma made_once_observations st evs :
  Forall is_observation evs -> made_once root st -> made_once root (with_log st evs).
Proof.
  intros Hevs. apply made_once_ext; [reflexivity|]. unfold with_log. simpl.
  rewrite directoriesMade_app, (directoriesMade_observations evs) by assumption.
  now rewrite app_nil_r.
Qed.

Lemma made_once_enqueue st f : made_once root st -> made_once root (enqueue f st).2.
Proof.
  unfold enqueue. destruct (truthy (in_queue st !! f)); [auto|].
  apply made_once_ext; [reflexivity|]. simpl.
  rewrite directoriesMade_app. simpl. now rewrite app_nil_r.
Qed.

Lemma made_once_processFile f st :
  made_once root st -> made_once root (processFile options budget f st).2.
Proof.
  intros Hst. rewrite processFile_run. cbv zeta.
  assert (H1 : made_once root (with_log st [EvReadSource f (readFileSync (fs st) f)])).
  { revert Hst. apply made_once_ext; [reflexivity|]. unfold with_log. simpl.
    rewrite directoriesMade_app. simpl. now rewrite app_nil_r. }
  destruct (readFileSync (fs st) f) as [src|]; [|exact H1].
  pose proof (preserves_rewriteInOrder_quiet (made_once root) f
                (reverse (preProcessFile src)) src
                made_once_observations made_once_enqueue _ H1) as H2.
  destruct (rewriteInOrder options budget f (reverse (preProcessFile src)) src _)
    as [[out| |] st2]; simpl in H2; try exact H2.
  rewrite write_run.
  destruct (computeDestinationFilePath options budget f) as [dest| |]; try exact H2.
  pose proof (made_once_createDirectoryRecursive root (path.dirname dest) st2 H2) as H3.
  cbv zeta.
  destruct (writeFileSync _ dest out); simpl; revert H3;
    (apply made_once_ext; [reflexivity|]); simpl;
    rewrite directoriesMade_app; simpl; now rewrite app_nil_r.
Qed.

Lemma made_once_mainLoop n st :
  made_once root st -> made_once root (mainLoop options budget n st).2.
Proof.
  revert st. induction n as [|n IH]; intros st Hst; simpl;
    destruct (queue st) as [|f rest]; simpl; try exact Hst.
  run_step.
  set (st0 := mkState (fs st) (in_queue st) rest (seenDir st) (log st)).
  assert (H0 : made_once root st0) by exact Hst.
  pose proof (made_once_processFile f st0 H0) as H1.
  destruct (processFile options budget f st0) as [[[]| |] st1]; simpl in *;
    try exact H1.
  now apply IH.
Qed.

Lemma made_once_enqueueEntryPoints entries st :
  made_once root st -> made_once root (enqueueEntryPoints options entries st).2.
Proof.
  revert st. induction entries as [|e entries IH]; intros st Hst; [exact Hst|].
  simpl. run_step.
  pose proof (made_once_enqueue st (path.join [ESM_SRC options; e]) Hst) as H1.
  destruct (enqueue (path.join [ESM_SRC options; e]) st) as [[[]| |] st1] eqn:Henq;
    simpl in *; try exact H1.
  now apply IH.
Qed.

End Quiet.

Lemma made_once_initialState `{Host} options disk :
  made_once (repoRoot options) (initialState options disk).
Proof.
  unfold made_once, initialState. simpl. split; [constructor|].
  split; [intros d Hd; inversion Hd|].
  split; [now rewrite lookup_insert_eq|]. intros Hd; inversion Hd.
Qed.

(** X12: [createDirectoryRecursive] never fails, whatever [mkdirSync]
    does; afterwards the directory is marked, and a second call does
    nothing at all. *)
Theorem createDirectoryRecursive_idempotent `{Host} (dir : string) (st : State) :
  let st1 := (createDirectoryRecursive dir st).2 in
  (createDirectoryRecursive dir st).1 = Ok tt
  /\ truthy (seenDir st1 !! dir) = true
  /\ createDirectoryRecursive dir st1 = (Ok tt, st1).
Proof.
  cbv zeta. split; [apply createDirectoryRecursive_ok|].
  split; [apply createDirectoryRecursive_marks|].
  apply createDirectoryRecursive_seen, createDirectoryRecursive_marks.
Qed.

Section Prefixes.
Context `{Host}.

Lemma parentDirectory_prefix dir parent :
  parentDirectory dir = Some parent -> exists k, parent = Js.take k dir.
Proof.
  unfold parentDirectory. destruct (lastSeparator dir =? -1); [discriminate|].
  intros [= <-]. unfold Js.substring. eexists.
  assert (Hc0 : Js.clamp dir 0 = 0%nat) by (unfold Js.clamp, Js.length; lia).
  rewrite Hc0, Nat.min_0_l, Nat.max_0_l, Nat.sub_0_r.
  now destruct dir.
Qed.

Lemma take_of_take j k s : exists i, Js.take j (Js.take k s) = Js.take i s.
Proof.
  destruct (Nat.le_gt_cases j k) as [Hle|Hgt].
  - exists j. now apply take_take.
  - exists k. apply take_all. rewrite len_take. lia.
Qed.

(** X13: the directories [createDirectoryRecursive] passes to
    [mkdirSync] are prefixes of the directory asked for, the shorter
    ones first, so a parent comes before its children; when any is
    made the directory itself is the last one, and none is made when it
    is marked already. *)
Theorem createDirectoryRecursive_parents_first (dir : string) (st : State) :
  exists dirs,
    log (createDirectoryRecursive dir st).2 = log st ++ map EvMkdir dirs
    /\ Forall (fun d => exists k, d = Js.take k dir) dirs
    /\ StronglySorted (fun a b => (Js.len a < Js.len b)%nat) dirs
    /\ (truthy (seenDir st !! dir) = true -> dirs = [])
    /\ (dirs <> [] -> last dirs = Some dir).
Proof.
  remember (Js.len dir) as m eqn:Hm. revert dir Hm st.
  induction (lt_wf m) as [m _ IH]. intros dir -> st.
  destruct (truthy (seenDir st !! dir)) eqn:Hseen.
  - exists []. rewrite createDirectoryRecursive_seen by assumption. simpl.
    rewrite app_nil_r. repeat split; try constructor. intros Hne. now destruct Hne.
  - rewrite createDirectoryRecursive_unseen by assumption. cbv zeta.
    rewrite log_mkdir. unfold mark_seenDir at 1. simpl.
    assert (Hself : exists k, dir = Js.take k dir).
    { exists (Js.len dir). symmetry. now apply take_all. }
    destruct (parentDirectory dir) as [parent|] eqn:Hparent.
    + pose proof (parentDirectory_shorter _ _ Hparent) as Hshort.
      destruct (parentDirectory_prefix _ _ Hparent) as [k Hk].
      destruct (IH (Js.len parent) Hshort parent eq_refl st)
        as (dirs & -> & Hpre & Hsorted & _).
      exists (dirs ++ [dir]). rewrite map_app, app_assoc. split; [reflexivity|].
      split; [|split; [|split]].
      * apply Forall_app. split; [|now repeat constructor].
        eapply Forall_impl; [exact Hpre|]. intros d [j ->]. rewrite Hk.
        apply take_of_take.
      * apply StronglySorted_app_2; [|exact Hsorted | repeat constructor].
        intros a b Ha Hb. apply list_elem_of_singleton in Hb. subst b.
        rewrite Forall_forall in Hpre. destruct (Hpre a Ha) as [j ->].
        rewrite len_take. lia.
      * discriminate.
      * intros _. now rewrite last_snoc.
    + exists [dir]. split; [reflexivity|]. split; [now repeat constructor|].
      split; [repeat constructor|]. split; [discriminate | reflexivity].
Qed.

End Prefixes.

(** X14: in a run of [packageESM], whatever its outcome, [fs.mkdirSync] is
    called once at most for a directory, and never for the repository
    root. *)
Theorem directories_made_once `{Host} (n : nat) (options : IOptions) (disk : FS) :
  let st := (packageESM n options disk).1.2 in
  let after := (packageESM n options disk).2 in
  NoDup (directoriesMade (log st))
  /\ repoRoot after ∉ directoriesMade (log st).
Proof.
  change (packageESM n options disk).1
    with ((enqueueEntryPoints (normalizeRepoRoot options)
             (entryPoints (normalizeRepoRoot options));;
           mainLoop (normalizeRepoRoot options) n n)
            (initialState (normalizeRepoRoot options) disk)).
  change (packageESM n options disk).2 with (normalizeRepoRoot options).
  set (after := normalizeRepoRoot options). cbv zeta.
  pose proof (made_once_enqueueEntryPoints after (repoRoot after) (entryPoints after) _
                (made_once_initialState after disk)) as H0.
  pose proof (enqueueEntryPoints_ok after (entryPoints after) (initialState after disk))
    as Hok.
  run_step.
  destruct (enqueueEntryPoints after (entryPoints after) (initialState after disk))
    as [r st0]. simpl in H0, Hok. subst r.
  destruct (made_once_mainLoop after n (repoRoot after) n st0 H0) as (Hnd & _ & _ & Hroot).
  split; assumption.
Qed.

(** ** The shape of a rewritten specifier *)

Lemma is_relative_replace_backslashes s :
  Js.is_relative_specifier s = true ->
  Js.is_relative_specifier (Js.replace_backslashes s) = true.
Proof.
  unfold Js.is_relative_specifier.
  intros [Hs|Hs]%orb_true_iff; apply starts_with_spec in Hs as [rest ->];
    apply orb_true_iff; [left | right]; apply starts_with_spec;
    exists (Js.replace_backslashes rest); reflexivity.
Qed.

Lemma is_relative_strip_js s :
  Js.is_relative_specifier s = true -> Js.is_relative_specifier (Js.strip_js s) = true.
Proof.
  unfold Js.is_relative_specifier.
  intros [Hs|Hs]%orb_true_iff; apply starts_with_spec in Hs as [rest ->];
    apply orb_true_iff; [left | right]; apply starts_with_spec.
  - exists (Js.strip_js rest). reflexivity.
  - exists (Js.strip_js rest). reflexivity.
Qed.

(** X15: the specifier written in place of a bare one starts with [./] or
    [../], whatever the two destinations are. *)
Theorem rewritten_specifier_is_relative `{Host}
  (myDestinationPath importDestinationPath : string) :
  Js.is_relative_specifier (relativeSpecifier myDestinationPath importDestinationPath)
  = true.
Proof.
  unfold relativeSpecifier.
  apply is_relative_strip_js, is_relative_replace_backslashes.
  destruct (Js.is_relative_specifier (path.relative cwd _ _)) eqn:Hrel; simpl;
    [exact Hrel | reflexivity].
Qed.

(** ** The walk with a short root *)

Lemma generatePaths_loop_short_root n repoRoot module dir acc :
  (Js.len repoRoot <= 1)%nat -> (1 <= Js.len dir)%nat ->
  generatePaths_loop n repoRoot module dir acc = Diverge WalkLoop.
Proof.
  intros Hroot. revert dir acc. induction n as [|n IH]; intros dir acc Hdir; simpl;
    (assert (Hge : (Js.length dir >=? Js.length repoRoot) = true)
      by (apply Z.geb_le; unfold Js.length; lia));
    rewrite Hge; [reflexivity|].
  apply IH. apply dirname_length.
Qed.

(** X16: with a repository root of one character or none the upward walk
    never ends: no directory name is shorter than the root, so the loop
    of [generatePaths] goes on, and the resolution of the import does not
    return. *)
Theorem walk_with_short_root_never_ends `{Host} (n : nat)
  (repoRoot module sourceFilePath : string) (st : State) :
  (Js.len repoRoot <= 1)%nat ->
  generatePaths n repoRoot module sourceFilePath = Diverge WalkLoop
  /\ findNodeModuleImport n repoRoot module sourceFilePath st = (Diverge WalkLoop, st).
Proof.
  intros Hroot.
  assert (Hwalk : generatePaths n repoRoot module sourceFilePath = Diverge WalkLoop).
  { unfold generatePaths. apply generatePaths_loop_short_root; [exact Hroot|].
    apply dirname_length. }
  split; [exact Hwalk|].
  unfold findNodeModuleImport, findNodeModule. run_step. now rewrite Hwalk.
Qed.

(** ** Resolution only looks *)

(** X17: [findNodeModuleImport] leaves the file system, the queue and the
    set of created directories as they are, whatever its outcome: all it
    does is test paths and read manifests. *)
Theorem findNodeModuleImport_only_looks `{Host} (n : nat)
  (repoRoot module sourceFilePath : string) (st : State) :
  let st' := (findNodeModuleImport n repoRoot module sourceFilePath st).2 in
  fs st' = fs st /\ in_queue st' = in_queue st /\ queue st' = queue st
  /\ seenDir st' = seenDir st
  /\ exists evs, log st' = log st ++ evs /\ Forall is_observation evs.
Proof.
  destruct (observer_findNodeModuleImport n repoRoot module sourceFilePath st)
    as (r & evs & Hrun & Hevs & _).
  cbv zeta. rewrite Hrun. simpl. repeat split. now exists evs.
Qed.

(** X18: the candidates are tested in order and the first one that exists
    is returned; the candidates after it are not tested. *)
Theorem findNodeModule_stops_at_first_hit `{Host} (module sourceFilePath : string)
  (modulePaths : list string) (st st' : State) (found : string) :
  findNodeModule_loop module sourceFilePath modulePaths st = (Ok found, st') ->
  exists before after,
    modulePaths = before ++ found :: after
    /\ Forall (fun c => existsSync (fs st) c = false) before
    /\ existsSync (fs st) found = true
    /\ st' = with_log st (map (fun c => EvExists c false) before ++ [EvExists found true]).
Proof.
  revert st. induction modulePaths as [|c more IH]; intros st; simpl; [discriminate|].
  unfold fs_existsSync. run_step. simpl.
  destruct (existsSync (fs st) c) eqn:Hc.
  - intros [= <- <-]. exists [], more. simpl. repeat split; auto.
  - fold (with_log st [EvExists c false]). intros Hrun.
    apply IH in Hrun as (before & after & -> & Hbefore & Hfound & ->).
    exists (c :: before), after. simpl in *.
    split; [reflexivity|]. split; [constructor; assumption|]. split; [exact Hfound|].
    now rewrite with_log_app.
Qed.

(** ** The skip list *)

(** X19: an import is skipped exactly when its specifier starts with one
    of the entries of [resolveSkip]. *)
Theorem skipped_iff_prefixed (options : IOptions) (importText : string) :
  shouldSkipImport options importText = true
  <-> exists skip rest, skip ∈ resolveSkip options /\ importText = skip +:+ rest.
Proof. apply shouldSkipImport_spec. Qed.

Section Copies.
Context `{Host}.
Variable options : IOptions.
Variable budget : nat.

Lemma createDirectoryRecursive_log dir st :
  exists dirs, log (createDirectoryRecursive dir st).2 = log st ++ map EvMkdir dirs.
Proof.
  apply (preserves_createDirectoryRecursive_steps
           (fun st' => exists dirs, log st' = log st ++ map EvMkdir dirs) dir).
  - intros st' d Hst'. exact Hst'.
  - intros st' d [dirs Hdirs]. exists (dirs ++ [d]).
    unfold fs_mkdirSync_quiet. run_step. simpl.
    destruct (mkdirSync (fs st') d); simpl; now rewrite Hdirs, map_app, app_assoc.
  - exists []. simpl. now rewrite app_nil_r.
Qed.

Hypothesis Hskip : "" ∈ resolveSkip options.

Lemma shouldSkipImport_always importText : shouldSkipImport options importText = true.
Proof. apply shouldSkipImport_spec. now exists "", importText. Qed.

Lemma rewriteInOrder_all_skipped filePath todo fileContents st :
  rewriteInOrder options budget filePath todo fileContents st = (Ok fileContents, st).
Proof.
  induction todo as [|ref todo IH]; [reflexivity|].
  simpl. run_step. unfold rewriteImport at 1. rewrite shouldSkipImport_always.
  exact IH.
Qed.


Lemma processFile_copies f st :
  exists evs,
    log (processFile options budget f st).2
    = log st ++ EvReadSource f (readFileSync (fs st) f) :: evs
    /\ Forall (copying f (readFileSync (fs st) f)) evs.
Proof.
  rewrite processFile_run. cbv zeta.
  destruct (readFileSync (fs st) f) as [src|] eqn:Hsrc;
    [|exists []; split; [reflexivity | constructor]].
  rewrite rewriteInOrder_all_skipped, write_run.
  destruct (computeDestinationFilePath options budget f) as [dest| |];
    try (exists []; split; [reflexivity | constructor]).
  cbv zeta.
  destruct (createDirectoryRecursive_log (path.dirname dest)
              (with_log st [EvReadSource f (Some src)])) as [dirs Hdirs].
  exists (map EvMkdir dirs ++ [EvWrite f dest src]). split.
  - destruct (writeFileSync _ dest src); simpl; rewrite Hdirs; simpl;
      now rewrite <- !app_assoc.
  - apply Forall_app. split; [|repeat constructor].
    apply Forall_forall. intros e [d [-> _]]%list_elem_of_fmap. exact I.
Qed.

End Copies.


Section VerbatimRun.
Context `{Host}.
Variable options : IOptions.
Variable budget : nat.
Hypothesis Hskip : "" ∈ resolveSkip options.
Variable entries : list string.

Lemma verbatim_processFile f st :
  verbatim entries (log st) -> verbatim entries (log (processFile options budget f st).2).
Proof.
  intros (Henq & Hwr & Hobs).
  destruct (processFile_copies options budget Hskip f st) as (evs & -> & Hevs).
  rewrite Forall_forall in Hevs.
  split; [|split].
  - intros g Hg. apply elem_of_app in Hg as [Hg|Hg]; [now apply Henq|].
    apply elem_of_cons in Hg as [Hg|Hg]; [discriminate|].
    apply Hevs in Hg. contradiction.
  - intros g dest out Hg. apply elem_of_app in Hg as [Hg|Hg].
    + apply elem_of_app. left. eapply Hwr, Hg.
    + apply elem_of_cons in Hg as [Hg|Hg]; [discriminate|].
      apply Hevs in Hg. destruct Hg as [-> ->].
      apply elem_of_app. right. left.
  - intros e He. apply elem_of_app in He as [He|He]; [now apply Hobs|].
    apply elem_of_cons in He as [->|He]; [auto|].
    apply Hevs in He. destruct e; simpl in *; auto.
Qed.

Lemma verbatim_mainLoop n st :
  verbatim entries (log st) -> verbatim entries (log (mainLoop options budget n st).2).
Proof.
  revert st. induction n as [|n IH]; intros st Hst; simpl;
    destruct (queue st) as [|f rest]; simpl; try exact Hst.
  run_step.
  set (st0 := mkState (fs st) (in_queue st) rest (seenDir st) (log st)).
  pose proof (verbatim_processFile f st0 Hst) as H1.
  destruct (processFile options budget f st0) as [[[]| |] st1]; simpl in *;
    try exact H1.
  now apply IH.
Qed.

Lemma verbatim_enqueueEntryPoints todo st :
  (forall entry, entry ∈ todo -> path.join [ESM_SRC options; entry] ∈ entries) ->
  verbatim entries (log st) ->
  verbatim entries (log (enqueueEntryPoints options todo st).2).
Proof.
  revert st. induction todo as [|e todo IH]; intros st Hsub Hst; [exact Hst|].
  simpl. run_step.
  assert (H1 : verbatim entries (log (enqueue (path.join [ESM_SRC options; e]) st).2)).
  { unfold enqueue. destruct (truthy _); [exact Hst|]. simpl.
    destruct Hst as (Henq & Hwr & Hobs). split; [|split].
    - intros g Hg. apply elem_of_app in Hg as [Hg|Hg]; [now apply Henq|].
      apply list_elem_of_singleton in Hg. inversion Hg; subst. apply Hsub. left.
    - intros g dest out Hg. apply elem_of_app in Hg as [Hg|Hg].
      + apply elem_of_app. left. eapply Hwr, Hg.
      + apply list_elem_of_singleton in Hg. discriminate.
    - intros ev Hev. apply elem_of_app in Hev as [Hev|Hev]; [now apply Hobs|].
      apply list_elem_of_singleton in Hev. subst. auto. }
  destruct (enqueue (path.join [ESM_SRC options; e]) st) as [[[]| |] st1]; simpl in *;
    try exact H1.
  apply IH; [|exact H1]. intros entry Hentry. apply Hsub. now right.
Qed.

End VerbatimRun.

(** X20: with the empty string among the entries of [resolveSkip] every
    import is skipped: a run enqueues the entry points and nothing else,
    writes each file with the text it read from it, and resolves
    nothing. *)
Theorem empty_skip_entry_turns_rewriting_off `{Host} (n : nat) (options : IOptions)
  (disk : FS) :
  let st := (packageESM n options disk).1.2 in
  let after := (packageESM n options disk).2 in
  "" ∈ resolveSkip options ->
  (forall f, f ∈ enqueued (log st) ->
             exists entry, entry ∈ entryPoints options
                           /\ f = path.join [ESM_SRC after; entry])
  /\ (forall f dest out,
         EvWrite f dest out ∈ log st -> EvReadSource f (Some out) ∈ log st)
  /\ (forall e, e ∈ log st -> ~ is_observation e).
Proof.
  change (packageESM n options disk).1
    with ((enqueueEntryPoints (normalizeRepoRoot options)
             (entryPoints (normalizeRepoRoot options));;
           mainLoop (normalizeRepoRoot options) n n)
            (initialState (normalizeRepoRoot options) disk)).
  change (packageESM n options disk).2 with (normalizeRepoRoot options).
  set (after := normalizeRepoRoot options). cbv zeta. intros Hskip.
  set (entries := map (fun entry => path.join [ESM_SRC after; entry]) (entryPoints after)).
  assert (H0 : verbatim entries
                 (log (enqueueEntryPoints after (entryPoints after)
                         (initialState after disk)).2)).
  { apply verbatim_enqueueEntryPoints.
    - intros entry Hentry. apply list_elem_of_fmap. now exists entry.
    - split; [|split]; simpl; intros; match goal with H : _ ∈ [] |- _ => inversion H end. }
  pose proof (enqueueEntryPoints_ok after (entryPoints after) (initialState after disk))
    as Hok.
  run_step.
  destruct (enqueueEntryPoints after (entryPoints after) (initialState after disk))
    as [r st0]. simpl in H0, Hok. subst r.
  destruct (verbatim_mainLoop after n Hskip entries n st0 H0) as (Henq & Hwr & Hobs).
  split; [|split; assumption].
  intros f Hf. apply list_elem_of_omap in Hf as (e & He & Hfe).
  destruct e; try discriminate. inversion Hfe; subst.
  apply Henq in He. apply list_elem_of_fmap in He as (entry & -> & Hentry).
  now exists entry.
Qed.

(** ** Runs that stop on an exception *)

Section Failures.
Context `{Host}.
Variable options : IOptions.
Variable budget : nat.

Lemma computeDestinationFilePath_no_throw filePath e :
  computeDestinationFilePath options budget filePath <> Throw e.
Proof.
  unfold computeDestinationFilePath, applyDestinationFolderSimplifications.
  destruct (_ =? 0); [discriminate|].
  assert (Hloop : forall keys p, simplify_loop options budget keys p <> Throw e).
  { induction keys as [|key keys IH]; intros p; simpl; [discriminate|].
    destruct (replace_while_outcome budget p (Js.replace_backslashes key)
                (property_text (destinationFolderSimplification options)
                   (Js.replace_backslashes key))) as [[mid ->] | ->];
      [apply IH | discriminate]. }
  match goal with
  | |- context [simplify_loop options budget ?keys ?p] =>
      specialize (Hloop keys p); destruct (simplify_loop options budget keys p)
  end; congruence.
Qed.

(** An iteration that stops on an exception other than a failed write
    stops before the write. *)
Lemma processFile_throws f st e :
  shifted f st ->
  (processFile options budget f st).1 = Throw e ->
  (forall p, e <> WriteFailed p) ->
  working f (processFile options budget f st).2.
Proof.
  intros Hs. rewrite processFile_run. cbv zeta.
  pose proof (working_after_read f (readFileSync (fs st) f) st Hs) as Hw.
  destruct (readFileSync (fs st) f) as [src|]; [|intros _ _; exact Hw].
  pose proof (preserves_rewriteInOrder options budget (working f) f
                (reverse (preProcessFile src)) src (stable_working f) _ Hw) as Hw2.
  destruct (rewriteInOrder options budget f (reverse (preProcessFile src)) src _)
    as [[out| |] st2]; simpl in Hw2; try (intros _ _; exact Hw2).
  rewrite write_run.
  pose proof (computeDestinationFilePath_no_throw f) as Hd.
  destruct (computeDestinationFilePath options budget f) as [dest|e'|];
    [|now destruct (Hd e') | intros _ _; exact Hw2].
  cbv zeta. destruct (writeFileSync _ dest out); simpl; [discriminate|].
  intros [= <-] Hne. now destruct (Hne dest).
Qed.

Lemma mainLoop_throws n st e :
  settled st ->
  (mainLoop options budget n st).1 = Throw e ->
  (forall p, e <> WriteFailed p) ->
  exists f, working f (mainLoop options budget n st).2.
Proof.
  revert st. induction n as [|n IH]; intros st Hs; simpl;
    destruct (queue st) as [|f rest] eqn:Hq; simpl; try discriminate.
  run_step.
  set (st0 := mkState (fs st) (in_queue st) rest (seenDir st) (log st)).
  assert (Hshift : shifted f st0).
  { destruct Hs as ((Hin & Hqueue & Hnd) & Hw). unfold shifted, st0. simpl.
    rewrite Hq in Hqueue. auto. }
  destruct (processFile_settles options budget f _ Hshift) as [_ Hok].
  pose proof (processFile_throws f st0 e Hshift) as Hthrow.
  destruct (processFile options budget f st0) as [[[]| e' |loop] st1]; simpl in *.
  - apply IH. now apply Hok.
  - intros [= ->] Hne. exists f. now apply Hthrow.
  - discriminate.
Qed.

End Failures.

(** X21: when a run stops on an exception that is not a failed write (a
    file that cannot be read, an import that cannot be resolved), the
    file it was working on has been read and is not written; the files
    read before it are written. *)
Theorem failed_file_is_not_written `{Host} (n : nat) (options : IOptions) (disk : FS)
  (e : exn) :
  let outcome := (packageESM n options disk).1.1 in
  let st := (packageESM n options disk).1.2 in
  outcome = Throw e ->
  (forall p, e <> WriteFailed p) ->
  exists f,
    sourcesRead (log st) = sourcesWritten (log st) ++ [f]
    /\ f ∉ sourcesWritten (log st).
Proof.
  change (packageESM n options disk).1
    with ((enqueueEntryPoints (normalizeRepoRoot options)
             (entryPoints (normalizeRepoRoot options));;
           mainLoop (normalizeRepoRoot options) n n)
            (initialState (normalizeRepoRoot options) disk)).
  set (after := normalizeRepoRoot options). cbv zeta.
  pose proof (preserves_enqueueEntryPoints after settled (entryPoints after)
                stable_settled _ (settled_initialState after disk)) as Hs.
  pose proof (enqueueEntryPoints_ok after (entryPoints after)
                (initialState after disk)) as Hok.
  run_step.
  destruct (enqueueEntryPoints after (entryPoints after) _) as [r st0].
  simpl in Hs, Hok. subst r. intros Hthrow Hne.
  destruct (mainLoop_throws after n n st0 e Hs Hthrow Hne) as (f & (_ & Hq & Hnd) & Hw).
  exists f. split; [exact Hw|].
  rewrite Hq, Hw in Hnd. apply NoDup_app in Hnd as (Hnd & _).
  apply NoDup_app in Hnd as (_ & Hdisj & _).
  intros Hf. apply (Hdisj f Hf). left.
Qed.

(** ** Entry points and completed runs *)

Section EntryPoints.
Context `{Host}.
Variable options : IOptions.

Lemma enqueueEntryPoints_fresh todo st :
  tracked st ->
  NoDup (enqueued (log st)
         ++ map (fun entry => path.join [ESM_SRC options; entry]) todo) ->
  enqueued (log (enqueueEntryPoints options todo st).2)
  = enqueued (log st) ++ map (fun entry => path.join [ESM_SRC options; entry]) todo.
Proof.
  revert st. induction todo as [|e todo IH]; intros st Ht Hnd.
  - simpl. now rewrite app_nil_r.
  - simpl. run_step.
    set (target := path.join [ESM_SRC options; e]) in *.
    assert (Hfresh : truthy (in_queue st !! target) = false).
    { destruct (truthy (in_queue st !! target)) eqn:Hin; [|reflexivity].
      apply Ht in Hin. apply NoDup_app in Hnd as (_ & Hdisj & _).
      destruct (Hdisj target Hin). left. }
    pose proof (tracked_enqueue st target Ht) as Ht1.
    rewrite enqueue_fresh in * by assumption. simpl in *.
    rewrite IH; [| exact Ht1 |]; simpl; rewrite enqueued_app; simpl.
    + now rewrite <- app_assoc.
    + now rewrite <- app_assoc.
Qed.

End EntryPoints.

(** X22: entry points that name different files are enqueued first, in
    the order given: a run reads them before any file they import. *)
Theorem entry_points_come_first `{Host} (n : nat) (options : IOptions) (disk : FS) :
  let outcome := (packageESM n options disk).1.1 in
  let st := (packageESM n options disk).1.2 in
  let after := (packageESM n options disk).2 in
  let entries :=
    map (fun entry => path.join [ESM_SRC after; entry]) (entryPoints options) in
  NoDup entries ->
  entries `prefix_of` enqueued (log st)
  /\ (outcome = Ok tt -> entries `prefix_of` sourcesRead (log st)).
Proof.
  change (packageESM n options disk).1
    with ((enqueueEntryPoints (normalizeRepoRoot options)
             (entryPoints (normalizeRepoRoot options));;
           mainLoop (normalizeRepoRoot options) n n)
            (initialState (normalizeRepoRoot options) disk)).
  change (packageESM n options disk).2 with (normalizeRepoRoot options).
  set (after := normalizeRepoRoot options). cbv zeta. intros Hnd.
  pose proof (preserves_enqueueEntryPoints after settled (entryPoints after)
                stable_settled _ (settled_initialState after disk)) as Hs.
  pose proof (enqueueEntryPoints_ok after (entryPoints after)
                (initialState after disk)) as Hok.
  pose proof (enqueueEntryPoints_fresh after (entryPoints after) (initialState after disk))
    as Hfirst.
  run_step.
  destruct (enqueueEntryPoints after (entryPoints after) _) as [r st0].
  simpl in Hs, Hok, Hfirst. subst r.
  specialize (Hfirst (proj1 (settled_initialState after disk)) Hnd). simpl in Hfirst.
  destruct (mainLoop_log after n n st0) as [rest Hrest].
  destruct (mainLoop_settles after n n st0 Hs) as [_ Hend].
  assert (Hpre : map (fun entry => path.join [ESM_SRC after; entry]) (entryPoints options)
                   `prefix_of` enqueued (log (mainLoop after n n st0).2)).
  { rewrite Hrest, enqueued_app, Hfirst. now apply prefix_app_r. }
  split; [exact Hpre|].
  intros Hdone. destruct (Hend Hdone) as (((_ & Hq & _) & _) & Hempty).
  rewrite Hempty, app_nil_r in Hq. now rewrite <- Hq.
Qed.


Lemma enqueueEntryPoints_appends `{Host} (options : IOptions) (todo : list string)
  (st : State) :
  exists added,
    let st' := (enqueueEntryPoints options todo st).2 in
    fs st' = fs st /\ queue st' = queue st ++ added
    /\ log st' = log st ++ map EvEnqueue added.
Proof.
  revert st. induction todo as [|e todo IH]; intros st.
  - exists []. simpl. now rewrite !app_nil_r.
  - simpl. run_step. set (target := path.join [ESM_SRC options; e]).
    destruct (truthy (in_queue st !! target)) eqn:Hin;
      [rewrite enqueue_known by assumption | rewrite enqueue_fresh by assumption].
    + apply IH.
    + destruct (IH (mkState (fs st) (<[target := true]> (in_queue st))
                      (queue st ++ [target]) (seenDir st) (log st ++ [EvEnqueue target])))
        as (added & Hfs & Hq & Hlog).
      exists (target :: added). simpl in *.
      rewrite Hfs, Hq, Hlog, <- !app_assoc. auto.
Qed.

Lemma mainLoop_unreadable `{Host} (options : IOptions) (budget n : nat)
  (first : string) (rest : list string) (st : State) :
  queue st = first :: rest ->
  readFileSync (fs st) first = None ->
  mainLoop options budget (S n) st
  = (Throw (ReadFailed first),
     mkState (fs st) (in_queue st) rest (seenDir st)
       (log st ++ [EvReadSource first None])).
Proof.
  intros Hq Hread. simpl. rewrite Hq. run_step.
  rewrite processFile_run. cbv zeta. simpl. now rewrite Hread.
Qed.

(** X23: when the first entry point cannot be read the run stops at
    once with the exception of [readFileSync]: nothing is written, no
    directory is made and the file system is as it was. *)
Theorem unreadable_entry_point_stops_the_run `{Host} (n : nat) (options : IOptions)
  (disk : FS) (entry : string) (more : list string) :
  let outcome := (packageESM (S n) options disk).1.1 in
  let st := (packageESM (S n) options disk).1.2 in
  let after := (packageESM (S n) options disk).2 in
  let first := path.join [ESM_SRC after; entry] in
  entryPoints options = entry :: more ->
  readFileSync disk first = None ->
  outcome = Throw (ReadFailed first)
  /\ sourcesRead (log st) = [first]
  /\ sourcesWritten (log st) = []
  /\ directoriesMade (log st) = []
  /\ fs st = disk.
Proof.
  change (packageESM (S n) options disk).1
    with ((enqueueEntryPoints (normalizeRepoRoot options)
             (entryPoints (normalizeRepoRoot options));;
           mainLoop (normalizeRepoRoot options) (S n) (S n))
            (initialState (normalizeRepoRoot options) disk)).
  change (packageESM (S n) options disk).2 with (normalizeRepoRoot options).
  set (after := normalizeRepoRoot options). cbv zeta.
  change (entryPoints options) with (entryPoints after).
  intros Hentries Hread. rewrite Hentries.
  set (first := path.join [ESM_SRC after; entry]) in *.
  change (enqueueEntryPoints after (entry :: more))
    with (enqueue first;; enqueueEntryPoints after more).
  run_step. rewrite enqueue_fresh by (simpl; now rewrite lookup_empty).
  match goal with
  | |- context [enqueueEntryPoints after more ?s] => set (st1 := s)
  end.
  destruct (enqueueEntryPoints_appends after more st1) as (added & Hfs & Hq & Hlog).
  pose proof (enqueueEntryPoints_ok after more st1) as Hok.
  destruct (enqueueEntryPoints after more st1) as [r st2].
  cbn [fst snd] in *. subst r.
  rewrite (mainLoop_unreadable after (S n) n first added st2 Hq)
    by (now rewrite Hfs).
  cbn [fst snd log fs]. rewrite Hlog. unfold st1. cbn [log fs].
  rewrite <- app_assoc, sourcesRead_app, sourcesWritten_app, directoriesMade_app.
  assert (Hnone : forall l, sourcesRead (map EvEnqueue l) = []
                            /\ sourcesWritten (map EvEnqueue l) = []
                            /\ directoriesMade (map EvEnqueue l) = []).
  { induction l as [|a l IH]; simpl; auto. }
  destruct (Hnone added) as (Hr & Hw & Hd).
  rewrite !sourcesRead_app, !sourcesWritten_app, !directoriesMade_app, Hr, Hw, Hd.
  repeat split; auto.
Qed.

(** X24: when a run returns normally the queue is empty, and every file
    that was enqueued has been read and written, in the order in which
    the files were enqueued. *)
Theorem completed_run_leaves_nothing_pending `{Host} (n : nat) (options : IOptions)
  (disk : FS) :
  let outcome := (packageESM n options disk).1.1 in
  let st := (packageESM n options disk).1.2 in
  outcome = Ok tt ->
  queue st = []
  /\ sourcesRead (log st) = enqueued (log st)
  /\ sourcesWritten (log st) = enqueued (log st).
Proof.
  change (packageESM n options disk).1
    with ((enqueueEntryPoints (normalizeRepoRoot options)
             (entryPoints (normalizeRepoRoot options));;
           mainLoop (normalizeRepoRoot options) n n)
            (initialState (normalizeRepoRoot options) disk)).
  set (after := normalizeRepoRoot options). cbv zeta.
  pose proof (preserves_enqueueEntryPoints after settled (entryPoints after)
                stable_settled _ (settled_initialState after disk)) as Hs.
  pose proof (enqueueEntryPoints_ok after (entryPoints after)
                (initialState after disk)) as Hok.
  run_step.
  destruct (enqueueEntryPoints after (entryPoints after) _) as [r st0].
  simpl in Hs, Hok. subst r. intros Hdone.
  destruct (mainLoop_settles after n n st0 Hs) as [_ Hend].
  destruct (Hend Hdone) as (((_ & Hq & _) & Hw) & Hempty).
  rewrite Hempty, app_nil_r in Hq.
  split; [exact Hempty|]. split; [now symmetry | congruence].
Qed.

(** ** Further examples *)

Ltac plain_segments :=
  repeat match goal with
         | |- Forall _ _ => constructor
         | |- plain_segment _ => repeat split
         | |- _ <> _ => discriminate
         end.

Section FurtherExamples.
#[local] Existing Instance ExampleHost.host.

Lemma backslash_key_puts_undefined_witness :
  applyDestinationFolderSimplifications backslash_key_options 20
    "/repo/out/node_modules/dep/dist/index.js"
  = replace_while 20 "/repo/out/node_modules/dep/dist/index.js"
      "node_modules/dep/dist" "undefined".
Proof.
  apply (backslash_key_puts_undefined backslash_key_options 20
           "node_modules\dep\dist" "dep" "/repo/out/node_modules/dep/dist/index.js");
    [reflexivity | discriminate].
Defined.

Lemma source_tree_is_mirrored_witness :
  computeDestinationFilePath engine_options 0 "/repo/src/lib/a.js"
  = Ok "/repo/out/lib/a.js".
Proof.
  apply (source_tree_is_mirrored engine_options 0 ["repo"] ["src"] ["out"] ["lib"; "a.js"]);
    try reflexivity; plain_segments.
Defined.

Lemma dependency_tree_is_mirrored_witness :
  computeDestinationFilePath engine_options 0 "/repo/vendor/lib.js"
  = Ok "/repo/out/vendor/lib.js".
Proof.
  apply (dependency_tree_is_mirrored engine_options 0 ["repo"] ["out"] ["vendor"; "lib.js"]);
    try reflexivity; plain_segments.
  intros key Hkey. apply list_elem_of_singleton in Hkey. subst key.
  vm_compute. reflexivity.
Defined.

Lemma rewritten_specifier_between_destinations_witness :
  relativeSpecifier "/repo/out/a/x.js" "/repo/out/vendor/lib.js" = "../vendor/lib".
Proof.
  apply (eq_trans (rewritten_specifier_between_destinations
                     ["repo"; "out"] ["a"] ["vendor"; "lib.js"] "x.js"
                     ltac:(plain_segments) ltac:(plain_segments) ltac:(plain_segments)
                     ltac:(plain_segments) ltac:(discriminate) ltac:(discriminate))).
  reflexivity.
Defined.

Lemma relative_import_is_resolved_from_the_importer_witness :
  rewriteImport engine_options 20 "/repo/src/a.js" ref_b example_source
    (blank example_disk)
  = (Ok example_source, (enqueue "/repo/src/b.js" (blank example_disk)).2).
Proof.
  apply (proj1 (relative_import_is_resolved_from_the_importer engine_options 20
                  ["repo"; "src"] ["b"] "x" "a.js" example_source 7 10
                  (blank example_disk)
                  ltac:(plain_segments) ltac:(plain_segments) ltac:(plain_segments)
                  ltac:(plain_segments) ltac:(discriminate))).
  reflexivity.
Defined.

Lemma candidates_from_the_file_up_to_the_root_witness :
  generatePaths 20 "/repo" "dep" "/repo/src/a.js"
  = Ok ["/repo/src/node_modules/dep"; "/repo/node_modules/dep"].
Proof.
  apply (eq_trans (proj1 (candidates_from_the_file_up_to_the_root 20 "dep" "a.js"
                            ["repo"] ["src"]
                            ltac:(plain_segments) ltac:(discriminate)
                            ltac:(plain_segments) ltac:(plain_segments)
                            ltac:(simpl; lia)))).
  reflexivity.
Defined.

Lemma empty_skip_entry_turns_rewriting_off_witness :
  let st := (packageESM 20 skip_all_options example_disk).1.2 in
  "" ∈ resolveSkip skip_all_options
  /\ sourcesRead (log st) = ["/repo/src/a.js"]
  /\ (forall f dest out,
         EvWrite f dest out ∈ log st -> EvReadSource f (Some out) ∈ log st).
Proof.
  assert (Hskip : "" ∈ resolveSkip skip_all_options) by left.
  split; [exact Hskip|]. split; [reflexivity|].
  exact (proj1 (proj2 (empty_skip_entry_turns_rewriting_off 20 skip_all_options
                         example_disk Hskip))).
Defined.

Lemma destination_without_matching_rule_witness :
  computeDestinationFilePath engine_options 0 "/repo/vendor/lib.js"
  = Ok "/repo/out/vendor/lib.js".
Proof.
  apply (destination_without_matching_rule engine_options 0 "/repo/vendor/lib.js").
  - vm_compute. discriminate.
  - intros key Hkey. apply list_elem_of_singleton in Hkey. subst key.
    vm_compute. reflexivity.
Defined.

Lemma shrinking_rules_terminate_witness :
  exists out,
    applyDestinationFolderSimplifications engine_options 40
      "/repo/out/node_modules/dep/dist/index.js" = Ok out
    /\ (Js.len out <= Js.len "/repo/out/node_modules/dep/dist/index.js")%nat
    /\ (forall key,
           last (map fst (destinationFolderSimplification engine_options)) = Some key ->
           Js.indexOf out (Js.replace_backslashes key) < 0).
Proof.
  apply (shrinking_rules_terminate engine_options 40
           "/repo/out/node_modules/dep/dist/index.js").
  - intros key Hkey. apply list_elem_of_singleton in Hkey. subst key.
    split; [repeat constructor; discriminate | vm_compute; lia].
  - vm_compute. lia.
Defined.

Lemma empty_simplification_key_never_ends_witness :
  computeDestinationFilePath empty_key_options 20 "/repo/vendor/lib.js"
  = Diverge SimplifyLoop.
Proof.
  apply (empty_simplification_key_never_ends empty_key_options 20 "/repo/vendor/lib.js").
  - right. left.
  - vm_compute. discriminate.
Defined.

Lemma growing_replacement_never_ends_witness :
  replace_while 20 "/repo/out/dist/index.js" "dist" "dist/esm" = Diverge SimplifyLoop.
Proof.
  apply growing_replacement_never_ends.
  - repeat constructor; discriminate.
  - vm_compute. discriminate.
  - vm_compute. discriminate.
Defined.

Lemma walk_with_short_root_never_ends_witness :
  repoRoot (normalizeRepoRoot root_options) = ""
  /\ generatePaths 20 (repoRoot (normalizeRepoRoot root_options)) "dep" "/src/a.js"
     = Diverge WalkLoop.
Proof.
  split; [reflexivity|].
  apply (walk_with_short_root_never_ends 20 (repoRoot (normalizeRepoRoot root_options))
           "dep" "/src/a.js" (blank example_disk)).
  vm_compute. lia.
Defined.

Lemma findNodeModule_stops_at_first_hit_witness :
  let candidates :=
    ["/repo/src/node_modules/dep"; "/repo/node_modules/dep"; "/node_modules/dep"] in
  exists before after,
    candidates = before ++ "/repo/node_modules/dep" :: after
    /\ Forall (fun c => existsSync example_disk c = false) before
    /\ existsSync example_disk "/repo/node_modules/dep" = true
    /\ (findNodeModule_loop "dep" "/repo/src/a.js" candidates (blank example_disk)).2
       = with_log (blank example_disk)
           (map (fun c => EvExists c false) before
            ++ [EvExists "/repo/node_modules/dep" true]).
Proof.
  intros candidates.
  apply (findNodeModule_stops_at_first_hit "dep" "/repo/src/a.js" candidates
           (blank example_disk)).
  apply pair_of_outcome. reflexivity.
Defined.

Lemma completed_run_leaves_nothing_pending_witness :
  let st := (packageESM 20 example_options example_disk).1.2 in
  queue st = []
  /\ sourcesRead (log st) = enqueued (log st)
  /\ sourcesWritten (log st) = enqueued (log st).
Proof.
  apply (completed_run_leaves_nothing_pending 20 example_options example_disk).
  reflexivity.
Defined.

Lemma entry_points_come_first_witness :
  let run := packageESM 20 example_options example_disk in
  ["/repo/src/a.js"] `prefix_of` enqueued (log run.1.2)
  /\ (run.1.1 = Ok tt -> ["/repo/src/a.js"] `prefix_of` sourcesRead (log run.1.2)).
Proof.
  apply (entry_points_come_first 20 example_options example_disk).
  apply NoDup_singleton.
Defined.

Lemma rules_without_backslash_apply_as_written_witness :
  applyDestinationFolderSimplifications slash_key_options 20
    "/repo/out/node_modules/dep/dist/index.js"
  = simplify_by_rules 20 [("node_modules/dep/dist", "dep")]
      "/repo/out/node_modules/dep/dist/index.js".
Proof.
  apply (rules_without_backslash_apply_as_written slash_key_options 20
           "/repo/out/node_modules/dep/dist/index.js").
  - apply NoDup_singleton.
  - intros key Hkey. apply list_elem_of_singleton in Hkey. subst key.
    repeat constructor; discriminate.
Defined.

Lemma unreadable_entry_point_stops_the_run_witness :
  let run := packageESM 20 missing_entry_options example_disk in
  run.1.1 = Throw (ReadFailed "/repo/src/nowhere.js")
  /\ sourcesRead (log run.1.2) = ["/repo/src/nowhere.js"]
  /\ sourcesWritten (log run.1.2) = []
  /\ directoriesMade (log run.1.2) = []
  /\ fs run.1.2 = example_disk.
Proof.
  apply (unreadable_entry_point_stops_the_run 19 missing_entry_options example_disk
           "nowhere.js" ["a.js"]); reflexivity.
Defined.

Lemma failed_file_is_not_written_witness :
  let run := packageESM 20 no_alias_options example_disk in
  run.1.1 = Throw (moduleNotFound "lib" "/repo/src/a.js")
  /\ exists f,
      sourcesRead (log run.1.2) = sourcesWritten (log run.1.2) ++ [f]
      /\ f ∉ sourcesWritten (log run.1.2).
Proof.
  intros run.
  assert (Hthrow : run.1.1 = Throw (moduleNotFound "lib" "/repo/src/a.js"))
    by reflexivity.
  split; [exact Hthrow|].
  apply (failed_file_is_not_written 20 no_alias_options example_disk _ Hthrow).
  intros p. discriminate.
Defined.

End FurtherExamples.

(** ** Files as bytes *)

Section Bytes.
Import ByteHost.

Lemma decode_encoded_char c rest :
  Utf8.decode_from None
    ((Byte.to_N <$> (byte_of <$> Utf8.encode (unit_of c))) ++ rest)
  = unit_of c :: Utf8.decode_from None rest.
Proof. destruct c as [[] [] [] [] [] [] [] []]; reflexivity. Qed.

Lemma char_of_unit_of c :
  Utf8.units (unit_of c) = [unit_of c] /\ char_of (unit_of c) = Some c.
Proof. destruct c as [[] [] [] [] [] [] [] []]; split; reflexivity. Qed.

(** What is written is what a later read finds: the encoding of a text
    decodes to that text. *)
Lemma toString_fromString text : toString (fromString text) = Some text.
Proof.
  unfold toString, fromString, text_of, Utf8.decode.
  rewrite <- (str_chars text) at 2.
  assert (H : forall cs,
    mapM char_of
      (Utf8.decode_from None
         (Byte.to_N <$> (byte_of <$> ((unit_of <$> cs) ≫= Utf8.encode)))
       ≫= Utf8.units) = Some cs).
  { induction cs as [|c cs IH]; [reflexivity|].
    rewrite fmap_cons, bind_cons, !fmap_app, decode_encoded_char, bind_cons.
    destruct (char_of_unit_of c) as [-> Hc]. simpl. rewrite Hc. simpl.
    rewrite IH. reflexivity. }
  now rewrite H.
Qed.

(** A file that holds the encoding of a text is copied byte for byte
    when the text is written back as it was read. *)
Lemma encoded_text_is_copied text :
  fromString <$> toString (fromString text) = Some (fromString text).
Proof. now rewrite toString_fromString. Qed.

#[local] Existing Instance ByteHost.host.

(** A source file that is not well-formed UTF-8 and has no import at
    all: the byte E9 is read as U+FFFD, and the file is written with the
    three bytes EF BF BD in its place. The run completes. *)
Lemma source_that_is_not_utf8_is_not_copied :
  let run := packageESM 5 plain_options latin1_disk in
  files latin1_disk !! "/repo/src/a.js" = Some latin1_source
  /\ (exists text,
        readFileSync latin1_disk "/repo/src/a.js" = Some text
        /\ preProcessFile text = []
        /\ EvWrite "/repo/src/a.js" "/repo/out/a.js" text ∈ log run.1.2)
  /\ run.1.1 = Ok tt
  /\ files (fs run.1.2) !! "/repo/out/a.js"
     = Some [Byte.x2f; Byte.x2f; Byte.x20; Byte.x63; Byte.x61; Byte.x66;
             Byte.xef; Byte.xbf; Byte.xbd; Byte.x0a]
  /\ files (fs run.1.2) !! "/repo/out/a.js" <> Some latin1_source.
Proof.
  cbv zeta. split; [reflexivity|]. split.
  - eexists. split; [vm_compute; reflexivity|]. split; [vm_compute; reflexivity|].
    vm_compute. repeat first [left | right].
  - split; [vm_compute; reflexivity|]. split; [vm_compute; reflexivity|].
    vm_compute. discriminate.
Qed.

End Bytes.
